(** * Long-video windowing and keyframe conditioning of [animatediff/generate.py]

    A shallow embedding of the window segmenter ([segment_dict]), the latent
    continuity callback ([example_callback]), the output stitcher
    ([combine_videos]), the keyframe schedulers ([prompt_preprocess],
    [ip_adapter_preprocess], [mask_preprocess]), the region composer
    ([region_preprocess]) and the per-frame prompt query
    ([get_current_prompt_embeds]), with the properties the specification
    states about them; and of the code around them: the loader of the
    initial images ([img2img_preprocess]), the wildcard pass
    ([wild_card_conversion]), the prompts of a window
    ([transform_region_condi_list]) and the preprocessor cache
    ([get_preprocessor], [clear_controlnet_preprocessor],
    [get_preprocessed_img]).

    Python integers are [Z]; a Python [dict] whose iteration order the code
    relies on is an insertion-ordered association list ([PyDict]), a [dict]
    that is only looked up and updated by key is a [gmap]; exceptions are the
    [Raise] results of a small error monad; the one unbounded [while] loop
    carries fuel.  A finite Python float is the rational it stands for, and
    a float product is the exact product rounded to the nearest binary64
    float. *)

From Stdlib Require Import ZArith QArith Qabs Qpower String.
From stdpp Require Import base list list_numbers functions gmap sorting.

Local Open Scope Z_scope.

(** ** Python results and exceptions *)

Inductive exn : Type :=
  | ValueError
  | IndexError
  | KeyError
  | TypeError.

Inductive result (A : Type) : Type :=
  | Ok (a : A)
  | Raise (e : exn).
Arguments Ok {A} a.
Arguments Raise {A} e.

Definition rbind {A B} (r : result A) (f : A → result B) : result B :=
  match r with
  | Ok a => f a
  | Raise e => Raise e
  end.

Notation "x ←r e1 ; e2" := (rbind e1 (λ x, e2))
  (at level 100, e1 at next level, e2 at level 200, right associativity).

(** A [for] loop whose body may raise: the first exception ends it. *)
Fixpoint for_each {A S} (body : S → A → result S) (s : S) (l : list A) : result S :=
  match l with
  | [] => Ok s
  | x :: l' => s' ←r body s x; for_each body s' l'
  end.

(** ** Python sequences *)

(** [len(l)]. *)
Definition len {A} (l : list A) : Z := Z.of_nat (length l).

(** [l[i]]: a negative index counts from the end, anything outside
    [-len(l) .. len(l)-1] raises IndexError. *)
Definition py_index {A} (l : list A) (i : Z) : result A :=
  let j := if i <? 0 then i + len l else i in
  if (0 <=? j) && (j <? len l) then
    match l !! Z.to_nat j with
    | Some x => Ok x
    | None => Raise IndexError
    end
  else Raise IndexError.

(** The bound of a slice, clamped the way Python clamps it. *)
Definition slice_bound {A} (l : list A) (i : Z) : Z :=
  if i <? 0 then Z.max (i + len l) 0 else Z.min i (len l).

(** [l[a:b]]. *)
Definition py_slice {A} (l : list A) (a b : Z) : list A :=
  let a' := slice_bound l a in
  let b' := slice_bound l b in
  take (Z.to_nat (b' - a')) (drop (Z.to_nat a') l).

(** [range(a, b)]. *)
Definition py_range (a b : Z) : list Z := seqZ a (b - a).

(** ** Insertion-ordered dictionaries *)

Module PyDict.
Section dict.
Context {K V : Type} `{EqDecision K}.

Definition dict : Type := list (K * V).

(** [list(d.keys())], in insertion order. *)
Definition keys (d : dict) : list K := d.*1.

Fixpoint get (k : K) (d : dict) : option V :=
  match d with
  | [] => None
  | (k', v) :: d' => if decide (k = k') then Some v else get k d'
  end.

(** [d[k]], raising KeyError on a missing key. *)
Definition getitem (d : dict) (k : K) : result V :=
  match get k d with
  | Some v => Ok v
  | None => Raise KeyError
  end.

(** [d[k] = v]: an existing key keeps its place, a new one goes last. *)
Fixpoint set (k : K) (v : V) (d : dict) : dict :=
  match d with
  | [] => [(k, v)]
  | (k', v') :: d' =>
      if decide (k = k') then (k, v) :: d' else (k', v') :: set k v d'
  end.

(** The invariant of a dictionary: no key twice. *)
Definition wf (d : dict) : Prop := NoDup (keys d).
End dict.
Arguments dict : clear implicits.
End PyDict.

(** ** The window segmenter: [segment_dict] (generate.py 1189-1240) *)

Section segment_dict.
Context {K V : Type} `{EqDecision K}.

(** The body of [for i in range(start, start + segment_size)]. *)
Definition segment_body (keys : list K) (dictionary : PyDict.dict K V)
    (previous_segment_keys : list K)
    (acc : PyDict.dict K V * list K) (i : Z) : result (PyDict.dict K V * list K) :=
  let '(current_segment, current_overlap_keys) := acc in
  key ←r py_index keys i;
  value ←r PyDict.getitem dictionary key;
  let current_segment := PyDict.set key value current_segment in
  let current_overlap_keys :=
    if bool_decide (key ∈ previous_segment_keys)
    then current_overlap_keys ++ [key] else current_overlap_keys in
  Ok (current_segment, current_overlap_keys).

(** The [while start < len(keys)] loop; [None] when the fuel runs out
    before the loop ends. *)
Fixpoint segment_loop (fuel : nat) (keys : list K) (dictionary : PyDict.dict K V)
    (segment_size overlap : Z) (start : Z) (previous_segment_keys : list K)
    (segments : list (PyDict.dict K V)) (overlaps : list (list K))
    : option (result (list (PyDict.dict K V) * list (list K))) :=
  match fuel with
  | O => None
  | S fuel' =>
      if negb (start <? len keys) then Some (Ok (segments, overlaps))
      else
        let next_start := start + segment_size - overlap in
        let start :=
          if len keys - start <? segment_size then len keys - segment_size else start in
        match for_each (segment_body keys dictionary previous_segment_keys)
                ([], []) (py_range start (start + segment_size)) with
        | Raise e => Some (Raise e)
        | Ok (current_segment, current_overlap_keys) =>
            let segments := segments ++ [current_segment] in
            let overlaps := overlaps ++ [current_overlap_keys] in
            let previous_segment_keys := py_slice keys start (start + segment_size) in
            if start + segment_size >=? len keys then Some (Ok (segments, overlaps))
            else segment_loop fuel' keys dictionary segment_size overlap
                   next_start previous_segment_keys segments overlaps
        end
  end.

Definition segment_dict (fuel : nat) (dictionary : PyDict.dict K V)
    (segment_size overlap : Z)
    : option (result (list (PyDict.dict K V) * list (list K))) :=
  let keys := PyDict.keys dictionary in
  if len keys <? segment_size then Some (Raise ValueError)
  else if len keys =? segment_size then Some (Ok ([dictionary], []))
  else segment_loop fuel keys dictionary segment_size overlap 0 [] [] [].

(** Window 0 whole, every later window without as many leading keys as its
    overlap list has. *)
Definition trimmed_keys (segments : list (PyDict.dict K V))
    (overlaps : list (list K)) : list K :=
  concat (imap (λ i seg,
    if decide (i = 0%nat) then PyDict.keys seg
    else drop (length (overlaps !!! i)) (PyDict.keys seg)) segments).
End segment_dict.

(** ** The latent continuity callback: [example_callback] (generate.py 1254-1271)

    A latent buffer is indexed [batch, channel, frame, height, width]; the
    callback only reads and writes whole frame-axis slices
    [latents[:, :, f, :, :]], so a buffer is the list of its frame-axis
    slices.  Buffers are objects: the cache stores references, and the
    callback writes through the reference it is given, so buffers live in a
    heap and the cache holds addresses. *)

Abbreviation addr := nat (only parsing).

Section example_callback.
Context {K Slice : Type}.

Local Abbreviation buffer := (list Slice).

Record callback_state : Type := CallbackState {
  heap : addr → buffer;
  latents_cache : gmap Z (gmap Z addr);
}.

(** [t[:, :, i, :, :] = v]. *)
Definition frame_set (t : buffer) (i : Z) (v : Slice) : result buffer :=
  let j := if i <? 0 then i + len t else i in
  if (0 <=? j) && (j <? len t) then Ok (<[Z.to_nat j := v]> t)
  else Raise IndexError.

(** [d[k]] on a cache level. *)
Definition cache_getitem {A} (d : gmap Z A) (k : Z) : result A :=
  match d !! k with
  | Some a => Ok a
  | None => Raise KeyError
  end.

(** The body of [for i, _ in enumerate(overlaps[idx])]. *)
Definition copy_overlap_frame (cache : gmap Z (gmap Z addr))
    (idx iteration : Z) (latents : addr) (overlap_keys : list K)
    (h : addr → buffer) (i : Z) : result (addr → buffer) :=
  row ←r cache_getitem cache (idx - 1);
  last_latents ←r cache_getitem row iteration;
  let last_idx := len (h latents) - len overlap_keys + i in
  v ←r py_index (h last_latents) last_idx;
  t ←r frame_set (h latents) i v;
  Ok (<[latents := t]> h).

(** The callback with [debug=False], as the coordinator installs it; the
    timestep [t] is not used. *)
Definition example_callback (overlaps : list (list K))
    (idx iteration : Z) (latents : addr) (st : callback_state)
    : result callback_state :=
  let row := default ∅ (latents_cache st !! idx) in
  let cache := <[idx := <[iteration := latents]> row]> (latents_cache st) in
  if idx >? 0 then
    overlap_keys ←r py_index overlaps idx;
    h ←r for_each (copy_overlap_frame cache idx iteration latents overlap_keys)
           (heap st) (seqZ 0 (len overlap_keys));
    Ok (CallbackState h cache)
  else Ok (CallbackState (heap st) cache).
End example_callback.
Arguments callback_state : clear implicits.

(** ** The output stitcher: [combine_videos] (generate.py 1343-1372)

    A window output is a torch tensor, a numpy array, or something else; as
    for latents, a video is the list of its slices along the time axis
    (axis 2). *)

Inductive video (Frame : Type) : Type :=
  | Tensor (frames : list Frame)
  | NdArray (frames : list Frame)
  | OtherObject.
Arguments Tensor {Frame} frames.
Arguments NdArray {Frame} frames.
Arguments OtherObject {Frame}.

Section combine_videos.
Context {K Frame : Type}.

(** The number of slices along the time axis, [v.shape[2]]. *)
Definition frame_count (v : video Frame) : Z :=
  match v with
  | Tensor fs | NdArray fs => len fs
  | OtherObject => 0
  end.

(** [torch.cat((a, b), dim=2)]: both operands must be tensors. *)
Definition torch_cat (a b : video Frame) : result (video Frame) :=
  match a, b with
  | Tensor fa, Tensor fb => Ok (Tensor (fa ++ fb))
  | _, _ => Raise TypeError
  end.

(** [v[:, :, n:, :, :]]. *)
Definition slice_from (v : video Frame) (n : Z) : video Frame :=
  match v with
  | Tensor fs => Tensor (py_slice fs n (len fs))
  | NdArray fs => NdArray (py_slice fs n (len fs))
  | OtherObject => OtherObject
  end.

(** [np.concatenate(videos, axis=2)] on arrays; an operand that is not an
    array is not converted here but rejected. *)
Fixpoint np_concatenate (videos : list (video Frame)) : result (list Frame) :=
  match videos with
  | [] => Ok []
  | NdArray fs :: rest => tl ←r np_concatenate rest; Ok (fs ++ tl)
  | _ :: _ => Raise TypeError
  end.

(** The body of [for i, video in enumerate(videos)] of the tensor branch. *)
Definition combine_step (overlaps : list (list K))
    (combined_video : video Frame) (iv : Z * video Frame)
    : result (video Frame) :=
  let '(i, video) := iv in
  if i =? 0 then Ok video
  else
    overlap_keys ←r py_index overlaps i;
    let slice_length := len overlap_keys in
    let video_sliced := slice_from video slice_length in
    torch_cat combined_video video_sliced.

(** [combined_video] is unbound until the round for [i == 0] assigns it;
    the loop starts here from [videos[0]], which that round assigns. *)
Definition combine_videos (videos : list (video Frame))
    (overlaps : list (list K)) : result (video Frame) :=
  first ←r py_index videos 0;
  match first with
  | Tensor _ =>
      for_each (combine_step overlaps) first
        (zip (seqZ 0 (len videos)) videos)
  | NdArray _ =>
      fs ←r np_concatenate videos; Ok (NdArray fs)
  | OtherObject => Raise ValueError
  end.
End combine_videos.

(** ** Keyframe schedules: the hold keys of [prompt_preprocess] and
    [ip_adapter_preprocess] (generate.py 823-830 and 783-790)

    [prompt_fixed_ratio] is a Python float, so the product
    [(k1 - k0) * prompt_fixed_ratio] is a binary64 product and [round] is
    taken of its rounded value: for the ratio 0.7 and a gap of 45 frames the
    product is 31.499999999999996 and the key is 31, where the exact product
    31.5 would give 32. *)

(** [round(x)] of Python 3: to the nearest integer, a tie to the even one. *)
Definition py_round (x : Q) : Z :=
  let n := Qnum x in
  let d := Z.pos (Qden x) in
  let q := n `div` d in
  let r := n `mod` d in
  match 2 * r ?= d with
  | Lt => q
  | Gt => q + 1
  | Eq => if Z.even q then q else q + 1
  end.

(** ** Python floats: the binary64 product and its rounding

    A finite Python float is the rational it stands for.  [round_double x]
    is the float nearest to [x], a tie going to the even significand: 53
    bits of significand, the last place of a subnormal at 2^-1074.  This
    is the result of a float operation whose exact result is [x], and of
    reading the number [x] as a float.  Overflow is not modelled: the
    results that occur are far below 2^1024. *)

(** The exponent [e] with 2^e <= x < 2^(e+1), for a positive [x]. *)
Definition Qfloor_log2 (x : Q) : Z :=
  let t := Z.log2 (Qnum x) - Z.log2 (Z.pos (Qden x)) in
  if Qle_bool (2 ^ t) x then t else t - 1.

(** The exponent of the unit in the last place of the float nearest to [x]. *)
Definition double_exponent (x : Q) : Z :=
  Z.max (Qfloor_log2 (Qabs x) - 52) (-1074).

Definition round_double (x : Q) : Q :=
  let e := double_exponent x in
  (inject_Z (py_round (x * 2 ^ (- e))) * 2 ^ e)%Q.

(** [round(n * ratio)] for an integer [n] and a float [ratio]: the integer
    is converted to a float, the product is a float product, [round] takes
    the float to the nearest integer.  [ratio] is the number of the
    configuration, the float is the one nearest to it (itself when it is a
    float already). *)
Definition float_round_mul (n : Z) (ratio : Q) : Z :=
  py_round (round_double (round_double (inject_Z n) * round_double ratio)).

(** Integers up to here are floats. *)
Definition max_frame : Z := 2 ^ 53.

(** [k05] as the loop body leaves it before the test [k05 != k0]. *)
Definition hold_key (prompt_fixed_ratio : Q) (k0 k1 : Z) : Z :=
  let k05 := k0 + float_round_mul (k1 - k0) prompt_fixed_ratio in
  if k05 =? k1 then k05 - 1 else k05.

Section hold_keys.
Context {T : Type}.

(** [list(dict(sorted(prompt_map.items())).keys())]. *)
Definition sorted_keys (prompt_map : gmap Z T) : list Z :=
  merge_sort Z.le (elements (dom prompt_map)).

(** The body of [for k0, k1 in zip(key_list, key_list[1:] + [duration])];
    [k0] is a key of the map, so [prompt_map[k0]] is defined. *)
Definition hold_step (prompt_fixed_ratio : Q) (prompt_map : gmap Z T)
    (kk : Z * Z) : gmap Z T :=
  let '(k0, k1) := kk in
  let k05 := hold_key prompt_fixed_ratio k0 k1 in
  if bool_decide (k05 ≠ k0) then
    match prompt_map !! k0 with
    | Some v => <[k05 := v]> prompt_map
    | None => prompt_map
    end
  else prompt_map.

(** [zip(key_list, key_list[1:] + [duration])]. *)
Definition key_pairs (key_list : list Z) (duration : Z) : list (Z * Z) :=
  zip key_list (tail key_list ++ [duration]).

Definition insert_hold_keys (prompt_map : gmap Z T) (prompt_fixed_ratio : Q)
    (duration : Z) : gmap Z T :=
  let key_list := sorted_keys prompt_map in
  foldl (hold_step prompt_fixed_ratio) prompt_map (key_pairs key_list duration).
End hold_keys.

(** Python truth of a string: the empty string is false. *)
Definition str_truthy (s : string) : bool :=
  match s with
  | EmptyString => false
  | String _ _ => true
  end.

(** [prompt_preprocess] (generate.py 805-832).  The keys of
    [prompt_config_map] are given as [int(k)] makes them, in the order the
    dictionary lists them. *)
Definition prompt_preprocess (prompt_config_map : list (Z * string))
    (head_prompt tail_prompt : string) (prompt_fixed_ratio : Q)
    (video_length : Z) : gmap Z string :=
  let prompt_map :=
    foldl (λ (prompt_map : gmap Z string) (kp : Z * string),
      let '(k, pr) := kp in
      if k <? video_length then
        let pr := if str_truthy head_prompt
                  then String.append head_prompt (String.append "," pr) else pr in
        let pr := if str_truthy tail_prompt
                  then String.append pr (String.append "," tail_prompt) else pr in
        <[k := pr]> prompt_map
      else prompt_map) ∅ prompt_config_map in
  insert_hold_keys prompt_map prompt_fixed_ratio video_length.

(** ** Images *)

(** What the schedulers use of a PIL image: its mode, its size, its pixel
    data. *)
Record Image : Type := MkImage {
  mode : string;
  size : Z * Z;
  pixels : list Z;
}.

Global Instance Image_eq_dec : EqDecision Image.
Proof. solve_decision. Defined.

(** [Image.new(mode, size, color)]. *)
Definition Image_new (mode : string) (size : Z * Z) (color : Z) : Image :=
  MkImage mode size (replicate (Z.to_nat (size.1 * size.2)) color).

(** The [[0-9]*.png] files of an image directory in the sorted order of
    their paths, each as its frame number [int(Path(p).stem)] and the image
    [get_resized_image] makes of it. *)
Abbreviation image_files := (list (Z * Image)) (only parsing).

(** ** Mask schedules: [mask_preprocess] (generate.py 991-1037) *)

(** Lines 1008-1016: the explicit keys, and the size and mode of the first
    mask kept. *)
Definition load_masks (imgs : image_files) (duration : Z)
    : gmap Z Image * option (Z * Z * string) :=
  foldl (λ (st : gmap Z Image * option (Z * Z * string)) (fi : Z * Image),
    let '(mask_map, size_mode) := st in
    let '(frame_no, img) := fi in
    if frame_no <? duration then
      (<[frame_no := img]> mask_map,
       match size_mode with
       | None => Some (size img, mode img)
       | Some sm => Some sm
       end)
    else st) (∅, None) imgs.

(** The body of [for i in range(duration)]. *)
Definition fill_step (st : gmap Z Image * Image) (i : Z) : gmap Z Image * Image :=
  let '(mask_map, prev_img) := st in
  match mask_map !! i with
  | Some img => (mask_map, img)
  | None => (<[i := prev_img]> mask_map, prev_img)
  end.

(** Lines 1019-1028. *)
Definition forward_fill (mode : string) (size : Z * Z) (duration : Z)
    (mask_map : gmap Z Image) : gmap Z Image :=
  let prev_img :=
    match mask_map !! 0 with
    | Some img => img
    | None => Image_new mode size 0
    end in
  (foldl fill_step (mask_map, prev_img) (py_range 0 duration)).1.

(** [None] is the [None] the function returns when no mask was kept. *)
Definition mask_preprocess (imgs : image_files) (duration : Z)
    : option (gmap Z Image) :=
  match load_masks imgs duration with
  | (mask_map, Some (size, mode)) => Some (forward_fill mode size duration mask_map)
  | (_, None) => None
  end.

(** ** Adapter-image schedules: [ip_adapter_preprocess] (generate.py 744-802) *)

(** The entries of an [ip_adapter_map] configuration the composer reads;
    [is_plus_face] and [is_light] may be absent. *)
Record IpAdapterConfig : Type := MkIpAdapterConfig {
  ip_enable : bool;
  ip_input_images : image_files;
  ip_prompt_fixed_ratio : Q;
  ip_scale : Q;
  ip_is_plus : bool;
  ip_is_plus_face : option bool;
  ip_is_light : option bool;
}.

(** [max(min(1.0, r), 0)]. *)
Definition clamp_ratio (r : Q) : Q :=
  let m := if Qle_bool 1 r then 1%Q else r in
  if Qle_bool 0 m then m else 0%Q.

(** The result is the ["images"] entry of the returned map, or [None]. *)
Definition ip_adapter_preprocess (ip_adapter_config_map : option IpAdapterConfig)
    (duration : Z) : option (gmap Z Image) :=
  match ip_adapter_config_map with
  | None => None
  | Some cfg =>
      if ip_enable cfg then
        let '(images, processed) :=
          foldl (λ (st : gmap Z Image * bool) (fi : Z * Image),
            let '(images, processed) := st in
            let '(frame_no, img) := fi in
            if frame_no <? duration then (<[frame_no := img]> images, true)
            else st) (∅, false) (ip_input_images cfg) in
        if processed then
          let prompt_fixed_ratio := clamp_ratio (ip_prompt_fixed_ratio cfg) in
          Some (insert_hold_keys images prompt_fixed_ratio duration)
        else None
      else None
  end.

(** ** The region composer: [region_preprocess] (generate.py 835-954) *)

(** [region_map[r]["condition"]]. *)
Record Condition : Type := MkCondition {
  c_ip_adapter_map : option IpAdapterConfig;
  c_prompt_map : list (Z * string);
  c_head_prompt : string;
  c_tail_prompt : string;
  c_prompt_fixed_ratio : Q;
}.

(** [region_map[r]] of a numbered region; [r_mask_files] is the content of
    its [mask_dir]. *)
Record RegionConfig : Type := MkRegionConfig {
  r_enable : bool;
  r_mask_files : image_files;
  r_is_init_img : bool;
  r_condition : Condition;
}.

(** An entry of [region_map]: the key ["background"] with its [is_init_img],
    or a region number with its configuration. *)
Inductive region_entry : Type :=
  | Background (is_init_img : bool)
  | Region (r : Z) (cfg : RegionConfig).

Record ModelConfig : Type := MkModelConfig {
  ip_adapter_map : option IpAdapterConfig;
  prompt_map : list (Z * string);
  head_prompt : string;
  tail_prompt : string;
  prompt_fixed_ratio : Q;
  region_map : list region_entry;
}.

(** An element of [region_condi_list]. *)
Record ConditionMap : Type := MkConditionMap {
  cm_prompt_map : gmap Z string;
  cm_ip_adapter_map : option (gmap Z Image);
}.

(** An element of [region_list]. *)
Record RegionItem : Type := MkRegionItem {
  mask_images : option (gmap Z Image);
  src : Z;
}.

(** The returned [ip_adapter_config_map]. *)
Record IpAdapterShared : Type := MkIpAdapterShared {
  scale : Q;
  is_plus : bool;
  is_plus_face : bool;
  is_light : bool;
}.

(** [region_map["background"]["is_init_img"]], when the key is there. *)
Fixpoint background_is_init_img (region_map : list region_entry) : option bool :=
  match region_map with
  | [] => None
  | Background b :: _ => Some b
  | Region _ _ :: rest => background_is_init_img rest
  end.

(** Lines 843-847. *)
Definition is_bg_init_img (model_config : ModelConfig) (is_init_img_exist : bool) : bool :=
  if is_init_img_exist then default false (background_is_init_img (region_map model_config))
  else false.

(** The variables the composer's loops update. *)
Record composer_state : Type := MkComposerState {
  region_condi_list : list ConditionMap;
  region_list : list RegionItem;
  condi_index : Z;
  prev_ip_map : option (gmap Z Image);
}.

(** [if ip_map: prev_ip_map = ip_map]. *)
Definition remember_ip_map (ip_map prev : option (gmap Z Image)) : option (gmap Z Image) :=
  match ip_map with
  | Some m => Some m
  | None => prev
  end.

(** Lines 853-879: the background. *)
Definition compose_background (model_config : ModelConfig) (duration : Z)
    (is_init_img_exist : bool) : composer_state :=
  if negb (is_bg_init_img model_config is_init_img_exist) then
    let ip_map := ip_adapter_preprocess (ip_adapter_map model_config) duration in
    let condition_map :=
      MkConditionMap
        (prompt_preprocess (prompt_map model_config) (head_prompt model_config)
           (tail_prompt model_config) (prompt_fixed_ratio model_config) duration)
        ip_map in
    MkComposerState [condition_map] [MkRegionItem None 0] 1 (remember_ip_map ip_map None)
  else MkComposerState [] [MkRegionItem None (-1)] 0 None.

(** Lines 882-927: the body of [for r in model_config.region_map]. *)
Definition compose_region (duration : Z) (is_init_img_exist : bool)
    (st : composer_state) (entry : region_entry) : composer_state :=
  match entry with
  | Background _ => st
  | Region r cfg =>
      if negb (r_enable cfg) then st
      else
        match mask_preprocess (r_mask_files cfg) duration with
        | None => st
        | Some mask_map =>
            if negb (r_is_init_img cfg) then
              let cond := r_condition cfg in
              let ip_map := ip_adapter_preprocess (c_ip_adapter_map cond) duration in
              let condition_map :=
                MkConditionMap
                  (prompt_preprocess (c_prompt_map cond) (c_head_prompt cond)
                     (c_tail_prompt cond) (c_prompt_fixed_ratio cond) duration)
                  ip_map in
              MkComposerState
                (region_condi_list st ++ [condition_map])
                (region_list st ++ [MkRegionItem (Some mask_map) (condi_index st)])
                (condi_index st + 1)
                (remember_ip_map ip_map (prev_ip_map st))
            else if negb is_init_img_exist then st
            else
              MkComposerState
                (region_condi_list st)
                (region_list st ++ [MkRegionItem (Some mask_map) (-1)])
                (condi_index st)
                (prev_ip_map st)
        end
  end.

(** Lines 843-927: everything before the fill. *)
Definition region_collect (model_config : ModelConfig) (duration : Z)
    (is_init_img_exist : bool) : composer_state :=
  foldl (compose_region duration is_init_img_exist)
    (compose_background model_config duration is_init_img_exist)
    (region_map model_config).

(** Lines 943-946: [c["ip_adapter_map"] = prev_ip_map] where it is [None]. *)
Definition fill_ip_map (prev : gmap Z Image) (c : ConditionMap) : ConditionMap :=
  match cm_ip_adapter_map c with
  | None => MkConditionMap (cm_prompt_map c) (Some prev)
  | Some _ => c
  end.

Definition region_preprocess (model_config : ModelConfig) (duration : Z)
    (is_init_img_exist : bool)
    : result (list ConditionMap * list RegionItem * option IpAdapterShared) :=
  let st := region_collect model_config duration is_init_img_exist in
  filled ←r
    match prev_ip_map st with
    | None => Ok (region_condi_list st, None)
    | Some prev =>
        match ip_adapter_map model_config with
        | None => Raise TypeError
        | Some top =>
            Ok (fill_ip_map prev <$> region_condi_list st,
                Some (MkIpAdapterShared (ip_scale top) (ip_is_plus top)
                        (default false (ip_is_plus_face top))
                        (default false (ip_is_light top))))
        end
    end;
  let '(condi, ip_adapter_config_map) := filled in
  if bool_decide (condi = []) then Raise ValueError
  else Ok (condi, region_list st, ip_adapter_config_map).

(** ** The per-frame prompt query: [get_current_prompt_embeds]
    (generate.py 1507-1534)

    The rate is a Python float and the interpolation method comes from
    outside this file: the float type, the true division of two integers and
    the interpolation are parameters. *)

Section get_current_prompt_embeds.
Context {Embeds Float : Type}.
Variable truediv : Z → Z → Float.
Variable tensor_interpolation : Embeds → Embeds → Float → Embeds.

(** The [for p in prompt_map.keys()] loop, with its [break]. *)
Fixpoint scan_keys (keys : list Z) (center_frame key_prev key_next : Z) : Z * Z :=
  match keys with
  | [] => (key_prev, key_next)
  | p :: rest =>
      if p >? center_frame then (key_prev, p)
      else scan_keys rest center_frame p key_next
  end.

(** [keys] is [list(prompt_map.keys())] of the sorted [prompt_map]. *)
Definition get_current_prompt_embeds (keys : list Z)
    (prompt_embeds_map : gmap Z Embeds) (center_frame video_length : Z)
    : result Embeds :=
  key_first ←r py_index keys 0;
  key_last ←r py_index keys (-1);
  let '(key_prev, key_next) := scan_keys keys center_frame key_last key_first in
  let dist_prev := center_frame - key_prev in
  let dist_prev := if dist_prev <? 0 then dist_prev + video_length else dist_prev in
  let dist_next := key_next - center_frame in
  let dist_next := if dist_next <? 0 then dist_next + video_length else dist_next in
  if (key_prev =? key_next) || (dist_prev + dist_next =? 0) then
    cache_getitem prompt_embeds_map key_prev
  else
    let rate := truediv dist_prev (dist_prev + dist_next) in
    e_prev ←r cache_getitem prompt_embeds_map key_prev;
    e_next ←r cache_getitem prompt_embeds_map key_next;
    Ok (tensor_interpolation e_prev e_next rate).
End get_current_prompt_embeds.

(** ** The vocabulary of the properties *)

(** Every window has [w] entries and starts with the keys of its overlap
    list. *)
Definition windows_ok {K V : Type} (w : nat)
    (segs : list (PyDict.dict K V)) (ovs : list (list K)) : Prop :=
  Forall2 (λ seg ov, length seg = w ∧ ov `prefix_of` PyDict.keys seg) segs ovs.

(** [ks] are the keys of [m0] below [dur], in ascending order. *)
Definition keys_below {T : Type} (m0 : gmap Z T) (ks : list Z) (dur : Z) : Prop :=
  StronglySorted Z.lt (ks ++ [dur])
  ∧ (∀ k, k ∈ ks → is_Some (m0 !! k))
  ∧ (∀ k, is_Some (m0 !! k) → k < dur → k ∈ ks).

(** The value frame [i] is to hold: that of the nearest key of [m0] in
    [0 .. i], or [blank] when there is none. *)
Definition held (m0 : gmap Z Image) (blank : Image) (i : Z) (v : Image) : Prop :=
  (∃ k, 0 ≤ k ≤ i ∧ m0 !! k = Some v ∧ ∀ k', k < k' ≤ i → m0 !! k' = None)
  ∨ ((∀ k, 0 ≤ k ≤ i → m0 !! k = None) ∧ v = blank).

(** The neighbours of a frame among the keys, in the words of the
    specification: the greatest key at or before the frame, else the last
    key; the smallest key after the frame, else the first key. *)
Definition is_key_prev (keys : list Z) (f key_prev : Z) : Prop :=
  (key_prev ∈ keys ∧ key_prev ≤ f ∧ ∀ k, k ∈ keys → k ≤ f → k ≤ key_prev)
  ∨ ((∀ k, k ∈ keys → f < k) ∧ last keys = Some key_prev).

Definition is_key_next (keys : list Z) (f key_next : Z) : Prop :=
  (key_next ∈ keys ∧ f < key_next ∧ ∀ k, k ∈ keys → f < k → key_next ≤ k)
  ∨ ((∀ k, k ∈ keys → k ≤ f) ∧ head keys = Some key_next).

(** The distance from [a] forward to [b] on a circle of [duration] frames. *)
Definition circular_dist (duration a b : Z) : Z := (b - a) `mod` duration.

(** [prev] is the adapter map of the last bundle of [l] that has one of its
    own, or [None] when no bundle has one. *)
Definition last_own_ip_map (l : list ConditionMap)
    (prev : option (gmap Z Image)) : Prop :=
  match prev with
  | Some m =>
      ∃ (j : nat) c, l !! j = Some c ∧ cm_ip_adapter_map c = Some m
        ∧ ∀ (j' : nat) c', (j < j')%nat → l !! j' = Some c' →
            cm_ip_adapter_map c' = None
  | None => ∀ c, c ∈ l → cm_ip_adapter_map c = None
  end.

(** An entry of [region_map] that adds nothing to [region_condi_list]. *)
Definition contributes_no_bundle (duration : Z) (entry : region_entry) : Prop :=
  match entry with
  | Background _ => True
  | Region _ cfg =>
      r_enable cfg = false
      ∨ mask_preprocess (r_mask_files cfg) duration = None
      ∨ r_is_init_img cfg = true
  end.

(** ** Example configurations of the composer *)

Local Open Scope string_scope.

Definition example_mask : Image := MkImage "L" (1, 1) [255].
Definition example_image (n : Z) : Image := MkImage "RGB" (1, 1) [n; n; n].

(** An adapter configuration with one input image, at frame 0. *)
Definition example_adapter (enable : bool) (img : Image) (scale : Q)
    : IpAdapterConfig :=
  MkIpAdapterConfig enable [(0, img)] 1 scale false None None.

(** An enabled region with a mask at frame 0 and its own condition. *)
Definition example_region (ip : option IpAdapterConfig) : RegionConfig :=
  MkRegionConfig true [(0, example_mask)] false
    (MkCondition ip [(0, "region")] "" "" 0).

(** The top-level adapter is switched off; regions 1 and 2 have adapters of
    their own, region 3 has none. *)
Definition fallback_example : ModelConfig :=
  MkModelConfig (Some (example_adapter false (example_image 0) (7 # 10)))
    [(0, "background")] "" "" 0
    [ Region 1 (example_region (Some (example_adapter true (example_image 1) (3 # 10))));
      Region 2 (example_region (Some (example_adapter true (example_image 2) (5 # 10))));
      Region 3 (example_region None) ].

(** The background reuses the initial image and the only region is switched
    off. *)
Definition no_region_example : ModelConfig :=
  MkModelConfig None [(0, "background")] "" "" 0
    [ Background true;
      Region 1 (MkRegionConfig false [(0, example_mask)] false
                  (MkCondition None [(0, "region")] "" "" 0)) ].

Local Close Scope string_scope.

(** ** The windows the segmenter is to produce *)

(** The start of window [i] among [n] keys: [i] steps of
    [segment_size - overlap], pulled back to [n - segment_size]. *)
Definition window_start (n w o i : nat) : nat :=
  Nat.min (i * (w - o)) (n - w).

(** Window [i] of a dictionary: [w] items from its start. *)
Definition window_at {K V : Type} (d : PyDict.dict K V) (w o i : nat)
    : PyDict.dict K V :=
  take w (drop (window_start (length d) w o i) d).

(** The keys window [i] shares with window [i - 1]: those from its start up
    to the end of the window before; none for window 0. *)
Definition overlap_at {K V : Type} (d : PyDict.dict K V) (w o i : nat) : list K :=
  match i with
  | O => []
  | S j =>
      take (window_start (length d) w o j + w - window_start (length d) w o i)
        (drop (window_start (length d) w o i) (PyDict.keys d))
  end.

(** The call of the segmenter in [run_inference] (generate.py 1245-1247):
    the window size is [context_frames], the overlap is the literal 15. *)
Definition run_inference_windows {K V : Type} `{EqDecision K} (fuel : nat)
    (controlnet_image_map : PyDict.dict K V) (context_frames : Z)
    : option (result (list (PyDict.dict K V) * list (list K))) :=
  segment_dict fuel controlnet_image_map context_frames 15.

(** [latents_cache[idx][iteration]], when both keys are there. *)
Definition cached {Slice : Type} (st : callback_state Slice)
    (idx iteration : Z) : option addr :=
  latents_cache st !! idx ≫= λ row, row !! iteration.

(** The two supported representations of a video. *)
Definition is_tensor {Frame : Type} (v : video Frame) : Prop :=
  match v with
  | Tensor _ => True
  | _ => False
  end.

Definition is_ndarray {Frame : Type} (v : video Frame) : Prop :=
  match v with
  | NdArray _ => True
  | _ => False
  end.

(** ** The entries a loader keeps *)

(** The map a loader loop builds from (frame number, value) pairs: a pair
    is kept when its frame number is below [duration], a later pair
    replacing an earlier one of the same frame number. *)
Definition kept_below {T : Type} (entries : list (Z * T)) (duration : Z)
    : gmap Z T :=
  foldl (λ (m : gmap Z T) (e : Z * T),
    if e.1 <? duration then <[e.1 := e.2]> m else m) ∅ entries.

(** Lines 815-819: the prompt of a key with the head and tail prompts. *)
Definition decorated_prompt (head_prompt tail_prompt pr : string) : string :=
  let pr := if str_truthy head_prompt
            then String.append head_prompt (String.append "," pr) else pr in
  if str_truthy tail_prompt
  then String.append pr (String.append "," tail_prompt) else pr.

(** ** Initial images: [img2img_preprocess] (generate.py 957-988) *)

(** The entries of an [img2img_map] configuration the loader reads;
    [i2i_init_images] is the content of [init_img_dir], resized. *)
Record Img2ImgConfig : Type := MkImg2ImgConfig {
  i2i_enable : bool;
  i2i_init_images : image_files;
  i2i_denoising_strength : Q;
}.

(** The returned [img2img_map]. *)
Record Img2ImgMap : Type := MkImg2ImgMap {
  i2i_images : gmap Z Image;
  denoising_strength : Q;
}.

Definition img2img_preprocess (img2img_config_map : option Img2ImgConfig)
    (duration : Z) : option Img2ImgMap :=
  match img2img_config_map with
  | None => None
  | Some cfg =>
      if i2i_enable cfg then
        let '(images, processed) :=
          foldl (λ (st : gmap Z Image * bool) (fi : Z * Image),
            let '(images, processed) := st in
            let '(frame_no, img) := fi in
            if frame_no <? duration then (<[frame_no := img]> images, true)
            else st) (∅, false) (i2i_init_images cfg) in
        if processed then Some (MkImg2ImgMap images (i2i_denoising_strength cfg))
        else None
      else None
  end.

(** ** Wildcards and ratios: [wild_card_conversion] (generate.py 1040-1071)

    [replace_wild_card] comes from outside this file and is a parameter; a
    region is taken to have its ["condition"] with all its entries. *)

Section wild_card_conversion.
Variable replace_wild_card : string → string.

(** Lines 1063-1071. *)
Definition convert_condition (c : Condition) : Condition :=
  MkCondition (c_ip_adapter_map c)
    (prod_map id replace_wild_card <$> c_prompt_map c)
    (replace_wild_card (c_head_prompt c))
    (replace_wild_card (c_tail_prompt c))
    (clamp_ratio (c_prompt_fixed_ratio c)).

Definition convert_entry (entry : region_entry) : region_entry :=
  match entry with
  | Background b => Background b
  | Region r cfg =>
      Region r (MkRegionConfig (r_enable cfg) (r_mask_files cfg)
                  (r_is_init_img cfg) (convert_condition (r_condition cfg)))
  end.

Definition wild_card_conversion (model_config : ModelConfig) : ModelConfig :=
  MkModelConfig (ip_adapter_map model_config)
    (prod_map id replace_wild_card <$> prompt_map model_config)
    (if str_truthy (head_prompt model_config)
     then replace_wild_card (head_prompt model_config)
     else head_prompt model_config)
    (if str_truthy (tail_prompt model_config)
     then replace_wild_card (tail_prompt model_config)
     else tail_prompt model_config)
    (clamp_ratio (prompt_fixed_ratio model_config))
    (convert_entry <$> region_map model_config).
End wild_card_conversion.

(** An entry of [region_map] that brings an adapter map of its own: an
    enabled region with a mask, a condition of its own and adapter images
    below [duration]. *)
Definition has_own_adapter (duration : Z) (entry : region_entry) : Prop :=
  match entry with
  | Background _ => False
  | Region _ cfg =>
      r_enable cfg = true
      ∧ is_Some (mask_preprocess (r_mask_files cfg) duration)
      ∧ r_is_init_img cfg = false
      ∧ is_Some (ip_adapter_preprocess (c_ip_adapter_map (r_condition cfg)) duration)
  end.

(** The hold ratios of a configuration all lie in [0, 1]. *)
Definition ratio_in_range (r : Q) : Prop := (0 <= r)%Q ∧ (r <= 1)%Q.

Definition ratios_in_range (model_config : ModelConfig) : Prop :=
  ratio_in_range (prompt_fixed_ratio model_config)
  ∧ Forall (λ entry,
      match entry with
      | Background _ => True
      | Region _ cfg => ratio_in_range (c_prompt_fixed_ratio (r_condition cfg))
      end) (region_map model_config).

(** The frame numbers of a configuration are not negative: the keys of its
    prompt maps and the frame numbers of its adapter images. *)
Definition adapter_frames_nonneg (cfg : option IpAdapterConfig) : Prop :=
  match cfg with
  | Some c => Forall (λ fi : Z * Image, 0 ≤ fi.1) (ip_input_images c)
  | None => True
  end.

Definition frames_nonneg (model_config : ModelConfig) : Prop :=
  Forall (λ kp : Z * string, 0 ≤ kp.1) (prompt_map model_config)
  ∧ adapter_frames_nonneg (ip_adapter_map model_config)
  ∧ Forall (λ entry,
      match entry with
      | Background _ => True
      | Region _ cfg =>
          Forall (λ kp : Z * string, 0 ≤ kp.1) (c_prompt_map (r_condition cfg))
          ∧ adapter_frames_nonneg (c_ip_adapter_map (r_condition cfg))
      end) (region_map model_config).

(** Every key of a schedule is below [duration]. *)
Definition schedule_below {T : Type} (duration : Z) (m : gmap Z T) : Prop :=
  map_Forall (λ k _, k < duration) m.

(** ** The prompts of a window: [transform_region_condi_list]
    (generate.py 1273-1299)

    The bundles are those [region_preprocess] makes: each has a
    ["prompt_map"] that is a dictionary, so the branch that copies a bundle
    without one as it is does not occur.  A value of the new prompt map is a
    prompt or Python's [None]. *)

Record TransformedCondition : Type := MkTransformedCondition {
  tc_prompt_map : gmap Z (option string);
  tc_ip_adapter_map : option (gmap Z Image);
}.

Definition transform_region_condi_list (region_condi_list : list ConditionMap)
    : list TransformedCondition :=
  (λ region_dict,
     let prompt_map := cm_prompt_map region_dict in
     let new_prompt_map :=
       foldl (λ (new_prompt_map : gmap Z (option string)) (i : Z),
         match prompt_map !! 0 with
         | Some pr => <[i := Some pr]> new_prompt_map
         | None => <[i := None]> new_prompt_map
         end) ∅ (py_range 1 16) in
     MkTransformedCondition new_prompt_map (cm_ip_adapter_map region_dict))
    <$> region_condi_list.

(** ** The preprocessor cache: [get_preprocessor],
    [clear_controlnet_preprocessor] and [get_preprocessed_img]
    (generate.py 76, 265-346)

    The preprocessor classes, the table [MODELS] of [controlnet_aux], the
    import test of [onnxruntime] and the call of a preprocessor on an image
    come from outside this file.  A preprocessor is the class it is made
    from (and the name it is made with); moving it to a device (lines
    316-322) does not change which object the cache holds and is left out.
    The global [controlnet_preprocessor] is threaded through: a function
    returns its result, or the exception it raises, with the dictionary as
    it leaves it; a value of the dictionary is a preprocessor or Python's
    [None]. *)

Inductive PreProcessor : Type :=
  | DWposeDetector
  | SegPreProcessor
  | BlurPreProcessor
  | TileResamplePreProcessor
  | NullPreProcessor
  | ControlnetPreProcessor (pre_type : string).

(** A non-empty [preprocessor_map] with its ["type"] and ["param"] entries,
    each of which may be absent. *)
Record PreprocessorMap (Param : Type) : Type := MkPreprocessorMap {
  pm_type : option string;
  pm_param : option Param;
}.
Arguments MkPreprocessorMap {Param} _ _.
Arguments pm_type {Param} _.
Arguments pm_param {Param} _.

Section controlnet_preprocessor.
Context {Param : Type}.
Variable MODELS : list string.
Variable onnxruntime_installed : bool.
Variable call_preprocessor : PreProcessor → Image → Param → result Image.
Variable no_param : Param.

Local Open Scope string_scope.

Definition default_preprocessor_table : PyDict.dict string string :=
  [ ("controlnet_lineart_anime", "lineart_anime");
    ("controlnet_openpose",
       if negb onnxruntime_installed then "openpose_full" else "dwpose");
    ("controlnet_softedge", "softedge_hedsafe");
    ("controlnet_shuffle", "shuffle");
    ("controlnet_depth", "depth_midas");
    ("controlnet_canny", "canny");
    ("controlnet_lineart", "lineart_realistic");
    ("controlnet_mlsd", "mlsd");
    ("controlnet_normalbae", "normal_bae");
    ("controlnet_scribble", "scribble_pidsafe");
    ("controlnet_seg", "upernet_seg");
    ("controlnet_mediapipe_face", "mediapipe_face") ].

Definition create_preprocessor_from_name (pre_type : string)
    : result PreProcessor :=
  if String.eqb pre_type "dwpose" then Ok DWposeDetector
  else if String.eqb pre_type "upernet_seg" then Ok SegPreProcessor
  else if String.eqb pre_type "blur" then Ok BlurPreProcessor
  else if String.eqb pre_type "tile_resample" then Ok TileResamplePreProcessor
  else if String.eqb pre_type "none" then Ok NullPreProcessor
  else if bool_decide (pre_type ∈ MODELS) then Ok (ControlnetPreProcessor pre_type)
  else Raise ValueError.

Definition create_default_preprocessor (type_str : string)
    : result PreProcessor :=
  let pre_type :=
    match PyDict.get type_str default_preprocessor_table with
    | Some pre_type => pre_type
    | None => "none"
    end in
  create_preprocessor_from_name pre_type.

Local Close Scope string_scope.

(** [preprocessor_map] is [None] for a missing or empty map. *)
Definition get_preprocessor (type_str : string)
    (preprocessor_map : option (PreprocessorMap Param))
    (controlnet_preprocessor : gmap string (option PreProcessor))
    : result (option PreProcessor) * gmap string (option PreProcessor) :=
  match controlnet_preprocessor !! type_str with
  | Some p => (Ok p, controlnet_preprocessor)
  | None =>
      let from_name :=
        match preprocessor_map with
        | Some pm =>
            pre_type ←r match pm_type pm with
                        | Some pre_type => Ok pre_type
                        | None => Raise KeyError
                        end;
            p ←r create_preprocessor_from_name pre_type;
            Ok (<[type_str := Some p]> controlnet_preprocessor)
        | None => Ok controlnet_preprocessor
        end in
      match from_name with
      | Raise e => (Raise e, controlnet_preprocessor)
      | Ok cache1 =>
          let from_default :=
            match cache1 !! type_str with
            | Some _ => Ok cache1
            | None =>
                p ←r create_default_preprocessor type_str;
                Ok (<[type_str := Some p]> cache1)
            end in
          match from_default with
          | Raise e => (Raise e, cache1)
          | Ok cache2 =>
              (match cache2 !! type_str with
               | Some p => Ok p
               | None => Raise KeyError
               end, cache2)
          end
      end
  end.

(** Calling Python's [None] raises a [TypeError]. *)
Definition get_preprocessed_img (type_str : string) (img : Image)
    (use_preprocessor : bool) (preprocessor_map : option (PreprocessorMap Param))
    (controlnet_preprocessor : gmap string (option PreProcessor))
    : result Image * gmap string (option PreProcessor) :=
  if use_preprocessor then
    let param :=
      match preprocessor_map with
      | Some pm => default no_param (pm_param pm)
      | None => no_param
      end in
    match get_preprocessor type_str preprocessor_map controlnet_preprocessor with
    | (Ok (Some p), cache) => (call_preprocessor p img param, cache)
    | (Ok None, cache) => (Raise TypeError, cache)
    | (Raise e, cache) => (Raise e, cache)
    end
  else (Ok img, controlnet_preprocessor).
End controlnet_preprocessor.

(** [type_str] is [None] for the call without an argument. *)
Definition clear_controlnet_preprocessor (type_str : option string)
    (controlnet_preprocessor : gmap string (option PreProcessor))
    : gmap string (option PreProcessor) :=
  match type_str with
  | None => ∅
  | Some t => <[t := None]> controlnet_preprocessor
  end.

(** * Properties *)

(** ** The model on small inputs *)

Example segment_dict_10_4_1 :
  segment_dict 10 (zip (seqZ 0 10) (seqZ 100 10)) 4 1
  = Some (Ok ([ [(0, 100); (1, 101); (2, 102); (3, 103)];
                [(3, 103); (4, 104); (5, 105); (6, 106)];
                [(6, 106); (7, 107); (8, 108); (9, 109)] ],
              [ []; [3]; [6] ])).
Proof. vm_compute. reflexivity. Qed.

(** The last window is pulled back and shares two keys with the one
    before. *)
Example segment_dict_9_4_1 :
  segment_dict 10 (zip (seqZ 0 9) (seqZ 100 9)) 4 1
  = Some (Ok ([ [(0, 100); (1, 101); (2, 102); (3, 103)];
                [(3, 103); (4, 104); (5, 105); (6, 106)];
                [(5, 105); (6, 106); (7, 107); (8, 108)] ],
              [ []; [3]; [5; 6] ])).
Proof. vm_compute. reflexivity. Qed.

Example segment_dict_single_window :
  segment_dict 0 (zip (seqZ 0 3) (seqZ 100 3)) 3 1
  = Some (Ok ([ [(0, 100); (1, 101); (2, 102)] ], [])).
Proof. reflexivity. Qed.

Example segment_dict_too_short :
  segment_dict 0 (zip (seqZ 0 3) (seqZ 100 3)) 4 1 = Some (Raise ValueError).
Proof. reflexivity. Qed.

(** With [overlap = segment_size] the start pointer does not move and the
    loop uses up any fuel. *)
Example segment_dict_no_progress :
  segment_dict 50 (zip (seqZ 0 5) (seqZ 100 5)) 2 2 = None.
Proof. vm_compute. reflexivity. Qed.

Example py_round_ties_to_even :
  py_round (5 # 2) = 2 ∧ py_round (7 # 2) = 4 ∧ py_round (-5 # 2) = -2
  ∧ py_round (26 # 10) = 3 ∧ py_round 4 = 4.
Proof. repeat split; reflexivity. Qed.

Example py_slice_clamps :
  py_slice [1; 2; 3; 4] 1 9 = [2; 3; 4] ∧ py_slice [1; 2; 3; 4] (-3) (-1) = [2; 3]
  ∧ py_index [1; 2; 3; 4] (-1) = Ok 4 ∧ py_index [1; 2; 3; 4] 4 = Raise IndexError.
Proof. repeat split; reflexivity. Qed.

(** ** Python sequences *)

Section python_sequences.
Context {A : Type}.
Implicit Types l : list A.

Lemma for_each_app {S B} (body : S → B → result S) (s : S) (l1 l2 : list B) :
  for_each body s (l1 ++ l2) = (s' ←r for_each body s l1; for_each body s' l2).
Proof.
  revert s. induction l1 as [|x l1 IH]; intros s; simpl; [done|].
  destruct (body s x); simpl; auto.
Qed.

Lemma py_index_nat l (i : nat) x :
  l !! i = Some x → py_index l (Z.of_nat i) = Ok x.
Proof.
  intros Hi. pose proof (lookup_lt_Some _ _ _ Hi) as Hlt.
  unfold py_index, len.
  destruct (Z.ltb_spec (Z.of_nat i) 0) as [?|_]; [lia|].
  destruct (Z.leb_spec 0 (Z.of_nat i)) as [_|?]; [|lia].
  destruct (Z.ltb_spec (Z.of_nat i) (Z.of_nat (length l))) as [_|?]; [|lia].
  simpl. by rewrite Nat2Z.id, Hi.
Qed.

Lemma py_slice_nat l (a b : nat) :
  (a ≤ b ≤ length l)%nat →
  py_slice l (Z.of_nat a) (Z.of_nat b) = take (b - a) (drop a l).
Proof.
  intros Hab. unfold py_slice, slice_bound, len.
  destruct (Z.ltb_spec (Z.of_nat a) 0) as [?|_]; [lia|].
  destruct (Z.ltb_spec (Z.of_nat b) 0) as [?|_]; [lia|].
  rewrite !Z.min_l by lia.
  by rewrite <- Nat2Z.inj_sub, !Nat2Z.id by lia.
Qed.

Lemma py_range_nat (a n : nat) :
  py_range (Z.of_nat a) (Z.of_nat a + Z.of_nat n) = seqZ (Z.of_nat a) (Z.of_nat n).
Proof. unfold py_range. f_equal. lia. Qed.

Lemma filter_all (P : A → Prop) `{∀ x, Decision (P x)} l :
  Forall P l → filter P l = l.
Proof.
  induction 1 as [|x l Hx _ IH]; [done|].
  by rewrite filter_cons_True, IH.
Qed.

Lemma filter_none (P : A → Prop) `{∀ x, Decision (P x)} l :
  Forall (λ x, ¬ P x) l → filter P l = [].
Proof.
  induction 1 as [|x l Hx _ IH]; [done|].
  by rewrite filter_cons_False, IH.
Qed.

(** Two slices that overlap: what the first [m] elements leave of the
    later slice is what it adds. *)
Lemma take_app_window l (m s w : nat) :
  (s ≤ m ≤ s + w)%nat →
  take m l ++ drop (m - s) (take w (drop s l)) = take (s + w) l.
Proof.
  intros Hm. rewrite take_drop_commute, drop_drop.
  replace (s + (m - s))%nat with m by lia.
  rewrite <- (take_drop m (take (s + w) l)) at 2.
  f_equal. rewrite take_take. f_equal. lia.
Qed.
End python_sequences.

(** ** Insertion-ordered dictionaries *)

Section dict_lemmas.
Context {K V : Type} `{EqDecision K}.
Implicit Types d : PyDict.dict K V.

Lemma dict_get_lookup d (i : nat) k v :
  PyDict.wf d → d !! i = Some (k, v) → PyDict.get k d = Some v.
Proof.
  unfold PyDict.wf, PyDict.keys. revert i.
  induction d as [|[k' v'] d IH]; intros i Hnd Hi; [done|].
  simpl in *. apply NoDup_cons in Hnd as [Hk' Hnd].
  destruct i as [|i]; simpl in Hi.
  - injection Hi as -> ->. by rewrite decide_True.
  - rewrite decide_False; [by eapply IH|].
    intros ->. apply Hk'. apply list_elem_of_fmap.
    exists (k', v). split; [done|]. by eapply list_elem_of_lookup_2.
Qed.

Lemma dict_set_fresh d k v :
  k ∉ PyDict.keys d → PyDict.set k v d = d ++ [(k, v)].
Proof.
  unfold PyDict.keys. induction d as [|[k' v'] d IH]; intros Hk; [done|].
  simpl in *. apply not_elem_of_cons in Hk as [Hne Hk].
  rewrite decide_False by done. by rewrite IH.
Qed.

Lemma dict_keys_slice d (a n : nat) :
  PyDict.keys (take n (drop a d)) = take n (drop a (PyDict.keys d)).
Proof. unfold PyDict.keys. by rewrite fmap_take, fmap_drop. Qed.
End dict_lemmas.

(** ** The window segmenter *)

Section segment_dict_lemmas.
Context {K V : Type} `{EqDecision K}.
Implicit Types d : PyDict.dict K V.

(** One run of the inner [for] loop on an in-range window: the segment is
    the slice of the dictionary, the overlap list the keys of the slice
    that the previous window had. *)
Lemma segment_window d (prev : list K) (a n : nat) :
  PyDict.wf d → (a + n ≤ length d)%nat →
  for_each (segment_body (PyDict.keys d) d prev) ([], [])
    (seqZ (Z.of_nat a) (Z.of_nat n))
  = Ok (take n (drop a d),
        filter (.∈ prev) (take n (drop a (PyDict.keys d)))).
Proof.
  intros Hwf. induction n as [|n IH]; intros Hn; [done|].
  rewrite seqZ_S, for_each_app, IH by lia. simpl.
  destruct (lookup_lt_is_Some_2 d (a + n)) as [[k v] Hkv]; [lia|].
  assert (PyDict.keys d !! (a + n)%nat = Some k) as Hk.
  { unfold PyDict.keys. by rewrite list_lookup_fmap, Hkv. }
  rewrite <- Nat2Z.inj_add, (py_index_nat _ _ _ Hk). simpl.
  unfold PyDict.getitem. rewrite (dict_get_lookup _ _ _ _ Hwf Hkv). simpl.
  rewrite dict_set_fresh.
  - rewrite (take_S_r (drop a d) n (k, v)) by (by rewrite lookup_drop).
    rewrite (take_S_r (drop a (PyDict.keys d)) n k) by (by rewrite lookup_drop).
    rewrite filter_app, filter_singleton; [|exact []].
    by case_bool_decide; rewrite ?decide_True, ?decide_False, ?app_nil_r by done.
  - rewrite dict_keys_slice. intros Hin.
    apply list_elem_of_lookup in Hin as [j Hj].
    apply lookup_take_Some in Hj as [Hj Hjn]. rewrite lookup_drop in Hj.
    pose proof (NoDup_lookup _ _ _ _ Hwf Hj Hk). lia.
Qed.

(** The keys a window shares with the window before it are its first
    keys. *)
Lemma overlap_is_prefix (keys : list K) (p s w : nat) :
  NoDup keys → (p ≤ s ≤ p + w)%nat → (s + w ≤ length keys)%nat →
  filter (.∈ take w (drop p keys)) (take w (drop s keys))
  = take (p + w - s) (drop s keys).
Proof.
  intros Hnd Hps Hlen.
  assert (take w (drop s keys)
          = take (p + w - s) (drop s keys)
            ++ take (s - p) (drop (p + w - s) (drop s keys))) as ->.
  { rewrite take_take_drop. f_equal. lia. }
  rewrite filter_app, drop_drop.
  rewrite filter_all, filter_none; [by rewrite app_nil_r| |].
  - apply Forall_forall. intros x Hx Hprev.
    apply list_elem_of_lookup in Hx as [j Hj].
    apply lookup_take_Some in Hj as [Hj Hjn]. rewrite lookup_drop in Hj.
    apply list_elem_of_lookup in Hprev as [i Hi].
    apply lookup_take_Some in Hi as [Hi Hiw]. rewrite lookup_drop in Hi.
    pose proof (NoDup_lookup _ _ _ _ Hnd Hi Hj). lia.
  - apply Forall_forall. intros x Hx.
    apply list_elem_of_lookup in Hx as [j Hj].
    apply lookup_take_Some in Hj as [Hj Hjn]. rewrite lookup_drop in Hj.
    apply list_elem_of_lookup. exists (s + j - p)%nat.
    apply lookup_take_Some. split; [|lia].
    rewrite lookup_drop. rewrite <- Hj. f_equal. lia.
Qed.

Lemma trimmed_keys_snoc (segs : list (PyDict.dict K V)) (ovs : list (list K)) seg ov :
  length segs = length ovs → segs ≠ [] →
  trimmed_keys (segs ++ [seg]) (ovs ++ [ov])
  = trimmed_keys segs ovs ++ drop (length ov) (PyDict.keys seg).
Proof.
  intros Hlen Hne. unfold trimmed_keys.
  rewrite imap_app, concat_app. simpl. rewrite app_nil_r. f_equal.
  - f_equal. apply imap_ext. intros i x Hi.
    apply lookup_lt_Some in Hi.
    case_decide; [done|]. by rewrite lookup_total_app_l by lia.
  - destruct segs; [done|]. simpl.
    replace (S (length segs + 0)) with (length ovs) by (simpl in Hlen; lia).
    by rewrite list_lookup_total_middle.
Qed.


Lemma segment_loop_spec (fuel : nat) d (w o p : nat) segs ovs :
  PyDict.wf d → (o < w)%nat → (p + w < length d)%nat →
  (length d - (p + w) ≤ fuel)%nat →
  segs ≠ [] → windows_ok w segs ovs →
  trimmed_keys segs ovs = take (p + w) (PyDict.keys d) →
  ∃ segs' ovs',
    segment_loop fuel (PyDict.keys d) d (Z.of_nat w) (Z.of_nat o)
      (Z.of_nat p + Z.of_nat w - Z.of_nat o)
      (take w (drop p (PyDict.keys d))) segs ovs
    = Some (Ok (segs', ovs'))
    ∧ trimmed_keys segs' ovs' = PyDict.keys d
    ∧ windows_ok w segs' ovs'.
Proof.
  intros Hwf How. revert p segs ovs.
  induction fuel as [|fuel IH]; intros p segs ovs Hp Hfuel Hne Hok Htrim; [lia|].
  assert (length (PyDict.keys d) = length d) as Hklen
    by (unfold PyDict.keys; apply length_fmap).
  pose proof (Forall2_length _ _ _ Hok) as Hlen.
  simpl. unfold len. rewrite Hklen.
  destruct (Z.ltb_spec (Z.of_nat p + Z.of_nat w - Z.of_nat o) (Z.of_nat (length d)))
    as [_|?]; [simpl|lia].
  set (s := Nat.min (p + w - o) (length d - w)).
  assert ((if Z.of_nat (length d) - (Z.of_nat p + Z.of_nat w - Z.of_nat o) <? Z.of_nat w
           then Z.of_nat (length d) - Z.of_nat w
           else Z.of_nat p + Z.of_nat w - Z.of_nat o) = Z.of_nat s) as ->.
  { destruct (Z.ltb_spec (Z.of_nat (length d) - (Z.of_nat p + Z.of_nat w - Z.of_nat o))
                (Z.of_nat w)); lia. }
  rewrite py_range_nat, segment_window by (done || lia).
  rewrite overlap_is_prefix by (done || lia).
  rewrite <- (Nat2Z.inj_add s w), py_slice_nat by lia.
  replace (s + w - s)%nat with w by lia.
  assert (windows_ok w (segs ++ [take w (drop s d)])
            (ovs ++ [take (p + w - s) (drop s (PyDict.keys d))])) as Hok'.
  { apply Forall2_app; [done|]. repeat constructor.
    - rewrite length_take, length_drop. lia.
    - rewrite dict_keys_slice.
      exists (drop (p + w - s) (take w (drop s (PyDict.keys d)))).
      rewrite <- (take_drop (p + w - s) (take w (drop s (PyDict.keys d)))) at 1.
      f_equal. rewrite take_take. f_equal. lia. }
  assert (trimmed_keys (segs ++ [take w (drop s d)])
            (ovs ++ [take (p + w - s) (drop s (PyDict.keys d))])
          = take (s + w) (PyDict.keys d)) as Htrim'.
  { rewrite trimmed_keys_snoc, Htrim by done.
    rewrite dict_keys_slice, length_take, length_drop.
    rewrite Nat.min_l by lia. apply take_app_window. lia. }
  destruct (Z.geb_spec (Z.of_nat (s + w)) (Z.of_nat (length d))) as [Hend|Hmore].
  - eexists _, _. split; [done|]. split; [|exact Hok'].
    etrans; [exact Htrim'|]. apply take_ge. lia.
  - assert (s = (p + w - o)%nat) as Hs by lia.
    destruct (IH s (segs ++ [take w (drop s d)])
                (ovs ++ [take (p + w - s) (drop s (PyDict.keys d))]))
      as (segs' & ovs' & Hrun & Hres); [lia|lia| |done|done|].
    { by intros [? _]%app_eq_nil. }
    exists segs', ovs'. split; [|done].
    rewrite <- Hrun. f_equal. lia.
Qed.
End segment_dict_lemmas.

Section segment_dict_properties.
Context {K V : Type} `{EqDecision K}.
Implicit Types d : PyDict.dict K V.

Lemma segment_loop_fuel_mono (fuel fuel' : nat) (keys : list K) d
    (segment_size overlap start : Z) prev segs ovs r :
  (fuel ≤ fuel')%nat →
  segment_loop fuel keys d segment_size overlap start prev segs ovs = Some r →
  segment_loop fuel' keys d segment_size overlap start prev segs ovs = Some r.
Proof.
  revert fuel' start prev segs ovs.
  induction fuel as [|fuel IH]; intros fuel' start prev segs ovs Hle Hrun; [done|].
  destruct fuel' as [|fuel']; [lia|]. simpl in *.
  destruct (negb _); [done|].
  destruct (for_each _ _ _) as [[seg ov]|e]; [|done].
  destruct (_ >=? _); [done|]. apply IH; [lia|done].
Qed.

(** The segmenter on a dictionary longer than the window: with fuel for
    [len(keys) - segment_size + 1] iterations it returns, the trimmed
    windows are the keys, every window has [segment_size] entries and
    starts with its overlap list. *)
Lemma segment_dict_run (fuel : nat) d (w o : nat) :
  PyDict.wf d → (o < w)%nat → (w < length d)%nat →
  (length d - w < fuel)%nat →
  ∃ segs ovs,
    segment_dict fuel d (Z.of_nat w) (Z.of_nat o) = Some (Ok (segs, ovs))
    ∧ trimmed_keys segs ovs = PyDict.keys d
    ∧ windows_ok w segs ovs.
Proof.
  intros Hwf How Hw Hfuel.
  assert (length (PyDict.keys d) = length d) as Hklen
    by (unfold PyDict.keys; apply length_fmap).
  unfold segment_dict, len. rewrite Hklen.
  destruct (Z.ltb_spec (Z.of_nat (length d)) (Z.of_nat w)) as [?|_]; [lia|].
  destruct (Z.eqb_spec (Z.of_nat (length d)) (Z.of_nat w)) as [?|_]; [lia|].
  destruct fuel as [|fuel]; [lia|]. simpl. unfold len. rewrite Hklen.
  destruct (Z.ltb_spec 0 (Z.of_nat (length d))) as [_|?]; [simpl|lia].
  destruct (Z.ltb_spec (Z.of_nat (length d) - 0) (Z.of_nat w)) as [?|_]; [lia|].
  change 0 with (Z.of_nat 0).
  rewrite <- (Nat2Z.inj_add 0 w), py_slice_nat by (simpl; lia).
  rewrite (Nat2Z.inj_add 0 w), py_range_nat, segment_window by (done || simpl; lia).
  rewrite filter_none by (apply Forall_forall; intros ? _; apply not_elem_of_nil).
  simpl. rewrite !drop_0, Nat.sub_0_r.
  destruct (Z.geb_spec (Z.of_nat 0 + Z.of_nat w) (Z.of_nat (length d)))
    as [?|_]; [lia|].
  apply (segment_loop_spec fuel d w o 0); simpl; try done; try lia.
  - repeat constructor.
    + rewrite length_take. lia.
    + apply prefix_nil.
  - unfold trimmed_keys. simpl. rewrite app_nil_r.
    apply (dict_keys_slice d 0 w).
Qed.

(** C1 — coverage of the segmenter.  For a dictionary of N keys and
    N ≥ segment_size > overlap ≥ 0, [segment_dict] returns windows (it does
    not raise, and N iterations of its loop are enough) such that window 0
    whole followed by every later window without its first
    [len(overlaps[i])] keys is exactly the N keys in their order; every
    window has [segment_size] entries and the overlap list of a window is
    a prefix of the keys of that window. *)
Theorem segment_dict_coverage d (segment_size overlap : Z) :
  PyDict.wf d →
  0 ≤ overlap < segment_size →
  segment_size ≤ len (PyDict.keys d) →
  ∃ segments overlaps,
    segment_dict (length d) d segment_size overlap = Some (Ok (segments, overlaps))
    ∧ trimmed_keys segments overlaps = PyDict.keys d
    ∧ (∀ seg, seg ∈ segments → len seg = segment_size)
    ∧ (∀ (i : nat) seg ov, segments !! i = Some seg → overlaps !! i = Some ov →
         ov `prefix_of` PyDict.keys seg).
Proof.
  intros Hwf Ho Hn.
  assert (length (PyDict.keys d) = length d) as Hklen
    by (unfold PyDict.keys; apply length_fmap).
  unfold len in Hn. rewrite Hklen in Hn.
  destruct (decide (Z.of_nat (length d) = segment_size)) as [Heq|Hne].
  - exists [d], []. unfold segment_dict, len. rewrite Hklen.
    destruct (Z.ltb_spec (Z.of_nat (length d)) segment_size) as [?|_]; [lia|].
    destruct (Z.eqb_spec (Z.of_nat (length d)) segment_size) as [_|?]; [|lia].
    split; [done|]. split; [|split].
    + unfold trimmed_keys. simpl. by rewrite app_nil_r.
    + intros seg ->%list_elem_of_singleton. done.
    + intros i seg ov _ Hov. by rewrite lookup_nil in Hov.
  - destruct (segment_dict_run (length d) d (Z.to_nat segment_size) (Z.to_nat overlap))
      as (segs & ovs & Hrun & Htrim & Hok); [done|lia|lia|lia|].
    rewrite !Z2Nat.id in Hrun by lia.
    exists segs, ovs. split; [done|]. split; [done|]. split.
    + intros seg [i Hi]%list_elem_of_lookup.
      destruct (Forall2_lookup_l _ _ _ _ _ Hok Hi) as (ov & _ & Hlen & _).
      unfold len. lia.
    + intros i seg ov Hi Hov.
      by destruct (Forall2_lookup_lr _ _ _ _ _ _ Hok Hi Hov).
Qed.

(** C10 — termination of the segmenter.  For a dictionary with at least
    [segment_size] keys and 0 ≤ overlap < segment_size the loop ends after
    at most [len(keys) - segment_size + 1] iterations: there is one result,
    not an exception, that [segment_dict] returns with any fuel from that
    number on. *)
Theorem segment_dict_terminates d (segment_size overlap : Z) :
  PyDict.wf d →
  0 ≤ overlap < segment_size →
  segment_size ≤ len (PyDict.keys d) →
  ∃ segments overlaps, ∀ fuel : nat,
    len (PyDict.keys d) - segment_size + 1 ≤ Z.of_nat fuel →
    segment_dict fuel d segment_size overlap = Some (Ok (segments, overlaps)).
Proof.
  intros Hwf Ho Hn.
  assert (length (PyDict.keys d) = length d) as Hklen
    by (unfold PyDict.keys; apply length_fmap).
  unfold len in *. rewrite Hklen in *.
  destruct (decide (Z.of_nat (length d) = segment_size)) as [Heq|Hne].
  - exists [d], []. intros fuel _. unfold segment_dict, len. rewrite Hklen.
    destruct (Z.ltb_spec (Z.of_nat (length d)) segment_size) as [?|_]; [lia|].
    by destruct (Z.eqb_spec (Z.of_nat (length d)) segment_size) as [_|?]; [|lia].
  - set (n := (length d - Z.to_nat segment_size + 1)%nat).
    destruct (segment_dict_run n d (Z.to_nat segment_size) (Z.to_nat overlap))
      as (segs & ovs & Hrun & _); [done|lia|lia|lia|].
    rewrite !Z2Nat.id in Hrun by lia.
    exists segs, ovs. intros fuel Hfuel.
    revert Hrun. unfold segment_dict, len. rewrite Hklen.
    destruct (Z.ltb_spec (Z.of_nat (length d)) segment_size) as [?|_]; [lia|].
    destruct (Z.eqb_spec (Z.of_nat (length d)) segment_size) as [?|_]; [lia|].
    apply segment_loop_fuel_mono. lia.
Qed.
End segment_dict_properties.

Lemma segment_dict_coverage_witness :
  ∃ segments overlaps,
    segment_dict 5 [(0, 10); (1, 11); (2, 12); (3, 13); (4, 14)] 3 1
    = Some (Ok (segments, overlaps))
    ∧ trimmed_keys segments overlaps = [0; 1; 2; 3; 4]
    ∧ (∀ seg, seg ∈ segments → len seg = 3)
    ∧ (∀ (i : nat) seg ov, segments !! i = Some seg → overlaps !! i = Some ov →
         ov `prefix_of` PyDict.keys seg).
Proof.
  apply (segment_dict_coverage [(0, 10); (1, 11); (2, 12); (3, 13); (4, 14)] 3 1).
  - apply (bool_decide_unpack (NoDup [0; 1; 2; 3; 4])). vm_compute. exact I.
  - lia.
  - unfold len. simpl. lia.
Defined.

Lemma segment_dict_terminates_witness :
  ∃ segments overlaps, ∀ fuel : nat,
    len (PyDict.keys [(0, 10); (1, 11); (2, 12); (3, 13); (4, 14)]) - 3 + 1
    ≤ Z.of_nat fuel →
    segment_dict fuel [(0, 10); (1, 11); (2, 12); (3, 13); (4, 14)] 3 1
    = Some (Ok (segments, overlaps)).
Proof.
  apply (segment_dict_terminates [(0, 10); (1, 11); (2, 12); (3, 13); (4, 14)] 3 1).
  - apply (bool_decide_unpack (NoDup [0; 1; 2; 3; 4])). vm_compute. exact I.
  - lia.
  - unfold len. simpl. lia.
Defined.

(** ** The latent continuity callback *)

Section example_callback_properties.
Context {K Slice : Type}.
Implicit Types st : callback_state Slice.

Lemma frame_set_nat (t : list Slice) (i : nat) (v : Slice) :
  (i < length t)%nat → frame_set t (Z.of_nat i) v = Ok (<[i := v]> t).
Proof.
  intros Hi. unfold frame_set, len.
  destruct (Z.ltb_spec (Z.of_nat i) 0) as [?|_]; [lia|].
  destruct (Z.leb_spec 0 (Z.of_nat i)) as [_|?]; [|lia].
  destruct (Z.ltb_spec (Z.of_nat i) (Z.of_nat (length t))) as [_|?]; [|lia].
  simpl. by rewrite Nat2Z.id.
Qed.

(** The state of the copy loop after its first [n] rounds: the first [n]
    frames of the current buffer are the trailing frames the previous
    buffer had on entry, the others are untouched, and so is every other
    buffer. *)
Lemma copy_overlap_loop (cache : gmap Z (gmap Z addr)) (idx iteration : Z)
    (latents last_latents : addr) (overlap_keys : list K)
    (h : addr → list Slice) (row : gmap Z addr) (n : nat) :
  cache !! (idx - 1) = Some row →
  row !! iteration = Some last_latents →
  (length overlap_keys ≤ length (h latents) ≤ length (h last_latents))%nat →
  (n ≤ length overlap_keys)%nat →
  ∃ h',
    for_each (copy_overlap_frame cache idx iteration latents overlap_keys) h
      (seqZ 0 (Z.of_nat n)) = Ok h'
    ∧ length (h' latents) = length (h latents)
    ∧ (∀ i : nat, (i < n)%nat →
         h' latents !! i
         = h last_latents !! (length (h latents) - length overlap_keys + i)%nat)
    ∧ (∀ j : nat, (n ≤ j)%nat → h' latents !! j = h latents !! j)
    ∧ (∀ a, a ≠ latents → h' a = h a).
Proof.
  intros Hrow Hlast Hlen. induction n as [|n IH]; intros Hn.
  { exists h. split; [done|]. split; [done|]. split; [|done]. intros; lia. }
  destruct IH as (h' & Hrun & Hlen' & Hcopied & Hrest & Hother); [lia|].
  set (F := length (h latents)) in *. set (L := length overlap_keys) in *.
  assert (∃ v, h last_latents !! (F - L + n)%nat = Some v) as [v Hv].
  { apply lookup_lt_is_Some_2. lia. }
  assert (h' last_latents !! (F - L + n)%nat = Some v) as Hv'.
  { destruct (decide (last_latents = latents)) as [->|Hne].
    - rewrite Hrest by lia. done.
    - by rewrite Hother. }
  rewrite seqZ_S, for_each_app, Hrun. simpl.
  unfold copy_overlap_frame at 1. unfold cache_getitem.
  rewrite Hrow. simpl. rewrite Hlast. simpl.
  rewrite Z.add_0_l.
  replace (len (h' latents) - len overlap_keys + Z.of_nat n)
    with (Z.of_nat (F - L + n)) by (unfold len; fold L; lia).
  rewrite (py_index_nat _ _ _ Hv'). simpl.
  rewrite frame_set_nat by lia. simpl.
  eexists. split; [done|].
  rewrite fn_lookup_insert. split; [by rewrite length_insert|]. split; [|split].
  - intros i Hi. destruct (decide (i = n)) as [->|Hne].
    + rewrite list_lookup_insert_eq by lia. done.
    + rewrite list_lookup_insert_ne by done. apply Hcopied. lia.
  - intros j Hj. rewrite list_lookup_insert_ne by lia. apply Hrest. lia.
  - intros a Ha. rewrite fn_lookup_insert_ne by done. by apply Hother.
Qed.

(** C2 — latent continuity.  For a window index [idx > 0] whose previous
    window cached a buffer for this iteration, with no more overlap keys
    than the buffer has frames, the callback returns and, for every
    position [i] of the overlap list, frame [i] of the buffer is frame
    [frame count - len(overlap_keys) + i] of the previous window's cached
    buffer; the frames after the overlap prefix keep their values, the
    buffer keeps its frame count, and no other buffer changes, so that the
    equality also holds against the cached buffer after the call when the
    two buffers are different objects.  The buffer is recorded in the cache
    under [idx] and the iteration. *)
Theorem example_callback_continuity (overlaps : list (list K))
    (idx iteration : Z) (latents last_latents : addr) st
    (overlap_keys : list K) (row : gmap Z addr) :
  0 < idx →
  overlaps !! Z.to_nat idx = Some overlap_keys →
  latents_cache st !! (idx - 1) = Some row →
  row !! iteration = Some last_latents →
  (length overlap_keys ≤ length (heap st latents)
     ≤ length (heap st last_latents))%nat →
  ∃ st',
    example_callback overlaps idx iteration latents st = Ok st'
    ∧ (∃ row', latents_cache st' !! idx = Some row'
               ∧ row' !! iteration = Some latents)
    ∧ length (heap st' latents) = length (heap st latents)
    ∧ (∀ i : nat, (i < length overlap_keys)%nat →
         heap st' latents !! i
         = heap st last_latents
             !! (length (heap st latents) - length overlap_keys + i)%nat)
    ∧ (∀ j : nat, (length overlap_keys ≤ j)%nat →
         heap st' latents !! j = heap st latents !! j)
    ∧ (∀ a, a ≠ latents → heap st' a = heap st a)
    ∧ (last_latents ≠ latents →
       ∀ i : nat, (i < length overlap_keys)%nat →
         heap st' latents !! i
         = heap st' last_latents
             !! (length (heap st' latents) - length overlap_keys + i)%nat).
Proof.
  intros Hidx Hov Hrow Hlast Hlen.
  unfold example_callback.
  destruct (Z.gtb_spec idx 0) as [_|?]; [|lia].
  assert (py_index overlaps idx = Ok overlap_keys) as ->.
  { rewrite <- (Z2Nat.id idx) by lia. by apply py_index_nat. }
  simpl.
  destruct (copy_overlap_loop
              (<[idx:=<[iteration:=latents]> (default ∅ (latents_cache st !! idx))]>
                 (latents_cache st))
              idx iteration latents last_latents overlap_keys (heap st) row
              (length overlap_keys))
    as (h' & Hrun & Hlen' & Hcopied & Hrest & Hother); [|done|done|done|].
  { rewrite lookup_insert_ne by lia. done. }
  unfold len. rewrite Hrun. simpl.
  eexists. split; [done|]. simpl.
  split; [|split; [done|split; [done|split; [done|split; [done|]]]]].
  - eexists. rewrite lookup_insert_eq. split; [done|]. by rewrite lookup_insert_eq.
  - intros Hne i Hi. rewrite Hlen', (Hother _ Hne). by apply Hcopied.
Qed.
End example_callback_properties.

Lemma example_callback_continuity_witness :
  ∃ st',
    example_callback [[]; [3]] 1 7 1%nat
      (CallbackState (λ a, if decide (a = 0%nat) then [10; 11; 12; 13]
                           else [20; 21; 22; 23])
         {[ 0 := {[ 7 := 0%nat ]} ]}) = Ok st'
    ∧ heap st' 1%nat = [13; 21; 22; 23].
Proof.
  destruct (example_callback_continuity (K := Z) [[]; [3]] 1 7 1%nat 0%nat
              (CallbackState (λ a, if decide (a = 0%nat) then [10; 11; 12; 13]
                                   else [20; 21; 22; 23])
                 {[ 0 := {[ 7 := 0%nat ]} ]})
              [3] {[ 7 := 0%nat ]})
    as (st' & Hrun & _); [lia|reflexivity|reflexivity|reflexivity|simpl; lia|].
  exists st'. split; [exact Hrun|].
  vm_compute in Hrun. injection Hrun as <-. reflexivity.
Defined.

(** ** The output stitcher *)

Section combine_videos_properties.
Context {K Frame : Type}.

Lemma np_concatenate_arrays (fss : list (list Frame)) :
  np_concatenate (NdArray <$> fss) = Ok (concat fss).
Proof.
  induction fss as [|fs fss IH]; [done|]. rewrite fmap_cons.
  change (np_concatenate (NdArray fs :: (NdArray <$> fss)))
    with (tl ←r np_concatenate (NdArray <$> fss); Ok (fs ++ tl)).
  by rewrite IH.
Qed.

(** The array branch concatenates the outputs whole, whatever the overlap
    lists are. *)
Lemma combine_videos_ndarray (fs : list Frame) (fss : list (list Frame))
    (overlaps : list (list K)) :
  combine_videos (NdArray <$> fs :: fss) overlaps
  = Ok (NdArray (concat (fs :: fss))).
Proof.
  unfold combine_videos. rewrite fmap_cons.
  change (py_index (NdArray fs :: (NdArray <$> fss)) 0)
    with (@Ok (video Frame) (NdArray fs)).
  cbn [rbind].
  change (np_concatenate (NdArray fs :: (NdArray <$> fss)))
    with (tl ←r np_concatenate (NdArray <$> fss); Ok (fs ++ tl)).
  by rewrite np_concatenate_arrays.
Qed.

Lemma slice_from_nat (fs : list Frame) (n : nat) :
  py_slice fs (Z.of_nat n) (len fs) = drop n fs.
Proof.
  unfold py_slice, slice_bound, len.
  destruct (Z.ltb_spec (Z.of_nat n) 0) as [?|_]; [lia|].
  destruct (Z.ltb_spec (Z.of_nat (length fs)) 0) as [?|_]; [lia|].
  rewrite Z.min_id. destruct (decide (n ≤ length fs)%nat).
  - rewrite Z.min_l by lia.
    rewrite Nat2Z.id, take_ge; [done|]. rewrite length_drop. lia.
  - rewrite Z.min_r by lia. rewrite Nat2Z.id, !drop_ge by lia. by rewrite take_nil.
Qed.

(** The tensor branch after the first [n] outputs. *)
Lemma combine_tensors_prefix (fs0 : list Frame) (fss : list (list Frame))
    (overlaps : list (list K)) (n : nat) :
  (n ≤ length fss)%nat →
  (length fss = 0 ∨ length fss < length overlaps)%nat →
  for_each (combine_step overlaps) (Tensor fs0)
    (zip (seqZ 1 (Z.of_nat n)) (Tensor <$> take n fss))
  = Ok (Tensor (fs0 ++ concat (imap (λ i fs,
                   drop (length (overlaps !!! S i)) fs) (take n fss)))).
Proof.
  intros Hn Hov. induction n as [|n IH].
  { simpl. by rewrite app_nil_r. }
  destruct (lookup_lt_is_Some_2 fss n) as [fs Hfs]; [lia|].
  destruct (lookup_lt_is_Some_2 overlaps (S n)) as [ov Hovn]; [lia|].
  rewrite seqZ_S, (take_S_r _ _ _ Hfs), fmap_app, zip_with_app.
  2:{ rewrite length_seqZ, length_fmap, length_take. lia. }
  rewrite for_each_app, IH by lia. simpl.
  destruct (Z.eqb_spec (1 + Z.of_nat n) 0) as [?|_]; [lia|].
  replace (1 + Z.of_nat n) with (Z.of_nat (S n)) by lia.
  rewrite (py_index_nat _ _ _ Hovn). simpl. unfold len at 1.
  rewrite slice_from_nat. do 2 f_equal.
  rewrite imap_app, concat_app, <- app_assoc. simpl.
  rewrite app_nil_r, length_take, Nat.min_l, Nat.add_0_r by lia.
  by rewrite (list_lookup_total_correct _ _ _ Hovn).
Qed.

(** The tensor branch: output 0 whole, every later output without its
    first [len(overlaps[i])] frames; a single output needs no overlap
    list. *)
Lemma combine_videos_tensor (fs0 : list Frame) (fss : list (list Frame))
    (overlaps : list (list K)) :
  (length fss = 0 ∨ length fss < length overlaps)%nat →
  combine_videos (Tensor <$> fs0 :: fss) overlaps
  = Ok (Tensor (fs0 ++ concat (imap (λ i fs,
                   drop (length (overlaps !!! S i)) fs) fss))).
Proof.
  intros Hov. unfold combine_videos. rewrite fmap_cons.
  change (py_index (Tensor fs0 :: (Tensor <$> fss)) 0)
    with (@Ok (video Frame) (Tensor fs0)).
  cbn [rbind]. unfold len. rewrite length_cons, length_fmap.
  rewrite (seqZ_cons 0) by lia.
  replace (Z.succ 0) with 1 by lia.
  replace (Z.pred (Z.of_nat (S (length fss)))) with (Z.of_nat (length fss)) by lia.
  cbn [zip_with for_each combine_step Z.eqb rbind].
  rewrite <- (take_ge fss (length fss)) at 2 3 by lia.
  by apply combine_tensors_prefix.
Qed.
End combine_videos_properties.

Section stitch_length.
Context {K V Frame : Type} `{EqDecision K}.

(** Dropping as many elements from lists of equal lengths leaves as many. *)
Lemma trimmed_length (g : nat → nat) (segs : list (PyDict.dict K V))
    (outs : list (list Frame)) :
  Forall2 (λ seg fs, length fs = length seg) segs outs →
  length (concat (imap (λ i fs, drop (g i) fs) outs))
  = length (concat (imap (λ i seg, drop (g i) (PyDict.keys seg)) segs)).
Proof.
  intros Hall. revert g. induction Hall as [|seg fs segs outs Hlen _ IH]; intros g.
  { done. }
  simpl. rewrite !length_app, !length_drop. unfold PyDict.keys at 1.
  rewrite length_fmap, Hlen. f_equal. apply (IH (g ∘ S)).
Qed.

(** X9 — stitch length.  The tensor branch on the windows of the segmenter:
    when every output has as many frames as its window has keys, the
    stitched video has as many frames as the dictionary has keys. *)
Lemma combine_videos_tensor_duration (d : PyDict.dict K V)
    (segment_size overlap : Z) segs ovs (outs : list (list Frame)) :
  PyDict.wf d →
  0 ≤ overlap < segment_size →
  segment_size ≤ len (PyDict.keys d) →
  segment_dict (length d) d segment_size overlap = Some (Ok (segs, ovs)) →
  Forall2 (λ seg fs, length fs = length seg) segs outs →
  ∃ fs, combine_videos (Tensor <$> outs) ovs = Ok (Tensor fs)
        ∧ len fs = len (PyDict.keys d).
Proof.
  intros Hwf Ho Hn Hrun Hall.
  assert (length (PyDict.keys d) = length d) as Hklen
    by (unfold PyDict.keys; apply length_fmap).
  assert (trimmed_keys segs ovs = PyDict.keys d
          ∧ (length segs = 1%nat ∨ length segs = length ovs)) as [Htrim Hshape].
  { unfold len in Hn. rewrite Hklen in Hn.
    destruct (decide (Z.of_nat (length d) = segment_size)) as [Heq|Hne].
    - revert Hrun. unfold segment_dict, len. rewrite Hklen.
      destruct (Z.ltb_spec (Z.of_nat (length d)) segment_size) as [?|_]; [lia|].
      destruct (Z.eqb_spec (Z.of_nat (length d)) segment_size) as [_|?]; [|lia].
      intros [= <- <-]. split; [|by left].
      unfold trimmed_keys. simpl. by rewrite app_nil_r.
    - destruct (segment_dict_run (length d) d (Z.to_nat segment_size) (Z.to_nat overlap))
        as (segs' & ovs' & Hrun' & Htrim & Hok); [done|lia|lia|lia|].
      rewrite !Z2Nat.id, Hrun in Hrun' by lia. injection Hrun' as <- <-.
      split; [done|]. right. by eapply Forall2_length. }
  destruct Hall as [|seg0 fs0 segs' fss Hlen0 Hall].
  { simpl in Hshape. destruct Hshape as [?|Hnil]; [done|].
    symmetry in Hnil. apply nil_length_inv in Hnil. subst ovs.
    unfold trimmed_keys in Htrim. simpl in Htrim.
    unfold len in Hn. rewrite <- Htrim in Hn. simpl in Hn. lia. }
  pose proof (Forall2_length _ _ _ Hall) as Hlens.
  eexists. split.
  - apply combine_videos_tensor. simpl in Hshape. unfold PyDict.dict in *. lia.
  - unfold len. f_equal. rewrite <- Htrim. unfold trimmed_keys.
    change (imap ?f (seg0 :: segs')) with (f 0%nat seg0 :: imap (f ∘ S) segs').
    simpl. rewrite !length_app. unfold PyDict.keys at 1.
    rewrite length_fmap, Hlen0. f_equal.
    apply (trimmed_length (λ i, length (ovs !!! S i))). done.
Qed.
End stitch_length.

(** C3 — output stitching, at the outputs of three keys in windows of size 2
    with overlap 1 (frames are named by their keys).  The tensor branch drops
    the overlap frame of output 1 and returns the 3 frames of the sequence;
    the array branch keeps it and returns 4 frames, one more than the
    duration. *)
Theorem combine_videos_ndarray_keeps_overlap :
  segment_dict 3 [(0, 0); (1, 1); (2, 2)] 2 1
  = Some (Ok ([[(0, 0); (1, 1)]; [(1, 1); (2, 2)]], [[]; [1]]))
  ∧ combine_videos [Tensor [0; 1]; Tensor [1; 2]] [[]; [1]] = Ok (Tensor [0; 1; 2])
  ∧ combine_videos [NdArray [0; 1]; NdArray [1; 2]] [[]; [1]]
    = Ok (NdArray [0; 1; 1; 2])
  ∧ frame_count (NdArray [0; 1; 1; 2]) ≠ 3.
Proof. repeat split; try (vm_compute; reflexivity). vm_compute. discriminate. Qed.

(** ** Keyframe schedules *)

Lemma py_round_range (x : Q) (d : Z) :
  (0 <= x)%Q → (x <= inject_Z d)%Q → 0 ≤ py_round x ≤ d.
Proof.
  destruct x as [n p]. unfold Qle, py_round. simpl. intros Hn Hd.
  pose proof (Z.div_mod n (Z.pos p)) as Hdm.
  pose proof (Z.mod_pos_bound n (Z.pos p)) as Hr.
  assert (0 < Z.pos p) as Hp by lia.
  set (q := n `div` Z.pos p) in *. set (r := n `mod` Z.pos p) in *.
  assert (0 ≤ q) by (apply Z.div_pos; lia).
  destruct (Z.compare_spec (2 * r) (Z.pos p)); [destruct (Z.even q)|..]; nia.
Qed.

(** [round(n * ratio)] as Python computes it: 8 * 0.5, 5 * 0.1 (the ratio
    given as the decimal, and as the float it is read as), 45 * 0.7 and
    90 * 0.35, where the exact product of 45 and 7/10 rounds to 32; and a
    count beyond 2^53. *)
Example float_round_mul_examples :
  float_round_mul 8 (1 # 2) = 4
  ∧ float_round_mul 5 (1 # 10) = 0
  ∧ float_round_mul 5 (3602879701896397 # 36028797018963968) = 0
  ∧ float_round_mul 45 (7 # 10) = 31
  ∧ float_round_mul 90 (35 # 100) = 31
  ∧ py_round (inject_Z 45 * (7 # 10)) = 32
  ∧ float_round_mul (2 ^ 53 + 3) 1 = 2 ^ 53 + 4.
Proof. vm_compute. repeat split. Qed.

(** Beyond 2^53 frames a gap is no float: with ratio 1 the key the loop
    computes for the gap from 0 to 2^53 + 3 lies after the end of the gap. *)
Example hold_key_beyond_max_frame :
  hold_key 1 0 (2 ^ 53 + 3) = 2 ^ 53 + 4.
Proof. vm_compute. reflexivity. Qed.

Lemma py_round_le_int (x : Q) (N : Z) :
  (x <= inject_Z N)%Q → py_round x ≤ N.
Proof.
  destruct x as [n p]. unfold Qle, py_round. simpl. intros Hd.
  pose proof (Z.div_mod n (Z.pos p)) as Hdm.
  pose proof (Z.mod_pos_bound n (Z.pos p)) as Hr.
  assert (0 < Z.pos p) as Hp by lia.
  set (q := n `div` Z.pos p) in *. set (r := n `mod` Z.pos p) in *.
  destruct (Z.compare_spec (2 * r) (Z.pos p)); [destruct (Z.even q)|..]; nia.
Qed.

Lemma py_round_ge_int (x : Q) (N : Z) :
  (inject_Z N <= x)%Q → N ≤ py_round x.
Proof.
  destruct x as [n p]. unfold Qle, py_round. simpl. intros Hd.
  pose proof (Z.div_mod n (Z.pos p)) as Hdm.
  pose proof (Z.mod_pos_bound n (Z.pos p)) as Hr.
  assert (0 < Z.pos p) as Hp by lia.
  set (q := n `div` Z.pos p) in *. set (r := n `mod` Z.pos p) in *.
  destruct (Z.compare_spec (2 * r) (Z.pos p)); [destruct (Z.even q)|..]; nia.
Qed.

Lemma Qpow2_pos (e : Z) : (0 < 2 ^ e)%Q.
Proof. by apply Qpower_0_lt. Qed.

Lemma Qpow2_opp_l (e : Z) : (2 ^ (- e) * 2 ^ e == 1)%Q.
Proof.
  rewrite <- Qpower_plus by done. by replace (- e + e) with 0 by lia.
Qed.

Lemma Qpow2_inject (k : Z) : 0 ≤ k → (2 ^ k == inject_Z (2 ^ k))%Q.
Proof. intros Hk. by rewrite Zpower_Qpower. Qed.

(** The exponent is not too large. *)
Lemma Qfloor_log2_lt (x : Q) (k : Z) :
  (0 <= x)%Q → 0 ≤ k → (x < inject_Z (2 ^ k))%Q → Qfloor_log2 x < k.
Proof.
  intros Hx Hk Hlt. unfold Qfloor_log2.
  set (t := Z.log2 (Qnum x) - Z.log2 (Z.pos (Qden x))).
  assert (t ≤ k) as Ht.
  { unfold t. destruct x as [n d]. unfold Qlt, Qle in *.
    cbn [Qnum Qden inject_Z] in *.
    assert (Z.log2 n ≤ Z.log2 (Z.pos d * 2 ^ k)) as Hl.
    { apply Z.log2_le_mono. rewrite (Z.mul_comm (Z.pos d)). lia. }
    rewrite Z.log2_mul_pow2 in Hl by lia. lia. }
  destruct (Qle_bool (2 ^ t) x) eqn:Htest; [|lia].
  apply Qle_bool_iff in Htest.
  destruct (decide (t = k)) as [->|?]; [|lia].
  rewrite Qpow2_inject in Htest by done.
  exfalso. apply (Qlt_irrefl x). by eapply Qlt_le_trans.
Qed.

(** The exponent is not too small. *)
Lemma Qfloor_log2_ge (x : Q) :
  (0 < x)%Q → 0 ≤ Qfloor_log2 x → (inject_Z (2 ^ Qfloor_log2 x) <= x)%Q.
Proof.
  intros Hx. unfold Qfloor_log2.
  set (t := Z.log2 (Qnum x) - Z.log2 (Z.pos (Qden x))).
  destruct (Qle_bool (2 ^ t) x) eqn:Htest.
  - intros Ht. apply Qle_bool_iff in Htest. by rewrite <- Qpow2_inject.
  - intros Ht. unfold t in *. destruct x as [n d].
    unfold Qlt, Qle in *. cbn [Qnum Qden inject_Z] in *.
    assert (0 < n) as Hn by lia.
    pose proof (Z.log2_spec n Hn) as [Hn1 _].
    pose proof (Z.log2_spec (Z.pos d) ltac:(lia)) as [_ Hd2].
    pose proof (Z.log2_nonneg (Z.pos d)) as Hd0.
    set (a := Z.log2 n) in *. set (b := Z.log2 (Z.pos d)) in *.
    rewrite Z.mul_1_r.
    assert (2 ^ (a - b - 1) * 2 ^ Z.succ b = 2 ^ a) as Hpow.
    { rewrite <- Z.pow_add_r by lia. f_equal. lia. }
    assert (0 < 2 ^ (a - b - 1)) by (apply Z.pow_pos_nonneg; lia).
    nia.
Qed.

Lemma double_exponent_nonneg_arg (x : Q) :
  (0 <= x)%Q → double_exponent x = Z.max (Qfloor_log2 x - 52) (-1074).
Proof.
  intros Hx. unfold double_exponent. destruct x as [n d].
  unfold Qle in Hx. simpl in Hx. unfold Qabs. by rewrite Z.abs_eq by lia.
Qed.

Lemma round_double_nonneg (x : Q) : (0 <= x)%Q → (0 <= round_double x)%Q.
Proof.
  intros Hx. unfold round_double.
  apply Qmult_le_0_compat; [|apply Qlt_le_weak, Qpow2_pos].
  assert (0 ≤ py_round (x * 2 ^ (- double_exponent x))) as Hr.
  { apply (py_round_ge_int _ 0).
    apply Qmult_le_0_compat; [done|apply Qlt_le_weak, Qpow2_pos]. }
  unfold Qle. simpl. lia.
Qed.

(** Rounding with the last place at 2^e, [e <= 0], does not cross an
    integer. *)
Lemma round_at_le_int (x : Q) (e g : Z) :
  e ≤ 0 → (x <= inject_Z g)%Q →
  (inject_Z (py_round (x * 2 ^ (- e))) * 2 ^ e <= inject_Z g)%Q.
Proof.
  intros He Hx.
  assert (py_round (x * 2 ^ (- e)) ≤ g * 2 ^ (- e)) as Hr.
  { apply py_round_le_int. rewrite inject_Z_mult, <- Qpow2_inject by lia.
    apply Qmult_le_compat_r; [done|apply Qlt_le_weak, Qpow2_pos]. }
  apply Qle_trans with (inject_Z (g * 2 ^ (- e)) * 2 ^ e)%Q.
  - apply Qmult_le_compat_r; [|apply Qlt_le_weak, Qpow2_pos].
    by rewrite <- Zle_Qle.
  - rewrite inject_Z_mult, <- Qpow2_inject by lia.
    rewrite <- Qmult_assoc, Qpow2_opp_l, Qmult_1_r. apply Qle_refl.
Qed.

Lemma round_at_ge_int (x : Q) (e g : Z) :
  e ≤ 0 → (inject_Z g <= x)%Q →
  (inject_Z g <= inject_Z (py_round (x * 2 ^ (- e))) * 2 ^ e)%Q.
Proof.
  intros He Hx.
  assert (g * 2 ^ (- e) ≤ py_round (x * 2 ^ (- e))) as Hr.
  { apply py_round_ge_int. rewrite inject_Z_mult, <- Qpow2_inject by lia.
    apply Qmult_le_compat_r; [done|apply Qlt_le_weak, Qpow2_pos]. }
  apply Qle_trans with (inject_Z (g * 2 ^ (- e)) * 2 ^ e)%Q.
  - rewrite inject_Z_mult, <- Qpow2_inject by lia.
    rewrite <- Qmult_assoc, Qpow2_opp_l, Qmult_1_r. apply Qle_refl.
  - apply Qmult_le_compat_r; [|apply Qlt_le_weak, Qpow2_pos].
    by rewrite <- Zle_Qle.
Qed.

(** The float nearest to a number is on the same side of every integer up
    to 2^53: integers up to there are floats. *)
Lemma round_double_le_int (x : Q) (g : Z) :
  (0 <= x)%Q → (x <= inject_Z g)%Q → g ≤ max_frame →
  (round_double x <= inject_Z g)%Q.
Proof.
  intros H0 Hx Hg. unfold round_double.
  rewrite (double_exponent_nonneg_arg x H0).
  set (e := Z.max (Qfloor_log2 x - 52) (-1074)).
  destruct (decide (e ≤ 0)) as [He|He]; [by apply round_at_le_int|].
  assert (Qfloor_log2 x = e + 52) as Hfl by lia.
  assert (x < inject_Z (2 ^ 54))%Q as H54.
  { eapply Qle_lt_trans; [exact Hx|]. rewrite <- Zlt_Qlt.
    unfold max_frame in Hg. lia. }
  pose proof (Qfloor_log2_lt x 54 H0 ltac:(lia) H54) as Hlt.
  assert (e = 1) as -> by lia.
  assert (¬ (x < inject_Z (2 ^ 53))%Q) as Hge.
  { intros Hlt53. pose proof (Qfloor_log2_lt x 53 H0 ltac:(lia) Hlt53). lia. }
  apply Qnot_lt_le in Hge.
  assert (g = 2 ^ 53) as ->.
  { assert (inject_Z (2 ^ 53) <= inject_Z g)%Q as Hle by (by eapply Qle_trans).
    rewrite <- Zle_Qle in Hle. unfold max_frame in Hg. lia. }
  assert (py_round (x * 2 ^ (- (1))) ≤ 2 ^ 52) as Hr.
  { apply py_round_le_int.
    apply Qle_trans with (inject_Z (2 ^ 53) * 2 ^ (- (1)))%Q.
    - apply Qmult_le_compat_r; [done|apply Qlt_le_weak, Qpow2_pos].
    - vm_compute. discriminate. }
  apply Qle_trans with (inject_Z (2 ^ 52) * 2 ^ 1)%Q.
  - apply Qmult_le_compat_r; [by rewrite <- Zle_Qle|done].
  - vm_compute. discriminate.
Qed.

Lemma round_double_ge_int (x : Q) (g : Z) :
  0 ≤ g → (inject_Z g <= x)%Q → g ≤ max_frame →
  (inject_Z g <= round_double x)%Q.
Proof.
  intros H0g Hx Hg.
  assert (0 <= x)%Q as H0.
  { eapply Qle_trans; [|exact Hx]. unfold Qle. cbn [Qnum Qden inject_Z]. lia. }
  unfold round_double. rewrite (double_exponent_nonneg_arg x H0).
  set (e := Z.max (Qfloor_log2 x - 52) (-1074)).
  destruct (decide (e ≤ 0)) as [He|He]; [by apply round_at_ge_int|].
  assert (Qfloor_log2 x = e + 52) as Hfl by lia.
  assert (0 < x)%Q as Hpos.
  { destruct (Qlt_le_dec 0 x) as [?|Hle]; [done|].
    assert (x < inject_Z (2 ^ 0))%Q as Hlt0.
    { eapply Qle_lt_trans; [exact Hle|]. done. }
    pose proof (Qfloor_log2_lt x 0 H0 ltac:(lia) Hlt0). lia. }
  pose proof (Qfloor_log2_ge x Hpos ltac:(lia)) as Hlow. rewrite Hfl in Hlow.
  assert (2 ^ 52 ≤ py_round (x * 2 ^ (- e))) as Hr.
  { apply py_round_ge_int.
    apply Qle_trans with (inject_Z (2 ^ (e + 52)) * 2 ^ (- e))%Q.
    - rewrite <- !Qpow2_inject by lia.
      rewrite <- Qpower_plus by done.
      replace (e + 52 + - e) with 52 by lia. apply Qle_refl.
    - apply Qmult_le_compat_r; [done|apply Qlt_le_weak, Qpow2_pos]. }
  apply Qle_trans with (inject_Z (2 ^ 52) * 2 ^ e)%Q.
  - rewrite <- !Qpow2_inject by lia. rewrite <- Qpower_plus by done.
    rewrite Qpow2_inject by lia. rewrite <- Zle_Qle.
    unfold max_frame in Hg.
    assert (2 ^ 53 ≤ 2 ^ (52 + e)) by (apply Z.pow_le_mono_r; lia). lia.
  - apply Qmult_le_compat_r; [by rewrite <- Zle_Qle|].
    apply Qlt_le_weak, Qpow2_pos.
Qed.

(** For a ratio in [0,1] and a count up to 2^53 the rounded float product
    lies between 0 and the count. *)
Lemma float_round_mul_range (n : Z) (ratio : Q) :
  (0 <= ratio)%Q → (ratio <= 1)%Q → 0 ≤ n ≤ max_frame →
  0 ≤ float_round_mul n ratio ≤ n.
Proof.
  intros H0 H1 Hn. unfold float_round_mul.
  assert (0 <= inject_Z n)%Q as Hn0 by (unfold Qle; cbn [Qnum Qden inject_Z]; lia).
  pose proof (round_double_nonneg _ Hn0) as Ha0.
  pose proof (round_double_le_int _ n Hn0 ltac:(apply Qle_refl) ltac:(lia)) as Ha1.
  pose proof (round_double_nonneg _ H0) as Hb0.
  pose proof (round_double_le_int ratio 1 H0 H1 ltac:(done)) as Hb1.
  set (a := round_double (inject_Z n)) in *. set (b := round_double ratio) in *.
  assert (0 <= a * b)%Q as Hp0 by (by apply Qmult_le_0_compat).
  assert (a * b <= inject_Z n)%Q as Hp1.
  { apply Qle_trans with (inject_Z n * 1)%Q; [|rewrite Qmult_1_r; apply Qle_refl].
    by apply Qmult_le_compat_nonneg. }
  split.
  - apply py_round_ge_int. by apply round_double_nonneg.
  - apply py_round_le_int. apply round_double_le_int; [done|done|lia].
Qed.

Lemma float_round_mul_0 (n : Z) : 0 ≤ n → float_round_mul n 0 = 0.
Proof.
  intros Hn. unfold float_round_mul.
  assert (0 <= inject_Z n)%Q as Hn0 by (unfold Qle; cbn [Qnum Qden inject_Z]; lia).
  pose proof (round_double_nonneg _ Hn0) as Ha0.
  set (a := round_double (inject_Z n)) in *.
  assert (a * round_double 0 == 0)%Q as Hp.
  { assert (round_double 0 == 0)%Q as -> by (vm_compute; reflexivity).
    apply Qmult_0_r. }
  assert (0 <= a * round_double 0)%Q as Hp0 by (rewrite Hp; apply Qle_refl).
  assert (a * round_double 0 <= inject_Z 0)%Q as Hp1 by (rewrite Hp; apply Qle_refl).
  pose proof (round_double_nonneg _ Hp0) as Hr0.
  pose proof (round_double_le_int _ 0 Hp0 Hp1 ltac:(done)) as Hr1.
  pose proof (py_round_ge_int _ 0 Hr0). pose proof (py_round_le_int _ 0 Hr1). lia.
Qed.

Lemma float_round_mul_1 (n : Z) : 0 ≤ n ≤ max_frame → float_round_mul n 1 = n.
Proof.
  intros Hn.
  pose proof (float_round_mul_range n 1 ltac:(done) ltac:(apply Qle_refl) Hn) as [_ Hle].
  unfold float_round_mul in *.
  assert (inject_Z n <= round_double (inject_Z n))%Q as Ha
    by (apply round_double_ge_int; [lia|apply Qle_refl|lia]).
  assert (1 <= round_double 1)%Q as Hb by (vm_compute; discriminate).
  assert (0 <= inject_Z n)%Q as Hn0 by (unfold Qle; cbn [Qnum Qden inject_Z]; lia).
  assert (inject_Z n <= round_double (inject_Z n) * round_double 1)%Q as Hp.
  { apply Qle_trans with (inject_Z n * 1)%Q; [rewrite Qmult_1_r; apply Qle_refl|].
    apply Qmult_le_compat_nonneg; split; done. }
  pose proof (round_double_ge_int _ n ltac:(lia) Hp ltac:(lia)) as Hr.
  pose proof (py_round_ge_int _ n Hr). lia.
Qed.

(** For a ratio in [0,1] the key the loop computes for a gap of at most
    2^53 frames lies in the gap, at or after its first key and before its
    end. *)
Lemma hold_key_range (ratio : Q) (k0 k1 : Z) :
  (0 <= ratio)%Q → (ratio <= 1)%Q → k0 < k1 → k1 - k0 ≤ max_frame →
  k0 ≤ hold_key ratio k0 k1 < k1.
Proof.
  intros H0 H1 Hk Hmax.
  pose proof (float_round_mul_range (k1 - k0) ratio H0 H1 ltac:(lia)) as Hr.
  unfold hold_key.
  destruct (Z.eqb_spec (k0 + float_round_mul (k1 - k0) ratio) k1); lia.
Qed.

Section hold_keys_properties.
Context {T : Type}.
Implicit Types m : gmap Z T.

Lemma sorted_keys_sorted m : StronglySorted Z.lt (sorted_keys m).
Proof.
  unfold sorted_keys.
  assert (NoDup (merge_sort Z.le (elements (dom m)))) as Hnd.
  { rewrite merge_sort_Permutation. apply NoDup_elements. }
  pose proof (StronglySorted_merge_sort Z.le (elements (dom m))) as Hs.
  induction Hs as [|k ks _ IH Hk]; [constructor|].
  apply NoDup_cons in Hnd as [Hnk Hnd].
  constructor; [by apply IH|].
  apply Forall_forall. intros k' Hk'.
  rewrite Forall_forall in Hk. specialize (Hk _ Hk').
  assert (k ≠ k') by (by intros ->). lia.
Qed.

Lemma elem_of_sorted_keys m k : k ∈ sorted_keys m ↔ is_Some (m !! k).
Proof.
  unfold sorted_keys.
  by rewrite merge_sort_Permutation, elem_of_elements, elem_of_dom.
Qed.

Lemma key_pairs_snoc (ks : list Z) (k dur : Z) :
  key_pairs (ks ++ [k]) dur = key_pairs ks k ++ [(k, dur)].
Proof.
  unfold key_pairs. destruct ks as [|a ks]; [done|].
  change (tail ((a :: ks) ++ [k])) with (ks ++ [k]).
  change (tail (a :: ks)) with ks.
  rewrite zip_with_app; [done|].
  rewrite length_app. simpl. lia.
Qed.

Lemma elem_of_key_pairs (ks : list Z) (dur k0 k1 : Z) :
  StronglySorted Z.lt (ks ++ [dur]) →
  (k0, k1) ∈ key_pairs ks dur → k0 ∈ ks ∧ k0 < k1 ≤ dur.
Proof.
  revert dur. induction ks as [|k ks IH] using rev_ind; intros dur Hs Hin.
  { by apply elem_of_nil in Hin. }
  rewrite key_pairs_snoc in Hin.
  apply StronglySorted_app in Hs as (Hlt & Hs & _).
  assert (k ∈ ks ++ [k]) as Hkin
    by (apply elem_of_app; right; by apply list_elem_of_singleton).
  assert (k < dur) as Hk by (apply Hlt; [done|by apply list_elem_of_singleton]).
  apply elem_of_app in Hin as [Hin|Hin].
  - destruct (IH _ Hs Hin) as [? ?].
    split; [apply elem_of_app; by left|lia].
  - apply list_elem_of_singleton in Hin. injection Hin as -> ->.
    split; [done|lia].
Qed.


Lemma keys_below_snoc m0 (ks : list Z) (k dur : Z) :
  keys_below m0 (ks ++ [k]) dur → keys_below m0 ks k.
Proof.
  intros (Hs & Hsome & Hall).
  apply StronglySorted_app in Hs as (Hlast & Hs & _).
  assert (k ∈ ks ++ [k]) as Hkin
    by (apply elem_of_app; right; by apply list_elem_of_singleton).
  assert (k < dur) as Hk by (apply Hlast; [done|by apply list_elem_of_singleton]).
  split; [done|]. split.
  - intros k' Hk'. apply Hsome. apply elem_of_app. by left.
  - intros k' Hk' Hlt.
    destruct (proj1 (elem_of_app _ _ _) (Hall k' Hk' ltac:(lia))) as [?|Heq]; [done|].
    apply list_elem_of_singleton in Heq. lia.
Qed.

(** The map after the hold-key loop over the gaps of [ks ++ [dur]]. *)
Lemma hold_fold_spec (ratio : Q) m0 (ks : list Z) (dur : Z) :
  (0 <= ratio)%Q → (ratio <= 1)%Q → keys_below m0 ks dur →
  (∀ k, k ∈ ks → dur - k ≤ max_frame) →
  let R := foldl (hold_step ratio) m0 (key_pairs ks dur) in
  (∀ k, dur ≤ k → R !! k = m0 !! k)
  ∧ (∀ k, is_Some (m0 !! k) → R !! k = m0 !! k)
  ∧ (∀ k0 k1, (k0, k1) ∈ key_pairs ks dur → hold_key ratio k0 k1 ≠ k0 →
       R !! hold_key ratio k0 k1 = m0 !! k0)
  ∧ (∀ k, is_Some (R !! k) →
       is_Some (m0 !! k)
       ∨ ∃ k0 k1, (k0, k1) ∈ key_pairs ks dur
                  ∧ k = hold_key ratio k0 k1 ∧ k ≠ k0).
Proof.
  intros H0 H1. revert dur.
  induction ks as [|k ks IH] using rev_ind; intros dur Hkb Hmax; simpl.
  { split; [done|]. split; [done|]. split.
    - intros k0 k1 Hin. by apply elem_of_nil in Hin.
    - intros k Hk. by left. }
  assert (k ∈ ks ++ [k]) as Hkin
    by (apply elem_of_app; right; by apply list_elem_of_singleton).
  assert (k < dur) as Hk.
  { destruct Hkb as (Hs & _ & _).
    apply StronglySorted_app in Hs as (Hlast & _ & _).
    apply Hlast; [done|by apply list_elem_of_singleton]. }
  assert (∀ k', k' ∈ ks → k - k' ≤ max_frame) as Hmax'.
  { intros k' Hk'. specialize (Hmax k' ltac:(apply elem_of_app; by left)). lia. }
  specialize (IH k (keys_below_snoc _ _ _ _ Hkb) Hmax').
  destruct IH as (IHa & IHb & IHc & IHd).
  destruct Hkb as (Hs & Hsome & Hall).
  pose proof Hs as Hs'.
  apply StronglySorted_app in Hs' as (Hlast & Hsk & _).
  pose proof (hold_key_range ratio k dur H0 H1 Hk (Hmax k Hkin)) as He.
  rewrite key_pairs_snoc, foldl_snoc.
  set (R' := foldl (hold_step ratio) m0 (key_pairs ks k)) in *.
  assert (hold_step ratio R' (k, dur)
          = if bool_decide (hold_key ratio k dur ≠ k) then
              match R' !! k with
              | Some v => <[hold_key ratio k dur := v]> R'
              | None => R'
              end
            else R') as -> by done.
  assert (∀ k0 k1, (k0, k1) ∈ key_pairs ks k →
            k0 ≤ hold_key ratio k0 k1 < k) as Hold.
  { intros k0 k1 Hin.
    destruct (elem_of_key_pairs _ _ _ _ Hsk Hin) as [Hk0 ?].
    specialize (Hmax' k0 Hk0).
    pose proof (hold_key_range ratio k0 k1 H0 H1). lia. }
  case_bool_decide as Hne.
  2:{ split; [intros; apply IHa; lia|]. split; [done|]. split.
      - intros k0 k1 [Hin|Hin]%elem_of_app Hh; [by apply IHc|].
        apply list_elem_of_singleton in Hin. injection Hin as -> ->.
        destruct (Hh Hne).
      - intros k' Hk'. destruct (IHd _ Hk') as [?|(k0 & k1 & ? & ? & ?)]; [by left|].
        right. exists k0, k1. split; [|done]. apply elem_of_app. by left. }
  destruct (Hsome k Hkin) as [v Hv].
  rewrite (IHa k) by lia. rewrite Hv.
  assert (m0 !! hold_key ratio k dur = None) as Hfresh.
  { destruct (m0 !! hold_key ratio k dur) eqn:Hm; [|done].
    assert (hold_key ratio k dur ∈ ks ++ [k]) as Hin
      by (apply Hall; [by rewrite Hm|lia]).
    apply elem_of_app in Hin as [Hin|Hin].
    - apply StronglySorted_app in Hsk as (Hltk & _ & _).
      specialize (Hltk _ k Hin ltac:(by apply list_elem_of_singleton)). lia.
    - apply list_elem_of_singleton in Hin. lia. }
  split; [|split; [|split]].
  - intros k' Hk'. rewrite lookup_insert_ne by lia. apply IHa. lia.
  - intros k' Hk'. rewrite lookup_insert_ne; [by apply IHb|].
    intros <-. rewrite Hfresh in Hk'. by destruct Hk'.
  - intros k0 k1 [Hin|Hin]%elem_of_app Hh.
    + specialize (Hold _ _ Hin). rewrite lookup_insert_ne by lia. by apply IHc.
    + apply list_elem_of_singleton in Hin. injection Hin as -> ->.
      by rewrite lookup_insert_eq.
  - intros k' Hk'. destruct (decide (k' = hold_key ratio k dur)) as [->|Hk'e].
    + right. exists k, dur. split; [|done].
      apply elem_of_app. right. by apply list_elem_of_singleton.
    + rewrite lookup_insert_ne in Hk' by done.
      destruct (IHd _ Hk') as [?|(k0 & k1 & ? & ? & ?)]; [by left|].
      right. exists k0, k1. split; [|done]. apply elem_of_app. by left.
Qed.
End hold_keys_properties.

Local Open Scope string_scope.

(** C4 — hold keys.  For a keyframe map whose keys are frame numbers below
    [duration] (not negative, [duration] at most 2^53) and a ratio in [0,1],
    the loop keeps every entry of the map; for every pair of consecutive
    keys (k0, k1), the last key paired with [duration], it computes
    [k0 + round((k1 - k0) * ratio)], the product being the float product,
    one less when that is [k1], and, unless the outcome is [k0], the outcome
    lies strictly between [k0] and [k1] and holds the value of [k0]; the
    map has no other key.  For the keys {0, 8} with duration 16 and ratio
    0.5 the gap from 8 to 16 adds key 12 as the gap from 0 to 8 adds key 4:
    the keys are {0, 4, 8, 12}, key 4 holds the value of key 0 and key 12
    the value of key 8.  For a gap of 45 frames and the ratio 0.7 the key is
    31, the float product being just below 31.5. *)
Theorem hold_keys_inserted {T : Type} (prompt_map : gmap Z T)
    (fixed_ratio : Q) (duration : Z) :
  (0 <= fixed_ratio)%Q → (fixed_ratio <= 1)%Q →
  map_Forall (λ k _, k < duration) prompt_map →
  map_Forall (λ k _, 0 ≤ k) prompt_map → duration ≤ max_frame →
  let result := insert_hold_keys prompt_map fixed_ratio duration in
  (∀ k, is_Some (prompt_map !! k) → result !! k = prompt_map !! k)
  ∧ (∀ k0 k1, (k0, k1) ∈ key_pairs (sorted_keys prompt_map) duration →
       let k05 := k0 + float_round_mul (k1 - k0) fixed_ratio in
       let k05 := if (k05 =? k1)%Z then k05 - 1 else k05 in
       k05 ≠ k0 → k0 < k05 < k1 ∧ result !! k05 = prompt_map !! k0)
  ∧ (∀ k, is_Some (result !! k) →
       is_Some (prompt_map !! k)
       ∨ ∃ k0 k1, (k0, k1) ∈ key_pairs (sorted_keys prompt_map) duration
                  ∧ k = hold_key fixed_ratio k0 k1 ∧ k ≠ k0)
  ∧ prompt_preprocess [(0, "a"); (8, "b")] "" "" (1 # 2) 16
    = {[ 0 := "a"; 4 := "a"; 8 := "b"; 12 := "b" ]}
  ∧ hold_key (7 # 10) 0 45 = 31.
Proof.
  intros H0 H1 Hbelow Hpos Hdur result.
  assert (keys_below prompt_map (sorted_keys prompt_map) duration) as Hkb.
  { split; [|split].
    - apply StronglySorted_app. split; [|split].
      + intros k d [v Hk]%elem_of_sorted_keys ->%list_elem_of_singleton.
        by apply (Hbelow k v).
      + apply sorted_keys_sorted.
      + repeat constructor.
    - intros k. apply elem_of_sorted_keys.
    - intros k Hk _. by apply elem_of_sorted_keys. }
  assert (∀ k, k ∈ sorted_keys prompt_map → duration - k ≤ max_frame) as Hmax.
  { intros k [v Hk]%elem_of_sorted_keys. specialize (Hpos k v Hk). simpl in Hpos. lia. }
  destruct (hold_fold_spec fixed_ratio prompt_map _ duration H0 H1 Hkb Hmax)
    as (_ & Hkeep & Hadd & Honly).
  split; [exact Hkeep|]. split; [|split; [exact Honly|]].
  - intros k0 k1 Hin. pose proof (Hadd k0 k1 Hin) as Hadd'.
    destruct Hkb as (Hs & _ & _).
    destruct (elem_of_key_pairs _ _ _ _ Hs Hin) as [Hk0 Hlt].
    specialize (Hmax k0 Hk0).
    pose proof (hold_key_range fixed_ratio k0 k1 H0 H1 (proj1 Hlt) ltac:(lia)) as Hr.
    unfold hold_key in Hadd', Hr. simpl. intros Hne.
    split; [lia|by apply Hadd'].
  - split; vm_compute; reflexivity.
Qed.

Lemma hold_keys_inserted_witness :
  insert_hold_keys ({[ 0 := "a"; 8 := "b" ]} : gmap Z string) (1 # 2) 16 !! 4
  = Some "a"
  ∧ insert_hold_keys ({[ 0 := "a" ]} : gmap Z string) (7 # 10) 45 !! 31
    = Some "a".
Proof.
  split.
  - destruct (hold_keys_inserted ({[ 0 := "a"; 8 := "b" ]} : gmap Z string) (1 # 2) 16)
      as (_ & Hadd & _).
    + unfold Qle. simpl. lia.
    + unfold Qle. simpl. lia.
    + apply (bool_decide_unpack _). vm_compute. exact I.
    + apply (bool_decide_unpack _). vm_compute. exact I.
    + vm_compute. discriminate.
    + destruct (Hadd 0 8) as [_ Hv].
      * apply (bool_decide_unpack _). vm_compute. exact I.
      * vm_compute. discriminate.
      * exact Hv.
  - destruct (hold_keys_inserted ({[ 0 := "a" ]} : gmap Z string) (7 # 10) 45)
      as (_ & Hadd & _).
    + unfold Qle. simpl. lia.
    + unfold Qle. simpl. lia.
    + apply (bool_decide_unpack _). vm_compute. exact I.
    + apply (bool_decide_unpack _). vm_compute. exact I.
    + vm_compute. discriminate.
    + destruct (Hadd 0 45) as [_ Hv].
      * apply (bool_decide_unpack _). vm_compute. exact I.
      * vm_compute. discriminate.
      * exact Hv.
Defined.

(** The claim's example fails: the keys {0, 8} with duration 16 and ratio
    0.5 do not give the key set {0, 4, 8}; key 12 is there as well. *)
Lemma hold_keys_example_has_12 :
  dom (prompt_preprocess [(0, "a"); (8, "b")] "" "" (1 # 2) 16)
  ≠ ({[ 0; 4; 8 ]} : gset Z).
Proof.
  intros Heq.
  assert (12 ∈ dom (prompt_preprocess [(0, "a"); (8, "b")] "" "" (1 # 2) 16)) as Hin.
  { apply elem_of_dom. vm_compute. eauto. }
  rewrite Heq in Hin. revert Hin. apply (bool_decide_unpack _). vm_compute. exact I.
Qed.

Local Close Scope string_scope.

(** ** Mask schedules *)

Section forward_fill_properties.
Implicit Types m : gmap Z Image.


(** The fill loop after its first [n] rounds. *)
Lemma fill_loop_spec m0 (prev0 : Image) (n : nat) :
  let st := foldl fill_step (m0, prev0) (seqZ 0 (Z.of_nat n)) in
  (∀ k, ¬ (0 ≤ k < Z.of_nat n) → st.1 !! k = m0 !! k)
  ∧ (∀ i, 0 ≤ i < Z.of_nat n → ∃ v, st.1 !! i = Some v ∧ held m0 prev0 i v)
  ∧ (∀ i, i = Z.of_nat n - 1 → 0 ≤ i → st.1 !! i = Some st.2)
  ∧ (n = 0%nat → st.2 = prev0).
Proof.
  induction n as [|n IH]; simpl.
  { split; [done|]. split; [intros; lia|]. split; [intros; lia|done]. }
  rewrite seqZ_S, foldl_snoc. simpl in IH.
  destruct (foldl fill_step (m0, prev0) (seqZ 0 (Z.of_nat n))) as [m prev].
  destruct IH as (Hout & Hin & Hlast & Hfirst). simpl in *.
  rewrite Z.add_0_l.
  assert (m !! Z.of_nat n = m0 !! Z.of_nat n) as Hn by (apply Hout; lia).
  destruct (m0 !! Z.of_nat n) as [img|] eqn:Hm0; rewrite Hn; simpl.
  - split; [intros; apply Hout; lia|]. split; [|split; [|done]].
    + intros i Hi. destruct (decide (i = Z.of_nat n)) as [->|Hne].
      * exists img. split; [done|]. left. exists (Z.of_nat n).
        split; [lia|]. split; [done|]. intros; lia.
      * apply Hin. lia.
    + intros i -> _. replace (Z.of_nat (S n) - 1) with (Z.of_nat n) by lia. done.
  - assert (held m0 prev0 (Z.of_nat n) prev) as Hheld.
    { destruct n as [|n'].
      - right. split; [|by apply Hfirst].
        intros k Hk. replace k with (Z.of_nat 0) by lia. done.
      - destruct (Hin (Z.of_nat n')) as (v & Hv & Hh); [lia|].
        rewrite (Hlast (Z.of_nat n')) in Hv by lia. injection Hv as <-.
        destruct Hh as [(k & Hk & Hkv & Hnone)|[Hnone ->]].
        + left. exists k. split; [lia|]. split; [done|].
          intros k' Hk'. destruct (decide (k' = Z.of_nat (S n'))) as [->|?]; [done|].
          apply Hnone. lia.
        + right. split; [|done].
          intros k Hk. destruct (decide (k = Z.of_nat (S n'))) as [->|?]; [done|].
          apply Hnone. lia. }
    split; [|split; [|split; [|done]]].
    + intros k Hk. rewrite lookup_insert_ne by lia. apply Hout. lia.
    + intros i Hi. destruct (decide (i = Z.of_nat n)) as [->|Hne].
      * exists prev. by rewrite lookup_insert_eq.
      * rewrite lookup_insert_ne by done. apply Hin. lia.
    + intros i -> _. replace (Z.of_nat (S n) - 1) with (Z.of_nat n) by lia.
      by rewrite lookup_insert_eq.
Qed.

Lemma forward_fill_spec (mode : string) (size : Z * Z) (duration : Z) m0 :
  let blank := Image_new mode size 0 in
  let filled := forward_fill mode size duration m0 in
  (∀ k, ¬ (0 ≤ k < duration) → filled !! k = m0 !! k)
  ∧ (∀ i, 0 ≤ i < duration → ∃ v, filled !! i = Some v ∧ held m0 blank i v).
Proof.
  intros blank filled. unfold filled, forward_fill, py_range.
  assert (seqZ 0 (duration - 0) = seqZ 0 (Z.of_nat (Z.to_nat duration))) as ->.
  { unfold seqZ. f_equal. f_equal. lia. }
  destruct (fill_loop_spec m0
              (match m0 !! 0 with Some img => img | None => blank end)
              (Z.to_nat duration)) as (Hout & Hin & _).
  split.
  - intros k Hk. apply Hout. lia.
  - intros i Hi. destruct (Hin i) as (v & Hv & Hh); [lia|].
    exists v. split; [done|].
    destruct Hh as [?|[Hnone ->]]; [by left|].
    right. split; [done|]. by rewrite (Hnone 0) by lia.
Qed.
End forward_fill_properties.

Lemma forward_fill_dense (mode : string) (size : Z * Z) (duration : Z)
    (m : gmap Z Image) :
  (∀ i, 0 ≤ i < duration → is_Some (m !! i)) →
  forward_fill mode size duration m = m.
Proof.
  intros Hdense. apply map_eq. intros k.
  destruct (forward_fill_spec mode size duration m) as [Hout Hin].
  destruct (decide (0 ≤ k < duration)) as [Hk|Hk]; [|by apply Hout].
  destruct (Hin k Hk) as (v & Hv & Hh). rewrite Hv.
  destruct (Hdense k Hk) as [v0 Hv0].
  destruct Hh as [(k' & Hk' & Hkv & Hnone)|[Hnone _]].
  - destruct (decide (k' = k)) as [->|Hne]; [done|].
    rewrite Hnone in Hv0 by lia. done.
  - rewrite Hnone in Hv0 by lia. done.
Qed.

(** Filling twice is filling once. *)
Lemma forward_fill_idempotent (mode : string) (size : Z * Z) (duration : Z)
    (m : gmap Z Image) :
  forward_fill mode size duration (forward_fill mode size duration m)
  = forward_fill mode size duration m.
Proof.
  apply forward_fill_dense. intros i Hi.
  destruct (forward_fill_spec mode size duration m) as [_ Hin].
  destruct (Hin i Hi) as (v & Hv & _). by rewrite Hv.
Qed.

(** The size and mode the loader keeps are those of the first mask whose
    frame number is below [duration]. *)
Lemma load_masks_size_mode (imgs : image_files) (duration : Z) :
  (load_masks imgs duration).2
  = (λ fi : Z * Image, (size fi.2, mode fi.2))
      <$> head (filter (λ fi : Z * Image, fi.1 < duration) imgs).
Proof.
  unfold load_masks.
  assert (∀ (st : gmap Z Image * option (Z * Z * string)),
    (foldl (λ (st : gmap Z Image * option (Z * Z * string)) (fi : Z * Image),
       let '(mask_map, size_mode) := st in
       let '(frame_no, img) := fi in
       if frame_no <? duration then
         (<[frame_no := img]> mask_map,
          match size_mode with
          | None => Some (size img, mode img)
          | Some sm => Some sm
          end)
       else st) st imgs).2
    = match st.2 with
      | Some sm => Some sm
      | None => (λ fi : Z * Image, (size fi.2, mode fi.2))
                  <$> head (filter (λ fi : Z * Image, fi.1 < duration) imgs)
      end) as Hgen.
  { induction imgs as [|[frame_no img] imgs IH]; intros [mask_map size_mode].
    { by destruct size_mode. }
    cbn [foldl]. destruct (Z.ltb_spec frame_no duration) as [Hlt|Hge].
    - rewrite IH, filter_cons_True by done. by destruct size_mode.
    - rewrite IH, filter_cons_False by (simpl; lia). done. }
  by rewrite Hgen.
Qed.

(** C6 — mask forward-fill.  When at least one mask is kept,
    [mask_preprocess] returns a map in which every frame [i] of
    [0 .. duration-1] holds the value of the nearest explicit key in
    [0 .. i]; a frame with no explicit key at or before it holds a new image
    of colour 0 with the mode and size of the first mask kept, not the value
    of the first key. *)
Theorem mask_preprocess_forward_fill (imgs : image_files) (duration : Z)
    (mask_map : gmap Z Image) (sz : Z * Z) (md : string) :
  load_masks imgs duration = (mask_map, Some (sz, md)) →
  ∃ filled,
    mask_preprocess imgs duration = Some filled
    ∧ (∃ first, head (filter (λ fi : Z * Image, fi.1 < duration) imgs) = Some first
                ∧ sz = size first.2 ∧ md = mode first.2)
    ∧ ∀ i, 0 ≤ i < duration →
        (∀ k v, 0 ≤ k ≤ i → mask_map !! k = Some v →
           (∀ k', k < k' ≤ i → mask_map !! k' = None) →
           filled !! i = Some v)
        ∧ ((∀ k, 0 ≤ k ≤ i → mask_map !! k = None) →
           filled !! i = Some (Image_new md sz 0)).
Proof.
  intros Hload. exists (forward_fill md sz duration mask_map).
  unfold mask_preprocess. rewrite Hload. split; [done|]. split.
  { pose proof (load_masks_size_mode imgs duration) as Hsm.
    rewrite Hload in Hsm. simpl in Hsm.
    destruct (head _) as [first|]; [|done].
    exists first. split; [done|]. simpl in Hsm. by injection Hsm as -> ->. }
  intros i Hi.
  destruct (forward_fill_spec md sz duration mask_map) as [_ Hin].
  destruct (Hin i Hi) as (v' & Hv' & Hh). rewrite Hv'. split.
  - intros k v Hk Hkv Hnone.
    destruct Hh as [(k2 & Hk2 & Hkv2 & Hnone2)|[Hnone2 _]].
    + destruct (Z.lt_trichotomy k k2) as [?|[->|?]].
      * rewrite Hnone in Hkv2 by lia. done.
      * congruence.
      * rewrite Hnone2 in Hkv by lia. done.
    + rewrite Hnone2 in Hkv by lia. done.
  - intros Hnone. destruct Hh as [(k2 & Hk2 & Hkv2 & _)|[_ ->]]; [|done].
    rewrite Hnone in Hkv2 by lia. done.
Qed.

Local Open Scope string_scope.

Lemma mask_preprocess_forward_fill_witness :
  ∃ filled,
    mask_preprocess [(2, MkImage "L" (1, 1) [255])] 4 = Some filled
    ∧ filled !! 3 = Some (MkImage "L" (1, 1) [255])
    ∧ filled !! 1 = Some (Image_new "L" (1, 1) 0).
Proof.
  destruct (mask_preprocess_forward_fill [(2, MkImage "L" (1, 1) [255])] 4
              {[ 2 := MkImage "L" (1, 1) [255] ]} (1, 1) "L")
    as (filled & Hrun & _ & Hfill); [reflexivity|].
  exists filled. split; [exact Hrun|]. split.
  - apply (proj1 (Hfill 3 ltac:(lia)) 2); [lia|reflexivity|].
    intros k' Hk'. replace k' with 3 by lia. reflexivity.
  - apply (proj2 (Hfill 1 ltac:(lia))).
    intros k Hk. assert (k = 0 ∨ k = 1) as [-> | ->] by lia; reflexivity.
Defined.

(** The claim's second half fails: with one mask at frame 2 and duration 4,
    frame 0 does not hold the value of the first key but a blank image. *)
Lemma mask_before_first_key_is_blank :
  ∃ filled,
    mask_preprocess [(2, MkImage "L" (1, 1) [255])] 4 = Some filled
    ∧ filled !! 0 = Some (MkImage "L" (1, 1) [0])
    ∧ filled !! 0 ≠ filled !! 2.
Proof.
  eexists. split; [reflexivity|]. split; [reflexivity|].
  vm_compute. discriminate.
Qed.

(** C9 — forward-fill of a dense map.  A mask map that has every frame of
    [0 .. duration-1] as a key comes out of the forward-fill pass equal to
    itself: no key is added, removed or given another value. *)
Theorem forward_fill_dense_unchanged (mode : string) (size : Z * Z)
    (duration : Z) (mask_map : gmap Z Image) :
  (∀ i, 0 ≤ i < duration → is_Some (mask_map !! i)) →
  forward_fill mode size duration mask_map = mask_map.
Proof. apply forward_fill_dense. Qed.

Lemma forward_fill_dense_unchanged_witness :
  forward_fill "L" (1, 1) 2
    {[ 0 := MkImage "L" (1, 1) [255]; 1 := MkImage "L" (1, 1) [7] ]}
  = {[ 0 := MkImage "L" (1, 1) [255]; 1 := MkImage "L" (1, 1) [7] ]}.
Proof.
  apply forward_fill_dense_unchanged.
  intros i Hi. assert (i = 0 ∨ i = 1) as [-> | ->] by lia; vm_compute; eauto.
Defined.

Local Close Scope string_scope.

(** ** The per-frame prompt query *)


Lemma scan_keys_spec (keys : list Z) (f kp0 kn0 : Z) :
  StronglySorted Z.lt keys →
  let '(kp, kn) := scan_keys keys f kp0 kn0 in
  ((kp ∈ keys ∧ kp ≤ f ∧ ∀ k, k ∈ keys → k ≤ f → k ≤ kp)
   ∨ ((∀ k, k ∈ keys → f < k) ∧ kp = kp0))
  ∧ ((kn ∈ keys ∧ f < kn ∧ ∀ k, k ∈ keys → f < k → kn ≤ k)
     ∨ ((∀ k, k ∈ keys → k ≤ f) ∧ kn = kn0)).
Proof.
  intros Hs. revert kp0. induction Hs as [|p rest Hs IH Hp]; intros kp0; simpl.
  { split; right; (split; [|done]); intros k Hk; by apply elem_of_nil in Hk. }
  rewrite Forall_forall in Hp.
  destruct (Z.gtb_spec p f) as [Hgt|Hle].
  - split.
    + right. split; [|done]. intros k [->|Hk]%elem_of_cons; [lia|].
      specialize (Hp _ Hk). lia.
    + left. split; [apply elem_of_cons; by left|]. split; [lia|].
      intros k [->|Hk]%elem_of_cons _; [lia|]. specialize (Hp _ Hk). lia.
  - specialize (IH p). destruct (scan_keys rest f p kn0) as [kp kn].
    destruct IH as [Hprev Hnext]. split.
    + left. destruct Hprev as [(Hin & Hkp & Hmax)|[Hall ->]].
      * split; [apply elem_of_cons; by right|]. split; [done|].
        intros k [->|Hk]%elem_of_cons Hkf; [|by apply Hmax].
        specialize (Hp _ Hin). lia.
      * split; [apply elem_of_cons; by left|]. split; [done|].
        intros k [->|Hk]%elem_of_cons Hkf; [lia|]. specialize (Hall _ Hk). lia.
    + destruct Hnext as [(Hin & Hkn & Hmin)|[Hall ->]].
      * left. split; [apply elem_of_cons; by right|]. split; [done|].
        intros k [->|Hk]%elem_of_cons Hkf; [lia|by apply Hmin].
      * right. split; [|done].
        intros k [->|Hk]%elem_of_cons; [done|by apply Hall].
Qed.

Lemma py_index_first {A} (l : list A) (x : A) :
  head l = Some x → py_index l 0 = Ok x.
Proof. destruct l; [done|]. intros [= ->]. done. Qed.

Lemma py_index_last {A} (l : list A) (x : A) :
  last l = Some x → py_index l (-1) = Ok x.
Proof.
  intros Hl. pose proof Hl as Hl'. rewrite last_lookup in Hl'.
  pose proof (lookup_lt_Some _ _ _ Hl') as Hlt.
  unfold py_index, len. simpl.
  destruct (Z.leb_spec 0 (-1 + Z.of_nat (length l))) as [_|?]; [|lia].
  destruct (Z.ltb_spec (-1 + Z.of_nat (length l)) (Z.of_nat (length l))) as [_|?]; [|lia].
  simpl. replace (Z.to_nat (-1 + Z.of_nat (length l))) with (pred (length l)) by lia.
  by rewrite Hl'.
Qed.

Lemma circular_dist_code (duration a b : Z) :
  0 ≤ a < duration → 0 ≤ b < duration →
  (if b - a <? 0 then b - a + duration else b - a) = circular_dist duration a b.
Proof.
  intros Ha Hb. unfold circular_dist.
  destruct (Z.ltb_spec (b - a) 0).
  - rewrite <- (Z_mod_plus_full (b - a) 1 duration), Z.mul_1_l.
    symmetry. apply Z.mod_small. lia.
  - symmetry. apply Z.mod_small. lia.
Qed.

Section get_current_prompt_embeds_properties.
Context {Embeds Float : Type}.
Variable truediv : Z → Z → Float.
Variable tensor_interpolation : Embeds → Embeds → Float → Embeds.

(** C5 — the per-frame query.  For a non-empty, ascending key list whose
    keys lie in [0, duration) and have embeddings, and a frame [f] in
    [0, duration), the query returns; [key_prev] is the greatest key at or
    before [f], or the last key when there is none, [key_next] the smallest
    key after [f], or the first key when there is none; when the two are
    the same key the embedding of that key is returned as it is, otherwise
    the interpolation of the two embeddings at the rate
    dist(key_prev, f) / (dist(key_prev, f) + dist(f, key_next)), the
    distances taken forward on the circle of [duration] frames. *)
Theorem get_current_prompt_embeds_spec (keys : list Z)
    (prompt_embeds_map : gmap Z Embeds) (f duration : Z) :
  keys ≠ [] →
  StronglySorted Z.lt keys →
  Forall (λ k, 0 ≤ k < duration ∧ is_Some (prompt_embeds_map !! k)) keys →
  0 ≤ f < duration →
  ∃ key_prev key_next e_prev e_next,
    is_key_prev keys f key_prev
    ∧ is_key_next keys f key_next
    ∧ prompt_embeds_map !! key_prev = Some e_prev
    ∧ prompt_embeds_map !! key_next = Some e_next
    ∧ get_current_prompt_embeds truediv tensor_interpolation
        keys prompt_embeds_map f duration
      = Ok (if decide (key_prev = key_next) then e_prev
            else tensor_interpolation e_prev e_next
                   (truediv (circular_dist duration key_prev f)
                      (circular_dist duration key_prev f
                       + circular_dist duration f key_next))).
Proof.
  intros Hne Hs Hkeys Hf. rewrite Forall_forall in Hkeys.
  destruct (head keys) as [key_first|] eqn:Hfirst; [|by destruct keys].
  destruct (last keys) as [key_last|] eqn:Hlast;
    [|by apply last_None in Hlast].
  unfold get_current_prompt_embeds.
  rewrite (py_index_first _ _ Hfirst), (py_index_last _ _ Hlast). simpl.
  pose proof (scan_keys_spec keys f key_last key_first Hs) as Hscan.
  destruct (scan_keys keys f key_last key_first) as [key_prev key_next].
  destruct Hscan as [Hprev Hnext].
  assert (key_prev ∈ keys) as Hpin.
  { destruct Hprev as [(? & _)|[_ ->]]; [done|].
    rewrite last_lookup in Hlast. by eapply list_elem_of_lookup_2. }
  assert (key_next ∈ keys) as Hnin.
  { destruct Hnext as [(? & _)|[_ ->]]; [done|].
    destruct keys; [done|]. injection Hfirst as ->. apply elem_of_cons. by left. }
  destruct (Hkeys _ Hpin) as [Hpr [e_prev Hep]].
  destruct (Hkeys _ Hnin) as [Hnr [e_next Hen]].
  exists key_prev, key_next, e_prev, e_next.
  split. { destruct Hprev as [?|[? ->]]; [by left|by right]. }
  split. { destruct Hnext as [?|[? ->]]; [by left|by right]. }
  split; [done|]. split; [done|].
  rewrite (circular_dist_code duration key_prev f) by done.
  rewrite (circular_dist_code duration f key_next) by done.
  unfold cache_getitem. rewrite Hep.
  destruct (Z.eqb_spec key_prev key_next) as [Heq|Hneq]; simpl.
  { by rewrite decide_True. }
  rewrite decide_False by done.
  assert (circular_dist duration key_prev f + circular_dist duration f key_next ≠ 0)
    as Hsum.
  { rewrite <- (circular_dist_code duration key_prev f) by done.
    rewrite <- (circular_dist_code duration f key_next) by done.
    destruct (Z.ltb_spec (f - key_prev) 0);
      destruct (Z.ltb_spec (key_next - f) 0); lia. }
  destruct (Z.eqb_spec (circular_dist duration key_prev f
                        + circular_dist duration f key_next) 0) as [?|_]; [done|].
  by rewrite Hen.
Qed.
End get_current_prompt_embeds_properties.

Lemma get_current_prompt_embeds_spec_witness :
  ∃ key_prev key_next e_prev e_next,
    is_key_prev [0; 8] 2 key_prev
    ∧ is_key_next [0; 8] 2 key_next
    ∧ ({[ 0 := 0%Q; 8 := 16%Q ]} : gmap Z Q) !! key_prev = Some e_prev
    ∧ ({[ 0 := 0%Q; 8 := 16%Q ]} : gmap Z Q) !! key_next = Some e_next
    ∧ get_current_prompt_embeds (λ a b, (inject_Z a / inject_Z b)%Q)
        (λ a b r, (a + (b - a) * r)%Q) [0; 8] {[ 0 := 0%Q; 8 := 16%Q ]} 2 16
      = Ok (if decide (key_prev = key_next) then e_prev
            else (λ a b r, (a + (b - a) * r)%Q) e_prev e_next
                   ((λ a b, (inject_Z a / inject_Z b)%Q)
                      (circular_dist 16 key_prev 2)
                      (circular_dist 16 key_prev 2 + circular_dist 16 2 key_next))).
Proof.
  apply (get_current_prompt_embeds_spec (λ a b, (inject_Z a / inject_Z b)%Q)
           (λ a b r, (a + (b - a) * r)%Q) [0; 8] {[ 0 := 0%Q; 8 := 16%Q ]} 2 16).
  - discriminate.
  - repeat constructor; lia.
  - repeat constructor; try lia; vm_compute; eauto.
  - lia.
Defined.

(** ** The region composer *)


Lemma last_own_ip_map_snoc (l : list ConditionMap) prev c :
  last_own_ip_map l prev →
  last_own_ip_map (l ++ [c]) (remember_ip_map (cm_ip_adapter_map c) prev).
Proof.
  intros Hl. destruct (cm_ip_adapter_map c) as [m|] eqn:Hc; simpl.
  - exists (length l), c. split; [by apply list_lookup_middle|]. split; [done|].
    intros j' c' Hj Hc'. apply lookup_lt_Some in Hc'.
    rewrite length_app in Hc'. simpl in Hc'. lia.
  - destruct prev as [m|]; simpl in *.
    + destruct Hl as (j & c0 & Hj & Hm & Hlater). exists j, c0.
      split; [by apply lookup_app_l_Some|]. split; [done|].
      intros j' c' Hlt Hc'. apply lookup_app_Some in Hc' as [Hc'|[_ Hc']].
      * by eapply Hlater.
      * apply list_lookup_singleton_Some in Hc' as [_ <-]. done.
    + intros c' [Hc'|Hc']%elem_of_app; [by apply Hl|].
      apply list_elem_of_singleton in Hc'. by subst.
Qed.

Lemma compose_region_last_own (duration : Z) (init : bool) st entry :
  last_own_ip_map (region_condi_list st) (prev_ip_map st) →
  last_own_ip_map (region_condi_list (compose_region duration init st entry))
    (prev_ip_map (compose_region duration init st entry)).
Proof.
  intros Hst. destruct entry as [b|r cfg]; simpl; [done|].
  destruct (r_enable cfg); simpl; [|done].
  destruct (mask_preprocess _ _); [|done].
  destruct (r_is_init_img cfg); simpl.
  - by destruct init.
  - by apply (last_own_ip_map_snoc _ _ (MkConditionMap _ _)).
Qed.

Lemma region_collect_last_own (mc : ModelConfig) (duration : Z) (init : bool) :
  let st := region_collect mc duration init in
  last_own_ip_map (region_condi_list st) (prev_ip_map st).
Proof.
  unfold region_collect.
  assert (last_own_ip_map
            (region_condi_list (compose_background mc duration init))
            (prev_ip_map (compose_background mc duration init))) as Hbg.
  { unfold compose_background. destruct (is_bg_init_img mc init); simpl.
    - intros c Hc. by apply elem_of_nil in Hc.
    - apply (last_own_ip_map_snoc [] None (MkConditionMap _ _)).
      intros c Hc. by apply elem_of_nil in Hc. }
  revert Hbg. generalize (compose_background mc duration init).
  induction (region_map mc) as [|entry entries IH]; intros st Hst; [done|].
  simpl. apply IH. by apply compose_region_last_own.
Qed.

Lemma region_collect_bundle_of_prev (mc : ModelConfig) (duration : Z) (init : bool) :
  is_Some (prev_ip_map (region_collect mc duration init)) →
  region_condi_list (region_collect mc duration init) ≠ [].
Proof.
  intros [m Hm] Hnil.
  pose proof (region_collect_last_own mc duration init) as Hl. simpl in Hl.
  rewrite Hm, Hnil in Hl. destruct Hl as (j & c & Hj & _). done.
Qed.

Lemma region_collect_no_bundle (mc : ModelConfig) (duration : Z) (init : bool) :
  is_bg_init_img mc init = true →
  Forall (contributes_no_bundle duration) (region_map mc) →
  region_condi_list (region_collect mc duration init) = []
  ∧ prev_ip_map (region_collect mc duration init) = None.
Proof.
  intros Hbg Hnone. unfold region_collect, compose_background. rewrite Hbg. simpl.
  generalize [MkRegionItem None (-1)].
  induction Hnone as [|entry entries Hentry _ IH]; intros rl; [done|].
  simpl. destruct entry as [b|r cfg]; simpl; [by apply IH|].
  simpl in Hentry.
  destruct (r_enable cfg); simpl; [|by apply IH].
  destruct (mask_preprocess _ _) as [mask_map|]; [|by apply IH].
  destruct (r_is_init_img cfg); simpl.
  - destruct init; simpl; by apply IH.
  - by destruct Hentry as [?|[?|?]].
Qed.

(** When the composer raises the "no valid region" error. *)
Lemma region_preprocess_ValueError (mc : ModelConfig) (duration : Z) (init : bool) :
  region_preprocess mc duration init = Raise ValueError
  ↔ region_condi_list (region_collect mc duration init) = [].
Proof.
  pose proof (region_collect_bundle_of_prev mc duration init) as Hprev.
  unfold region_preprocess.
  destruct (prev_ip_map (region_collect mc duration init)) as [prev|]; simpl.
  - specialize (Hprev ltac:(eauto)).
    destruct (ip_adapter_map mc) as [top|]; simpl; [|done].
    case_bool_decide as Hnil; [|done].
    apply fmap_nil_inv in Hnil. done.
  - case_bool_decide; by split.
Qed.

(** C7 — adapter fallback.  When the composer collects at least one bundle
    and a top-level adapter configuration exists whenever some source has an
    adapter map, it returns; a bundle that has an adapter map of its own
    keeps it, every other bundle (the background's too) gets [prev_ip_map],
    which is the adapter map of the last source, in the order background,
    then regions, that has one of its own, not of the first; the shared
    adapter configuration is read from the top-level [ip_adapter_map]
    (its [scale], [is_plus], and [is_plus_face] and [is_light] with default
    false) whichever source the fallback came from, and is [None] when no
    source has an adapter map. *)
Theorem region_preprocess_ip_fallback (mc : ModelConfig) (duration : Z)
    (init : bool) :
  let st := region_collect mc duration init in
  region_condi_list st ≠ [] →
  (is_Some (prev_ip_map st) → is_Some (ip_adapter_map mc)) →
  ∃ condi shared,
    region_preprocess mc duration init = Ok (condi, region_list st, shared)
    ∧ last_own_ip_map (region_condi_list st) (prev_ip_map st)
    ∧ condi
      = (λ c, MkConditionMap (cm_prompt_map c)
                (match cm_ip_adapter_map c with
                 | Some m => Some m
                 | None => prev_ip_map st
                 end)) <$> region_condi_list st
    ∧ shared
      = match prev_ip_map st with
        | None => None
        | Some _ =>
            (λ top, MkIpAdapterShared (ip_scale top) (ip_is_plus top)
                      (default false (ip_is_plus_face top))
                      (default false (ip_is_light top)))
              <$> ip_adapter_map mc
        end.
Proof.
  intros st Hne Htop.
  pose proof (region_collect_last_own mc duration init) as Hlast. simpl in Hlast.
  unfold region_preprocess. fold st in Hlast |- *.
  destruct (prev_ip_map st) as [prev|] eqn:Hprev.
  - destruct (Htop ltac:(eauto)) as [top Htopcfg]. rewrite Htopcfg. simpl.
    case_bool_decide as Hnil; [by apply fmap_nil_inv in Hnil|].
    eexists _, _. split; [done|]. split; [done|]. split; [|done].
    apply list_fmap_ext. intros _ c _. unfold fill_ip_map.
    by destruct c as [pm [m|]].
  - simpl. case_bool_decide; [done|].
    eexists _, _. split; [done|]. split; [done|]. split; [|done].
    rewrite <- (list_fmap_id (region_condi_list st)) at 1.
    apply list_fmap_ext. intros _ c _. by destruct c as [pm [m|]].
Qed.

Lemma region_preprocess_ip_fallback_witness :
  ∃ condi shared,
    region_preprocess fallback_example 1 false
    = Ok (condi, region_list (region_collect fallback_example 1 false), shared)
    ∧ cm_ip_adapter_map <$> condi
      = [ Some {[ 0 := example_image 2 ]}; Some {[ 0 := example_image 1 ]};
          Some {[ 0 := example_image 2 ]}; Some {[ 0 := example_image 2 ]} ]
    ∧ shared = Some (MkIpAdapterShared (7 # 10) false false false).
Proof.
  destruct (region_preprocess_ip_fallback fallback_example 1 false)
    as (condi & shared & Hrun & _ & Hcondi & Hshared).
  - vm_compute. discriminate.
  - intros _. vm_compute. eauto.
  - exists condi, shared. split; [exact Hrun|].
    rewrite Hcondi, Hshared. split; vm_compute; reflexivity.
Defined.

(** The claim fails on [fallback_example]: the first source with an adapter
    map is region 1, yet the bundles without one (the background's and
    region 3's) get the map of region 2, the last one; and the shared scale
    is that of the switched-off top-level configuration, not the scale of
    region 1 or of region 2. *)
Lemma region_fallback_is_last_source :
  ∃ condi regions shared,
    region_preprocess fallback_example 1 false = Ok (condi, regions, Some shared)
    ∧ cm_ip_adapter_map <$> condi
      = [ Some {[ 0 := example_image 2 ]}; Some {[ 0 := example_image 1 ]};
          Some {[ 0 := example_image 2 ]}; Some {[ 0 := example_image 2 ]} ]
    ∧ ({[ 0 := example_image 1 ]} : gmap Z Image) ≠ {[ 0 := example_image 2 ]}
    ∧ scale shared = (7 # 10)%Q
    ∧ ¬ (scale shared == 3 # 10)%Q
    ∧ ¬ (scale shared == 5 # 10)%Q.
Proof.
  eexists _, _, _. split; [vm_compute; reflexivity|].
  split; [vm_compute; reflexivity|]. split.
  - intros Heq. assert (({[ 0 := example_image 1 ]} : gmap Z Image) !! 0
                        = Some (example_image 2)) as H0 by (by rewrite Heq).
    vm_compute in H0. discriminate.
  - split; [reflexivity|]. split; vm_compute; discriminate.
Qed.

(** C8 — the composer without a usable region.  When an initial image
    exists, the background is flagged to reuse it and no entry of
    [region_map] adds a bundle (the region is switched off, has no mask, or
    reuses the initial image itself), the composer raises the validation
    error; and whenever the bundle list it collects is not empty it does not
    raise that error. *)
Theorem region_preprocess_no_region (mc : ModelConfig) (duration : Z)
    (init : bool) :
  (init = true →
   background_is_init_img (region_map mc) = Some true →
   Forall (contributes_no_bundle duration) (region_map mc) →
   region_preprocess mc duration init = Raise ValueError)
  ∧ (region_condi_list (region_collect mc duration init) ≠ [] →
     region_preprocess mc duration init ≠ Raise ValueError).
Proof.
  split.
  - intros -> Hbg Hnone. apply region_preprocess_ValueError.
    apply region_collect_no_bundle; [|done].
    unfold is_bg_init_img. by rewrite Hbg.
  - intros Hne Hraise. by apply region_preprocess_ValueError in Hraise.
Qed.

Lemma region_preprocess_no_region_witness :
  region_preprocess no_region_example 1 true = Raise ValueError
  ∧ region_preprocess fallback_example 1 false ≠ Raise ValueError.
Proof.
  split.
  - apply (proj1 (region_preprocess_no_region no_region_example 1 true)).
    + reflexivity.
    + reflexivity.
    + repeat constructor.
  - apply (proj2 (region_preprocess_no_region fallback_example 1 false)).
    vm_compute. discriminate.
Defined.

(** ** More on the window segmenter *)

Section segment_dict_more.
Context {K V : Type} `{EqDecision K}.
Implicit Types d : PyDict.dict K V.

Lemma for_each_never_raises {A S} (body : S → A → result S) (e : exn) :
  (∀ s x, body s x ≠ Raise e) → ∀ s l, for_each body s l ≠ Raise e.
Proof.
  intros Hbody s l. revert s. induction l as [|x l IH]; intros s; simpl; [done|].
  destruct (body s x) as [s'|e'] eqn:Hb; simpl; [apply IH|].
  intros [= ->]. by apply (Hbody s x).
Qed.

Lemma segment_body_no_ValueError (keys : list K) d prev acc i :
  segment_body keys d prev acc i ≠ Raise ValueError.
Proof.
  unfold segment_body, py_index, PyDict.getitem. destruct acc as [seg ov].
  destruct ((0 <=? _) && _); [|done].
  destruct (keys !! _) as [k|]; [|done]. simpl.
  by destruct (PyDict.get k d).
Qed.

Lemma segment_loop_no_ValueError (fuel : nat) (keys : list K) d
    (segment_size overlap start : Z) prev segs ovs :
  segment_loop fuel keys d segment_size overlap start prev segs ovs
  ≠ Some (Raise ValueError).
Proof.
  revert start prev segs ovs.
  induction fuel as [|fuel IH]; intros start prev segs ovs; [done|]. simpl.
  destruct (negb _); [done|].
  destruct (for_each _ _ _) as [[seg ov]|e] eqn:Hfor.
  - destruct (_ >=? _); [done|]. apply IH.
  - intros [= ->]. revert Hfor. apply for_each_never_raises.
    intros. apply segment_body_no_ValueError.
Qed.

(** X1 — the segmenter's validation error.  Whatever the fuel and the
    overlap, [segment_dict] raises ValueError exactly when the dictionary has
    fewer keys than [segment_size]; nothing inside the loop raises it. *)
Theorem segment_dict_ValueError (fuel : nat) d (segment_size overlap : Z) :
  segment_dict fuel d segment_size overlap = Some (Raise ValueError)
  ↔ len (PyDict.keys d) < segment_size.
Proof.
  unfold segment_dict.
  destruct (Z.ltb_spec (len (PyDict.keys d)) segment_size) as [Hlt|Hge].
  { by split. }
  split; [|lia]. destruct (_ =? _); [done|].
  intros Hrun. by apply segment_loop_no_ValueError in Hrun.
Qed.
End segment_dict_more.

Section segment_dict_shape.
Context {K V : Type} `{EqDecision K}.
Implicit Types d : PyDict.dict K V.

(** The loop when windows [0 .. i-1] are built and window [i-1] did not
    reach the end. *)
Lemma segment_loop_windows (fuel : nat) d (w o i : nat) :
  PyDict.wf d → (o < w)%nat → (1 ≤ i)%nat →
  ((i - 1) * (w - o) + w < length d)%nat →
  (length d - ((i - 1) * (w - o) + w) ≤ fuel)%nat →
  ∃ m : nat,
    (i < m)%nat
    ∧ ((m - 2) * (w - o) + w < length d ≤ (m - 1) * (w - o) + w)%nat
    ∧ segment_loop fuel (PyDict.keys d) d (Z.of_nat w) (Z.of_nat o)
        (Z.of_nat ((i - 1) * (w - o)) + Z.of_nat w - Z.of_nat o)
        (take w (drop ((i - 1) * (w - o)) (PyDict.keys d)))
        (window_at d w o <$> seq 0 i) (overlap_at d w o <$> seq 0 i)
      = Some (Ok (window_at d w o <$> seq 0 m, overlap_at d w o <$> seq 0 m)).
Proof.
  intros Hwf How. revert i.
  induction fuel as [|fuel IH]; intros i Hi Hp Hfuel; [lia|].
  assert (length (PyDict.keys d) = length d) as Hklen
    by (unfold PyDict.keys; apply length_fmap).
  set (p := ((i - 1) * (w - o))%nat) in *.
  assert (i * (w - o) = p + (w - o))%nat as Hip.
  { unfold p. destruct i as [|i]; [lia|]. simpl. lia. }
  simpl. unfold len. rewrite Hklen.
  destruct (Z.ltb_spec (Z.of_nat p + Z.of_nat w - Z.of_nat o) (Z.of_nat (length d)))
    as [_|?]; [simpl|lia].
  set (s := window_start (length d) w o i).
  assert (s = Nat.min (p + w - o) (length d - w)) as Hs.
  { unfold s, window_start. rewrite Hip. lia. }
  assert ((if Z.of_nat (length d) - (Z.of_nat p + Z.of_nat w - Z.of_nat o) <? Z.of_nat w
           then Z.of_nat (length d) - Z.of_nat w
           else Z.of_nat p + Z.of_nat w - Z.of_nat o) = Z.of_nat s) as ->.
  { destruct (Z.ltb_spec (Z.of_nat (length d) - (Z.of_nat p + Z.of_nat w - Z.of_nat o))
                (Z.of_nat w)); lia. }
  rewrite py_range_nat, segment_window by (done || lia).
  rewrite overlap_is_prefix by (done || lia).
  rewrite <- (Nat2Z.inj_add s w), py_slice_nat by lia.
  replace (s + w - s)%nat with w by lia.
  assert (window_start (length d) w o (i - 1) = p) as Hprev.
  { unfold window_start. fold p. lia. }
  assert ((window_at d w o <$> seq 0 i) ++ [take w (drop s d)]
          = window_at d w o <$> seq 0 (S i)) as Esegs.
  { by rewrite seq_S, fmap_app. }
  assert ((overlap_at d w o <$> seq 0 i) ++ [take (p + w - s) (drop s (PyDict.keys d))]
          = overlap_at d w o <$> seq 0 (S i)) as Eovs.
  { rewrite seq_S, fmap_app. simpl. f_equal.
    destruct i as [|j]; [lia|]. simpl in Hprev |- *.
    rewrite Nat.sub_0_r in Hprev. rewrite Hprev. done. }
  destruct (Z.geb_spec (Z.of_nat (s + w)) (Z.of_nat (length d))) as [Hend|Hmore].
  - exists (S i). split; [lia|]. split.
    + replace (S i - 2)%nat with (i - 1)%nat by lia.
      replace (S i - 1)%nat with i by lia. fold p. lia.
    + do 2 f_equal. by f_equal.
  - assert (s = (i * (w - o))%nat) as Hsi by lia.
    destruct (IH (S i)) as (m & Hm & Hbounds & Hrun).
    + lia.
    + replace (S i - 1)%nat with i by lia. lia.
    + replace (S i - 1)%nat with i by lia. lia.
    + exists m. split; [lia|]. split; [done|].
      etrans; [|exact Hrun]. replace (S i - 1)%nat with i by lia.
      rewrite <- Hsi. f_equal; [lia|exact Esegs|exact Eovs].
Qed.

(** The segmenter on a dictionary longer than the window: its windows and
    overlap lists, one by one. *)
Lemma segment_dict_shape (fuel : nat) d (w o : nat) :
  PyDict.wf d → (o < w)%nat → (w < length d)%nat →
  (length d - w < fuel)%nat →
  ∃ m : nat,
    (2 ≤ m)%nat
    ∧ ((m - 2) * (w - o) + w < length d ≤ (m - 1) * (w - o) + w)%nat
    ∧ segment_dict fuel d (Z.of_nat w) (Z.of_nat o)
      = Some (Ok (window_at d w o <$> seq 0 m, overlap_at d w o <$> seq 0 m)).
Proof.
  intros Hwf How Hw Hfuel.
  assert (length (PyDict.keys d) = length d) as Hklen
    by (unfold PyDict.keys; apply length_fmap).
  unfold segment_dict, len. rewrite Hklen.
  destruct (Z.ltb_spec (Z.of_nat (length d)) (Z.of_nat w)) as [?|_]; [lia|].
  destruct (Z.eqb_spec (Z.of_nat (length d)) (Z.of_nat w)) as [?|_]; [lia|].
  destruct fuel as [|fuel]; [lia|].
  simpl. unfold len. rewrite Hklen.
  destruct (Z.ltb_spec 0 (Z.of_nat (length d))) as [_|?]; [simpl|lia].
  destruct (Z.ltb_spec (Z.of_nat (length d) - 0) (Z.of_nat w)) as [?|_]; [lia|].
  change 0 with (Z.of_nat 0).
  rewrite <- (Nat2Z.inj_add 0 w), py_slice_nat by (simpl; lia).
  rewrite (Nat2Z.inj_add 0 w), py_range_nat, segment_window by (done || simpl; lia).
  rewrite filter_none by (apply Forall_forall; intros ? _; apply not_elem_of_nil).
  simpl. rewrite !drop_0, Nat.sub_0_r.
  destruct (Z.geb_spec (Z.of_nat 0 + Z.of_nat w) (Z.of_nat (length d)))
    as [?|_]; [lia|].
  destruct (segment_loop_windows fuel d w o 1) as (m & Hm & Hbounds & Hrun);
    [done|done|lia|simpl; lia|simpl; lia|].
  exists m. split; [lia|]. split; [done|].
  rewrite <- Hrun. reflexivity.
Qed.
End segment_dict_shape.

Section segment_dict_extras.
Context {K V : Type} `{EqDecision K}.
Implicit Types d : PyDict.dict K V.

Lemma length_overlap_at d (w o m j : nat) :
  (o < w)%nat →
  ((m - 2) * (w - o) + w < length d ≤ (m - 1) * (w - o) + w)%nat →
  (S j < m)%nat →
  (o ≤ length (overlap_at d w o (S j)) < w)%nat
  ∧ ((S (S j) < m)%nat → length (overlap_at d w o (S j)) = o).
Proof.
  intros How [Hlo Hhi] Hj.
  assert (length (PyDict.keys d) = length d) as Hklen
    by (unfold PyDict.keys; apply length_fmap).
  assert (j * (w - o) ≤ (m - 2) * (w - o))%nat as Hjm
    by (apply Nat.mul_le_mono_r; lia).
  assert (S j * (w - o) = j * (w - o) + (w - o))%nat as HS by (simpl; lia).
  unfold overlap_at, window_start. rewrite length_take, length_drop, Hklen, HS.
  split; [lia|]. intros Hjj.
  assert (S j * (w - o) ≤ (m - 2) * (w - o))%nat as Hjm'
    by (apply Nat.mul_le_mono_r; lia).
  lia.
Qed.

(** X2 — the windows of the segmenter.  For N > segment_size > overlap ≥ 0
    the segmenter returns m ≥ 2 windows and as many overlap lists, where m is
    the least number with (m-1)·(segment_size − overlap) + segment_size ≥ N;
    window i is the run of segment_size consecutive items of the dictionary,
    keys and values, that starts at min(i·(segment_size − overlap),
    N − segment_size). *)
Theorem segment_dict_windows d (segment_size overlap : Z) :
  PyDict.wf d →
  0 ≤ overlap < segment_size →
  segment_size < len (PyDict.keys d) →
  ∃ segments overlaps,
    segment_dict (length d) d segment_size overlap = Some (Ok (segments, overlaps))
    ∧ length overlaps = length segments
    ∧ (2 ≤ length segments)%nat
    ∧ (len segments - 2) * (segment_size - overlap) + segment_size
      < len (PyDict.keys d)
      ≤ (len segments - 1) * (segment_size - overlap) + segment_size
    ∧ ∀ (i : nat) seg, segments !! i = Some seg →
        seg = take (Z.to_nat segment_size)
                (drop (Z.to_nat (Z.min (Z.of_nat i * (segment_size - overlap))
                                   (len (PyDict.keys d) - segment_size))) d).
Proof.
  intros Hwf Ho Hn.
  assert (length (PyDict.keys d) = length d) as Hklen
    by (unfold PyDict.keys; apply length_fmap).
  unfold len in *. rewrite Hklen in *.
  destruct (segment_dict_shape (length d) d (Z.to_nat segment_size) (Z.to_nat overlap))
    as (m & Hm & Hbounds & Hrun); [done|lia|lia|lia|].
  rewrite !Z2Nat.id in Hrun by lia.
  eexists _, _. split; [exact Hrun|].
  rewrite !length_fmap, !length_seq. split; [done|]. split; [done|]. split.
  - nia.
  - intros i seg Hi. apply list_lookup_fmap_Some in Hi as (i' & -> & Hi').
    apply lookup_seq in Hi' as [-> _]. simpl.
    unfold window_at, window_start. do 2 f_equal. nia.
Qed.

(** X3 — the sizes of the overlap lists.  Under the same precondition the
    overlap list of window 0 is empty; that of every later window has at
    least [overlap] and fewer than [segment_size] keys, and exactly
    [overlap] keys unless the window is the last one (which is pulled back
    and so shares more, never fewer). *)
Theorem segment_dict_overlap_sizes d (segment_size overlap : Z) :
  PyDict.wf d →
  0 ≤ overlap < segment_size →
  segment_size < len (PyDict.keys d) →
  ∃ segments overlaps,
    segment_dict (length d) d segment_size overlap = Some (Ok (segments, overlaps))
    ∧ overlaps !! 0%nat = Some []
    ∧ ∀ (i : nat) ov, overlaps !! S i = Some ov →
        overlap ≤ len ov < segment_size
        ∧ ((S (S i) < length overlaps)%nat → len ov = overlap).
Proof.
  intros Hwf Ho Hn.
  assert (length (PyDict.keys d) = length d) as Hklen
    by (unfold PyDict.keys; apply length_fmap).
  unfold len in Hn. rewrite Hklen in Hn.
  destruct (segment_dict_shape (length d) d (Z.to_nat segment_size) (Z.to_nat overlap))
    as (m & Hm & Hbounds & Hrun); [done|lia|lia|lia|].
  rewrite !Z2Nat.id in Hrun by lia.
  eexists _, _. split; [exact Hrun|]. split.
  - destruct m; [lia|]. done.
  - intros i ov Hi. apply list_lookup_fmap_Some in Hi as (i' & -> & Hi').
    apply lookup_seq in Hi' as [-> Him]. simpl in Him.
    change (0 + S i)%nat with (S i).
    rewrite length_fmap, length_seq.
    destruct (length_overlap_at d (Z.to_nat segment_size) (Z.to_nat overlap) m i)
      as [Hrange Hexact]; [lia|done|done|].
    unfold len. split; [lia|]. intros Hlast. specialize (Hexact Hlast). lia.
Qed.

Lemma segment_loop_no_progress (fuel : nat) d (w : nat) prev segs ovs :
  PyDict.wf d → (w < length d)%nat →
  segment_loop fuel (PyDict.keys d) d (Z.of_nat w) (Z.of_nat w) 0 prev segs ovs
  = None.
Proof.
  intros Hwf Hw. revert prev segs ovs.
  induction fuel as [|fuel IH]; intros prev segs ovs; [done|].
  assert (length (PyDict.keys d) = length d) as Hklen
    by (unfold PyDict.keys; apply length_fmap).
  simpl. unfold len. rewrite Hklen.
  destruct (Z.ltb_spec 0 (Z.of_nat (length d))) as [_|?]; [simpl|lia].
  destruct (Z.ltb_spec (Z.of_nat (length d) - 0) (Z.of_nat w)) as [?|_]; [lia|].
  change 0 with (Z.of_nat 0) at 1 2.
  rewrite py_range_nat, segment_window by (done || simpl; lia).
  destruct (Z.geb_spec (0 + Z.of_nat w) (Z.of_nat (length d))) as [?|_]; [lia|].
  replace (0 + Z.of_nat w - Z.of_nat w) with 0 by lia.
  apply IH.
Qed.

(** X4 — no progress when the overlap is the window size.  On a dictionary
    with more keys than [segment_size ≥ 0] and [overlap = segment_size] the
    start pointer stays at 0 and the break is never reached: with no amount
    of fuel does [segment_dict] return or raise. *)
Theorem segment_dict_overlap_eq_size_diverges d (segment_size : Z) :
  PyDict.wf d →
  0 ≤ segment_size < len (PyDict.keys d) →
  ∀ fuel : nat, segment_dict fuel d segment_size segment_size = None.
Proof.
  intros Hwf Hn fuel.
  assert (length (PyDict.keys d) = length d) as Hklen
    by (unfold PyDict.keys; apply length_fmap).
  unfold len in Hn. rewrite Hklen in Hn.
  unfold segment_dict, len. rewrite Hklen.
  destruct (Z.ltb_spec (Z.of_nat (length d)) segment_size) as [?|_]; [lia|].
  destruct (Z.eqb_spec (Z.of_nat (length d)) segment_size) as [?|_]; [lia|].
  rewrite <- (Z2Nat.id segment_size) by lia.
  apply segment_loop_no_progress; [done|lia].
Qed.

(** X5 — the windows of [run_inference].  The overlap is the literal 15:
    with [context_frames = 16] a map of N > 16 frames is cut into N − 15
    windows, each one frame further than the one before and sharing its
    first 15 keys with it; with [context_frames = 15] and more than 15
    frames the segmenter never returns. *)
Theorem run_inference_windows_slide_by_one d :
  PyDict.wf d →
  (16 < len (PyDict.keys d) →
   ∃ segments overlaps,
     run_inference_windows (length d) d 16 = Some (Ok (segments, overlaps))
     ∧ len segments = len (PyDict.keys d) - 15
     ∧ (∀ (i : nat) seg, segments !! i = Some seg → seg = take 16 (drop i d))
     ∧ ∀ (i : nat) ov, overlaps !! S i = Some ov →
         ov = take 15 (drop (S i) (PyDict.keys d)))
  ∧ (15 < len (PyDict.keys d) →
     ∀ fuel : nat, run_inference_windows fuel d 15 = None).
Proof.
  intros Hwf.
  assert (length (PyDict.keys d) = length d) as Hklen
    by (unfold PyDict.keys; apply length_fmap).
  unfold len. rewrite Hklen. split.
  - intros Hn.
    destruct (segment_dict_shape (length d) d 16 15)
      as (m & Hm & Hbounds & Hrun); [done|lia|lia|lia|].
    eexists _, _. split; [exact Hrun|].
    rewrite !length_fmap, !length_seq. split; [lia|]. split.
    + intros i seg Hi. apply list_lookup_fmap_Some in Hi as (i' & -> & Hi').
      apply lookup_seq in Hi' as [-> Him]. simpl in Him.
      unfold window_at, window_start. do 2 f_equal. lia.
    + intros i ov Hi. apply list_lookup_fmap_Some in Hi as (i' & -> & Hi').
      apply lookup_seq in Hi' as [-> Him]. simpl in Him.
      change (0 + S i)%nat with (S i).
      unfold overlap_at, window_start.
      replace (Nat.min (S i * (16 - 15)) (length d - 16)) with (S i) by lia.
      replace (Nat.min (i * (16 - 15)) (length d - 16)) with i by lia.
      f_equal. lia.
  - intros Hn fuel. unfold run_inference_windows.
    unfold segment_dict, len. rewrite Hklen.
    destruct (Z.ltb_spec (Z.of_nat (length d)) 15) as [?|_]; [lia|].
    destruct (Z.eqb_spec (Z.of_nat (length d)) 15) as [?|_]; [lia|].
    apply (segment_loop_no_progress fuel d 15); [done|lia].
Qed.
End segment_dict_extras.

Lemma segment_dict_windows_witness :
  ∃ segments overlaps,
    segment_dict 5 [(0, 10); (1, 11); (2, 12); (3, 13); (4, 14)] 3 1
    = Some (Ok (segments, overlaps))
    ∧ segments = [ [(0, 10); (1, 11); (2, 12)]; [(2, 12); (3, 13); (4, 14)] ].
Proof.
  destruct (segment_dict_windows [(0, 10); (1, 11); (2, 12); (3, 13); (4, 14)] 3 1)
    as (segments & overlaps & Hrun & _).
  - apply (bool_decide_unpack (NoDup [0; 1; 2; 3; 4])). vm_compute. exact I.
  - lia.
  - unfold len. simpl. lia.
  - exists segments, overlaps. split; [exact Hrun|].
    vm_compute in Hrun. injection Hrun as <- _. reflexivity.
Defined.

Lemma segment_dict_overlap_sizes_witness :
  ∃ segments overlaps,
    segment_dict 6 [(0, 10); (1, 11); (2, 12); (3, 13); (4, 14); (5, 15)] 3 1
    = Some (Ok (segments, overlaps))
    ∧ overlaps = [ []; [2]; [3; 4] ].
Proof.
  destruct (segment_dict_overlap_sizes
              [(0, 10); (1, 11); (2, 12); (3, 13); (4, 14); (5, 15)] 3 1)
    as (segments & overlaps & Hrun & _).
  - apply (bool_decide_unpack (NoDup [0; 1; 2; 3; 4; 5])). vm_compute. exact I.
  - lia.
  - unfold len. simpl. lia.
  - exists segments, overlaps. split; [exact Hrun|].
    vm_compute in Hrun. injection Hrun as _ <-. reflexivity.
Defined.

Lemma segment_dict_overlap_eq_size_diverges_witness :
  segment_dict 1000 [(0, 10); (1, 11); (2, 12)] 2 2 = None.
Proof.
  apply (segment_dict_overlap_eq_size_diverges [(0, 10); (1, 11); (2, 12)] 2).
  - apply (bool_decide_unpack (NoDup [0; 1; 2])). vm_compute. exact I.
  - unfold len. simpl. lia.
Defined.

Lemma run_inference_windows_slide_by_one_witness :
  ∃ segments overlaps,
    run_inference_windows 18 (zip (seqZ 0 18) (seqZ 100 18)) 16
    = Some (Ok (segments, overlaps))
    ∧ len segments = 3.
Proof.
  destruct (proj1 (run_inference_windows_slide_by_one
                     (zip (seqZ 0 18) (seqZ 100 18))
                     ltac:(apply (bool_decide_unpack _); vm_compute; exact I)))
    as (segments & overlaps & Hrun & Hlen & _).
  - vm_compute. reflexivity.
  - exists segments, overlaps. split; [exact Hrun|]. rewrite Hlen. reflexivity.
Defined.

(** ** More on the latent continuity callback *)

Section example_callback_more.
Context {K Slice : Type}.
Implicit Types st : callback_state Slice.

Lemma cached_after_record st (idx iteration idx' iteration' : Z) (latents : addr)
    (h : addr → list Slice) :
  cached (CallbackState h
            (<[idx := <[iteration := latents]> (default ∅ (latents_cache st !! idx))]>
               (latents_cache st))) idx' iteration'
  = if decide (idx' = idx ∧ iteration' = iteration) then Some latents
    else cached st idx' iteration'.
Proof.
  unfold cached. simpl.
  destruct (decide (idx' = idx)) as [->|Hidx].
  - rewrite lookup_insert_eq. simpl.
    destruct (decide (iteration' = iteration)) as [->|Hit].
    + rewrite lookup_insert_eq. by rewrite decide_True.
    + rewrite lookup_insert_ne by done. rewrite decide_False by tauto.
      by destruct (latents_cache st !! idx).
  - rewrite lookup_insert_ne by done. rewrite decide_False by tauto. done.
Qed.

(** X6 — what the callback records.  Whenever the callback returns, the
    cache holds the buffer it was given under its window index and
    iteration, and every other cache entry is as before.  For a window index
    ≤ 0 it always returns and changes no buffer. *)
Theorem example_callback_records (overlaps : list (list K))
    (idx iteration : Z) (latents : addr) st :
  (∀ st', example_callback overlaps idx iteration latents st = Ok st' →
     cached st' idx iteration = Some latents
     ∧ ∀ idx' iteration', ¬ (idx' = idx ∧ iteration' = iteration) →
         cached st' idx' iteration' = cached st idx' iteration')
  ∧ (idx ≤ 0 →
     ∃ st', example_callback overlaps idx iteration latents st = Ok st'
            ∧ heap st' = heap st).
Proof.
  split.
  - intros st' Hrun. unfold example_callback in Hrun.
    assert (∃ h, st' = CallbackState h
              (<[idx := <[iteration := latents]> (default ∅ (latents_cache st !! idx))]>
                 (latents_cache st))) as [h ->].
    { destruct (idx >? 0).
      - destruct (py_index overlaps idx) as [ov|]; [|done]. simpl in Hrun.
        destruct (for_each _ _ _) as [h|]; [|done]. simpl in Hrun.
        injection Hrun as <-. eauto.
      - injection Hrun as <-. eauto. }
    split.
    + rewrite cached_after_record. by rewrite decide_True.
    + intros idx' iteration' Hne. rewrite cached_after_record.
      by rewrite decide_False.
  - intros Hidx. unfold example_callback.
    destruct (Z.gtb_spec idx 0) as [?|_]; [lia|]. eauto.
Qed.

(** X7 — the callback's failures for a window index > 0.  An index with no
    overlap list raises IndexError; an empty overlap list copies nothing,
    whatever the cache holds; a non-empty overlap list without a cached
    buffer of the previous window for this iteration raises KeyError. *)
Theorem example_callback_failures (overlaps : list (list K))
    (idx iteration : Z) (latents : addr) st :
  0 < idx →
  (len overlaps ≤ idx →
   example_callback overlaps idx iteration latents st = Raise IndexError)
  ∧ (overlaps !! Z.to_nat idx = Some [] →
     ∃ st', example_callback overlaps idx iteration latents st = Ok st'
            ∧ heap st' = heap st)
  ∧ (∀ k ks, overlaps !! Z.to_nat idx = Some (k :: ks) →
     cached st (idx - 1) iteration = None →
     example_callback overlaps idx iteration latents st = Raise KeyError).
Proof.
  intros Hidx. unfold example_callback.
  destruct (Z.gtb_spec idx 0) as [_|?]; [|lia]. split; [|split].
  - intros Hlen. unfold py_index.
    destruct (Z.ltb_spec idx 0) as [?|_]; [lia|].
    destruct (Z.ltb_spec idx (len overlaps)) as [?|_]; [lia|].
    by rewrite andb_false_r.
  - intros Hov.
    assert (py_index overlaps idx = Ok []) as ->.
    { rewrite <- (Z2Nat.id idx) by lia. by apply py_index_nat. }
    simpl. eauto.
  - intros k ks Hov Hnone.
    assert (py_index overlaps idx = Ok (k :: ks)) as ->.
    { rewrite <- (Z2Nat.id idx) by lia. by apply py_index_nat. }
    simpl. unfold len. simpl length. rewrite seqZ_cons by lia. simpl.
    unfold copy_overlap_frame at 1. unfold cache_getitem.
    rewrite lookup_insert_ne by lia.
    unfold cached in Hnone.
    destruct (latents_cache st !! (idx - 1)) as [row|]; [|done].
    simpl in *. by rewrite Hnone.
Qed.

End example_callback_more.

Lemma example_callback_failures_witness :
  example_callback ([[]; [3]] : list (list Z)) 1 7 1%nat
    (CallbackState (λ _, [20; 21; 22; 23]) ∅) = Raise KeyError.
Proof.
  apply (proj2 (proj2 (example_callback_failures ([[]; [3]] : list (list Z)) 1 7 1%nat
                         (CallbackState (λ _, [20; 21; 22; 23]) ∅) ltac:(lia)))
           3 []); reflexivity.
Defined.


Lemma example_callback_records_witness :
  ∃ st',
    example_callback ([[]; [3]] : list (list Z)) 0 7 2%nat
      (CallbackState (λ _, [20; 21; 22; 23]) ∅) = Ok st'
    ∧ cached st' 0 7 = Some 2%nat.
Proof.
  destruct (proj2 (example_callback_records ([[]; [3]] : list (list Z)) 0 7 2%nat
                     (CallbackState (λ _, [20; 21; 22; 23]) ∅)) ltac:(lia))
    as (st' & Hrun & _).
  exists st'. split; [exact Hrun|].
  apply (proj1 (example_callback_records ([[]; [3]] : list (list Z)) 0 7 2%nat
                  (CallbackState (λ _, [20; 21; 22; 23]) ∅)) st' Hrun).
Defined.

(** ** More on the output stitcher *)

Section combine_videos_more.
Context {K Frame : Type}.

Lemma combine_tensors_Ok (overlaps : list (list K)) (acc : video Frame)
    (start : Z) (rest : list (video Frame)) (v : video Frame) :
  0 < start → is_tensor acc →
  for_each (combine_step overlaps) acc (zip (seqZ start (len rest)) rest) = Ok v →
  is_tensor v ∧ Forall is_tensor rest.
Proof.
  revert acc start. induction rest as [|video rest IH]; intros acc start Hs Hacc.
  { simpl. intros [= <-]. by split. }
  unfold len. rewrite length_cons, seqZ_cons by lia.
  replace (Z.pred (Z.of_nat (S (length rest)))) with (len rest) by (unfold len; lia).
  cbn [zip_with for_each combine_step].
  destruct (Z.eqb_spec start 0) as [?|_]; [lia|].
  destruct (py_index overlaps start) as [ov|]; [|done]. cbn [rbind].
  destruct acc as [fa| |]; [|done..].
  destruct video as [fv| |]; [|done..]. cbn [slice_from torch_cat rbind].
  intros Hrun. apply IH in Hrun as [? ?]; [|lia|done].
  split; [done|]. by constructor.
Qed.

(** X11 — the stitcher keeps the representation.  When [combine_videos]
    returns, the result is a tensor if the first output is a tensor and an
    array if the first output is an array; in the tensor case every output
    is a tensor. *)
Theorem combine_videos_representation (videos : list (video Frame))
    (overlaps : list (list K)) (v : video Frame) :
  combine_videos videos overlaps = Ok v →
  ∃ first, videos !! 0%nat = Some first
    ∧ ((is_tensor first ∧ is_tensor v ∧ Forall is_tensor videos)
       ∨ (is_ndarray first ∧ is_ndarray v)).
Proof.
  unfold combine_videos. destruct videos as [|first rest]; [done|].
  change (py_index (first :: rest) 0) with (@Ok (video Frame) first).
  cbn [rbind]. intros Hrun. exists first. split; [done|].
  destruct first as [fs0| |]; [| |done].
  - left. revert Hrun. unfold len. rewrite length_cons, (seqZ_cons 0) by lia.
    replace (Z.pred (Z.of_nat (S (length rest)))) with (len rest) by (unfold len; lia).
    cbn [zip_with for_each combine_step Z.eqb rbind].
    intros Hrun. apply combine_tensors_Ok in Hrun as [? ?]; [|lia|done].
    split; [done|]. split; [done|]. by constructor.
  - right. destruct (np_concatenate _) as [fs|]; [|done].
    simpl in Hrun. injection Hrun as <-. done.
Qed.

(** X10 — the stitcher's failures.  An empty list of outputs raises
    IndexError; a first output that is neither a tensor nor an array raises
    ValueError; in the tensor branch, an output that is not a tensor, after
    tensors only and with overlap lists for all outputs up to it, raises
    TypeError. *)
Theorem combine_videos_failures (overlaps : list (list K)) :
  combine_videos ([] : list (video Frame)) overlaps = Raise IndexError
  ∧ (∀ rest : list (video Frame),
       combine_videos (OtherObject :: rest) overlaps = Raise ValueError)
  ∧ (∀ fs0 fss (v : video Frame) more,
       ¬ is_tensor v →
       (S (length fss) < length overlaps)%nat →
       combine_videos ((Tensor <$> fs0 :: fss) ++ v :: more) overlaps
       = Raise TypeError).
Proof.
  split; [done|]. split; [done|].
  intros fs0 fss v more Hv Hov. unfold combine_videos.
  rewrite fmap_cons, <- app_comm_cons.
  change (py_index (Tensor fs0 :: ?l) 0) with (@Ok (video Frame) (Tensor fs0)).
  cbn [rbind]. unfold len.
  rewrite length_cons, length_app, length_fmap, length_cons.
  rewrite (seqZ_cons 0) by lia.
  replace (Z.succ 0) with 1 by lia.
  replace (Z.pred (Z.of_nat (S (length fss + S (length more)))))
    with (Z.of_nat (length fss) + Z.of_nat (S (length more))) by lia.
  cbn [zip_with for_each combine_step Z.eqb rbind].
  rewrite seqZ_app by lia.
  rewrite zip_with_app by (by rewrite length_seqZ, length_fmap, Nat2Z.id).
  rewrite for_each_app.
  rewrite <- (take_ge fss (length fss)) at 2 by lia.
  rewrite combine_tensors_prefix by lia. cbn [rbind].
  rewrite seqZ_cons by lia. cbn [zip_with for_each combine_step].
  destruct (Z.eqb_spec (1 + Z.of_nat (length fss)) 0) as [?|_]; [lia|].
  destruct (lookup_lt_is_Some_2 overlaps (S (length fss))) as [ov Hovl]; [lia|].
  replace (1 + Z.of_nat (length fss)) with (Z.of_nat (S (length fss))) by lia.
  rewrite (py_index_nat _ _ _ Hovl). cbn [rbind].
  by destruct v.
Qed.
End combine_videos_more.

Lemma combine_videos_representation_witness :
  ∃ first, [Tensor [0; 1]; Tensor [1; 2]] !! 0%nat = Some first
    ∧ ((is_tensor first ∧ is_tensor (Tensor [0; 1; 2])
        ∧ Forall is_tensor [Tensor [0; 1]; Tensor [1; 2]])
       ∨ (is_ndarray first ∧ is_ndarray (Tensor [0; 1; 2]))).
Proof.
  apply (combine_videos_representation [Tensor [0; 1]; Tensor [1; 2]]
           ([[]; [1]] : list (list Z)) (Tensor [0; 1; 2])).
  reflexivity.
Defined.

Lemma combine_videos_failures_witness :
  combine_videos ((Tensor <$> [0; 1] :: []) ++ NdArray [1; 2] :: [])
    ([[]; [1]] : list (list Z)) = Raise TypeError.
Proof.
  apply (proj2 (proj2 (combine_videos_failures ([[]; [1]] : list (list Z))))
           [0; 1] [] (NdArray [1; 2]) []).
  - simpl. tauto.
  - simpl. lia.
Defined.

Lemma combine_videos_tensor_duration_witness :
  ∃ fs, combine_videos (Tensor <$> [[0; 1]; [1; 2]]) ([[]; [1]] : list (list Z))
        = Ok (Tensor fs)
        ∧ len fs = len (PyDict.keys [(0, 0); (1, 1); (2, 2)]).
Proof.
  apply (combine_videos_tensor_duration [(0, 0); (1, 1); (2, 2)] 2 1
           [[(0, 0); (1, 1)]; [(1, 1); (2, 2)]] [[]; [1]] [[0; 1]; [1; 2]]).
  - apply (bool_decide_unpack (NoDup [0; 1; 2])). vm_compute. exact I.
  - lia.
  - unfold len. simpl. lia.
  - vm_compute. reflexivity.
  - repeat constructor.
Defined.

(** ** More on keyframe schedules *)

Section kept_below_properties.
Context {T : Type}.
Implicit Types entries : list (Z * T).

Lemma kept_below_snoc entries (e : Z * T) (duration : Z) :
  kept_below (entries ++ [e]) duration
  = if e.1 <? duration then <[e.1 := e.2]> (kept_below entries duration)
    else kept_below entries duration.
Proof. unfold kept_below. by rewrite foldl_snoc. Qed.

Lemma kept_below_lookup_Some entries (duration k : Z) (v : T) :
  kept_below entries duration !! k = Some v → (k, v) ∈ entries ∧ k < duration.
Proof.
  induction entries as [|[k' v'] entries IH] using rev_ind; [done|].
  rewrite kept_below_snoc. simpl.
  destruct (Z.ltb_spec k' duration) as [Hlt|Hge].
  - destruct (decide (k = k')) as [->|Hne].
    + rewrite lookup_insert_eq. intros [= ->]. split; [|done].
      apply elem_of_app. right. by apply list_elem_of_singleton.
    + rewrite lookup_insert_ne by done. intros [? ?]%IH.
      split; [|done]. apply elem_of_app. by left.
  - intros [? ?]%IH. split; [|done]. apply elem_of_app. by left.
Qed.

Lemma kept_below_lookup_NoDup entries (duration k : Z) (v : T) :
  NoDup entries.*1 → (k, v) ∈ entries → k < duration →
  kept_below entries duration !! k = Some v.
Proof.
  induction entries as [|[k' v'] entries IH] using rev_ind; intros Hnd Hin Hk.
  { by apply elem_of_nil in Hin. }
  rewrite fmap_app in Hnd. apply NoDup_app in Hnd as (Hnd & Hfresh & _).
  rewrite kept_below_snoc. simpl.
  apply elem_of_app in Hin as [Hin|Hin].
  - assert (k ≠ k') as Hne.
    { intros ->. apply (Hfresh k').
      - apply list_elem_of_fmap. by exists (k', v).
      - simpl. by apply list_elem_of_singleton. }
    destruct (k' <? duration); [rewrite lookup_insert_ne by done|]; by apply IH.
  - apply list_elem_of_singleton in Hin. injection Hin as -> ->.
    destruct (Z.ltb_spec k' duration) as [_|?]; [|lia].
    by rewrite lookup_insert_eq.
Qed.

Lemma kept_below_empty entries (duration : Z) :
  kept_below entries duration = ∅ ↔ Forall (λ e, duration ≤ e.1) entries.
Proof.
  induction entries as [|[k' v'] entries IH] using rev_ind.
  { split; [constructor|done]. }
  rewrite kept_below_snoc, Forall_app, Forall_singleton. simpl.
  destruct (Z.ltb_spec k' duration) as [Hlt|Hge].
  - split; [|lia]. intros Hemp.
    assert (<[k' := v']> (kept_below entries duration) !! k' = None) as Hnone
      by (by rewrite Hemp).
    by rewrite lookup_insert_eq in Hnone.
  - rewrite IH. tauto.
Qed.
End kept_below_properties.

Lemma prompt_preprocess_kept (prompt_config_map : list (Z * string))
    (head_prompt tail_prompt : string) (ratio : Q) (video_length : Z) :
  prompt_preprocess prompt_config_map head_prompt tail_prompt ratio video_length
  = insert_hold_keys
      (kept_below (prod_map id (decorated_prompt head_prompt tail_prompt)
                     <$> prompt_config_map) video_length)
      ratio video_length.
Proof.
  unfold prompt_preprocess, kept_below. f_equal.
  generalize (∅ : gmap Z string).
  induction prompt_config_map as [|[k pr] cfg IH]; intros m; [done|].
  rewrite fmap_cons. cbn [foldl]. rewrite IH. done.
Qed.

Section hold_keys_more.
Context {T : Type}.
Implicit Types m : gmap Z T.

Lemma keys_below_sorted_keys m (duration : Z) :
  map_Forall (λ k _, k < duration) m → keys_below m (sorted_keys m) duration.
Proof.
  intros Hbelow. split; [|split].
  - apply StronglySorted_app. split; [|split].
    + intros k d [v Hk]%elem_of_sorted_keys ->%list_elem_of_singleton.
      by apply (Hbelow k v).
    + apply sorted_keys_sorted.
    + repeat constructor.
  - intros k. apply elem_of_sorted_keys.
  - intros k Hk _. by apply elem_of_sorted_keys.
Qed.

(** With frame numbers that are not negative and at most 2^53 frames no
    gap is longer than 2^53 frames. *)
Lemma sorted_keys_gap_bound m (duration : Z) :
  map_Forall (λ k _, 0 ≤ k) m → duration ≤ max_frame →
  ∀ k, k ∈ sorted_keys m → duration - k ≤ max_frame.
Proof.
  intros Hpos Hdur k [v Hk]%elem_of_sorted_keys.
  specialize (Hpos k v Hk). simpl in Hpos. lia.
Qed.

Lemma insert_hold_keys_below m (ratio : Q) (duration : Z) :
  (0 <= ratio)%Q → (ratio <= 1)%Q →
  map_Forall (λ k _, k < duration) m →
  map_Forall (λ k _, 0 ≤ k) m → duration ≤ max_frame →
  map_Forall (λ k _, k < duration) (insert_hold_keys m ratio duration).
Proof.
  intros H0 H1 Hbelow Hpos Hdur k v Hk.
  pose proof (keys_below_sorted_keys m duration Hbelow) as Hkb.
  pose proof (sorted_keys_gap_bound m duration Hpos Hdur) as Hmax.
  destruct (hold_fold_spec ratio m _ duration H0 H1 Hkb Hmax) as (_ & _ & _ & Honly).
  destruct (Honly k) as [[v' Hv']|(k0 & k1 & Hin & -> & _)].
  - unfold insert_hold_keys in Hk. by rewrite Hk.
  - by apply (Hbelow k v').
  - destruct Hkb as (Hs & _ & _).
    destruct (elem_of_key_pairs _ _ _ _ Hs Hin) as [Hk0 Hlt].
    specialize (Hmax k0 Hk0).
    pose proof (hold_key_range ratio k0 k1 H0 H1 (proj1 Hlt) ltac:(lia)). lia.
Qed.

Lemma foldl_id {A B} (f : A → B → A) (a : A) (l : list B) :
  Forall (λ x, f a x = a) l → foldl f a l = a.
Proof. induction 1 as [|x l Hx _ IH]; simpl; [done|]. by rewrite Hx. Qed.

(** X13 — the two extreme ratios.  On a keyframe map with all keys below
    [duration], ratio 0 adds no key at all, and, the frame numbers being
    not negative and [duration] at most 2^53 (so that every gap is a float),
    ratio 1 gives, for every pair of consecutive keys (k0, k1) more than one
    frame apart (the last key paired with [duration]), the frame [k1 - 1]
    the value of [k0]. *)
Theorem insert_hold_keys_extreme_ratios m (duration : Z) :
  map_Forall (λ k _, k < duration) m →
  insert_hold_keys m 0 duration = m
  ∧ (map_Forall (λ k _, 0 ≤ k) m → duration ≤ max_frame →
     ∀ k0 k1, (k0, k1) ∈ key_pairs (sorted_keys m) duration → k0 + 1 < k1 →
       insert_hold_keys m 1 duration !! (k1 - 1) = m !! k0).
Proof.
  intros Hbelow.
  pose proof (keys_below_sorted_keys m duration Hbelow) as Hkb.
  pose proof Hkb as (Hs & _ & _). split.
  - unfold insert_hold_keys. apply foldl_id. apply Forall_forall.
    intros [k0 k1] Hin. destruct (elem_of_key_pairs _ _ _ _ Hs Hin) as [_ Hlt].
    unfold hold_step, hold_key.
    rewrite float_round_mul_0 by lia. rewrite Z.add_0_r.
    destruct (Z.eqb_spec k0 k1) as [?|_]; [lia|].
    by rewrite bool_decide_eq_false_2 by tauto.
  - intros Hpos Hdur k0 k1 Hin Hgap.
    pose proof (sorted_keys_gap_bound m duration Hpos Hdur) as Hmax.
    destruct (elem_of_key_pairs _ _ _ _ Hs Hin) as [Hk0 Hlt].
    assert (hold_key 1 k0 k1 = k1 - 1) as Hh.
    { unfold hold_key. specialize (Hmax k0 Hk0).
      rewrite float_round_mul_1 by lia.
      destruct (Z.eqb_spec (k0 + (k1 - k0)) k1); lia. }
    destruct (hold_fold_spec 1 m _ duration ltac:(done) ltac:(done) Hkb Hmax)
      as (_ & _ & Hadd & _).
    rewrite <- Hh. apply Hadd; [done|]. lia.
Qed.
End hold_keys_more.

Lemma kept_below_nonneg {T : Type} (entries : list (Z * T)) (duration : Z) :
  Forall (λ e : Z * T, 0 ≤ e.1) entries →
  map_Forall (λ k _, 0 ≤ k) (kept_below entries duration).
Proof.
  intros Hpos k v Hk. apply kept_below_lookup_Some in Hk as [Hin _].
  rewrite Forall_forall in Hpos. by apply (Hpos _ Hin).
Qed.

Lemma decorated_keys_nonneg (prompt_config_map : list (Z * string))
    (head_prompt tail_prompt : string) :
  Forall (λ kp : Z * string, 0 ≤ kp.1) prompt_config_map →
  Forall (λ kp : Z * string, 0 ≤ kp.1)
    (prod_map id (decorated_prompt head_prompt tail_prompt) <$> prompt_config_map).
Proof.
  intros Hpos. apply Forall_fmap. eapply Forall_impl; [exact Hpos|].
  by intros [k pr].
Qed.

(** X12 — no key at or after the end.  For a ratio in [0,1] and frame
    numbers that are not negative, [video_length] being at most 2^53, every
    key of the map [prompt_preprocess] returns is below [video_length]: the
    keys of the configuration at or after it are dropped and the hold keys
    stay inside the gaps. *)
Theorem prompt_preprocess_keys_below (prompt_config_map : list (Z * string))
    (head_prompt tail_prompt : string) (ratio : Q) (video_length : Z) :
  (0 <= ratio)%Q → (ratio <= 1)%Q →
  Forall (λ kp : Z * string, 0 ≤ kp.1) prompt_config_map →
  video_length ≤ max_frame →
  map_Forall (λ k _, k < video_length)
    (prompt_preprocess prompt_config_map head_prompt tail_prompt ratio video_length).
Proof.
  intros H0 H1 Hpos Hlen. rewrite prompt_preprocess_kept.
  apply insert_hold_keys_below; [done|done| | |done].
  - intros k v Hk. by apply kept_below_lookup_Some in Hk as [_ ?].
  - by apply kept_below_nonneg, decorated_keys_nonneg.
Qed.

(** X14 — the prompts of the configuration.  For a ratio in [0,1], frame
    numbers that are not negative with [video_length] at most 2^53, and a
    configuration without two keys of the same number, a key below
    [video_length] holds its prompt between the head prompt and the tail
    prompt, each joined with a comma when it is not empty. *)
Theorem prompt_preprocess_decorates (prompt_config_map : list (Z * string))
    (head_prompt tail_prompt : string) (ratio : Q) (video_length k : Z)
    (pr : string) :
  (0 <= ratio)%Q → (ratio <= 1)%Q →
  Forall (λ kp : Z * string, 0 ≤ kp.1) prompt_config_map →
  video_length ≤ max_frame →
  NoDup prompt_config_map.*1 →
  (k, pr) ∈ prompt_config_map → k < video_length →
  prompt_preprocess prompt_config_map head_prompt tail_prompt ratio video_length !! k
  = Some (decorated_prompt head_prompt tail_prompt pr).
Proof.
  intros H0 H1 Hpos Hlen Hnd Hin Hk. rewrite prompt_preprocess_kept.
  pose proof (kept_below_nonneg _ video_length
                (decorated_keys_nonneg _ head_prompt tail_prompt Hpos)) as Hpos'.
  set (m := kept_below _ video_length) in *.
  assert (m !! k = Some (decorated_prompt head_prompt tail_prompt pr)) as Hm.
  { apply kept_below_lookup_NoDup; [| |done].
    2:{ apply list_elem_of_fmap. by exists (k, pr). }
    rewrite <- list_fmap_compose.
    erewrite list_fmap_ext; [exact Hnd|]. by intros _ [??] _. }
  assert (keys_below m (sorted_keys m) video_length) as Hkb.
  { apply keys_below_sorted_keys. intros k' v Hk'.
    by apply kept_below_lookup_Some in Hk' as [_ ?]. }
  destruct (hold_fold_spec ratio m _ video_length H0 H1 Hkb
              (sorted_keys_gap_bound m video_length Hpos' Hlen))
    as (_ & Hkeep & _).
  unfold insert_hold_keys. rewrite Hkeep by (by rewrite Hm). done.
Qed.

(** ** The loaders *)

Lemma load_processed_fold (imgs : list (Z * Image)) (duration : Z)
    (m : gmap Z Image) (b : bool) :
  foldl (λ (st : gmap Z Image * bool) (fi : Z * Image),
    let '(images, processed) := st in
    let '(frame_no, img) := fi in
    if frame_no <? duration then (<[frame_no := img]> images, true)
    else st) (m, b) imgs
  = (foldl (λ (m : gmap Z Image) (e : Z * Image),
       if e.1 <? duration then <[e.1 := e.2]> m else m) m imgs,
     b || bool_decide (¬ Forall (λ e : Z * Image, duration ≤ e.1) imgs)).
Proof.
  revert m b. induction imgs as [|[frame_no img] imgs IH]; intros m b.
  { cbn [foldl]. f_equal. rewrite (bool_decide_eq_false_2 (¬ Forall _ []));
      [by rewrite orb_false_r|].
    intros Hn. apply Hn. constructor. }
  cbn [foldl fst snd]. destruct (Z.ltb_spec frame_no duration) as [Hlt|Hge].
  - rewrite IH. f_equal. cbn [orb]. symmetry.
    rewrite (bool_decide_eq_true_2 (¬ Forall _ (_ :: _))); [by rewrite orb_true_r|].
    intros Hall. apply Forall_cons in Hall as [? _]. simpl in *. lia.
  - rewrite IH. f_equal. f_equal. apply bool_decide_ext.
    rewrite Forall_cons. simpl. tauto.
Qed.

Lemma clamp_ratio_range (r : Q) :
  (0 <= clamp_ratio r)%Q ∧ (clamp_ratio r <= 1)%Q.
Proof.
  unfold clamp_ratio.
  destruct (Qle_bool 1 r) eqn:H1.
  - simpl. split; by apply Qle_bool_iff.
  - destruct (Qle_bool 0 r) eqn:H0.
    + split; [by apply Qle_bool_iff|].
      apply Qnot_lt_le. intros Hlt. apply Qlt_le_weak in Hlt.
      apply Qle_bool_iff in Hlt. congruence.
    + split; by apply Qle_bool_iff.
Qed.

(** X15 — the adapter images.  [ip_adapter_preprocess] returns nothing
    exactly when there is no configuration, it is switched off, or no input
    image has a frame number below [duration]; otherwise, the frame numbers
    being not negative and [duration] at most 2^53, it returns a map whose
    keys are all below [duration], whatever the configured ratio is (it is
    clamped to [0,1] first), and in which every input image kept holds its
    own frame. *)
Theorem ip_adapter_preprocess_spec (ip_adapter_config_map : option IpAdapterConfig)
    (duration : Z) :
  (ip_adapter_preprocess ip_adapter_config_map duration = None
   ↔ match ip_adapter_config_map with
     | None => True
     | Some cfg =>
         ip_enable cfg = false
         ∨ Forall (λ fi : Z * Image, duration ≤ fi.1) (ip_input_images cfg)
     end)
  ∧ ∀ cfg m,
      ip_adapter_config_map = Some cfg →
      ip_adapter_preprocess ip_adapter_config_map duration = Some m →
      Forall (λ fi : Z * Image, 0 ≤ fi.1) (ip_input_images cfg) →
      duration ≤ max_frame →
      map_Forall (λ k _, k < duration) m
      ∧ ∀ k img, kept_below (ip_input_images cfg) duration !! k = Some img →
          m !! k = Some img.
Proof.
  unfold ip_adapter_preprocess.
  destruct ip_adapter_config_map as [cfg|]; [|by split].
  destruct (ip_enable cfg); [|split; [by split; auto|done]].
  rewrite load_processed_fold. simpl.
  fold (kept_below (ip_input_images cfg) duration).
  destruct (clamp_ratio_range (ip_prompt_fixed_ratio cfg)) as [H0 H1].
  assert (map_Forall (λ k _, k < duration)
            (kept_below (ip_input_images cfg) duration)) as Hbelow.
  { intros k v Hk. by apply kept_below_lookup_Some in Hk as [_ ?]. }
  case_bool_decide as Hall.
  - split.
    + split; [done|]. intros [?|?]; done.
    + intros cfg' m [= <-] [= <-] Hpos Hdur.
      pose proof (kept_below_nonneg _ duration Hpos) as Hpos'. split.
      * by apply insert_hold_keys_below.
      * intros k img Hk.
        destruct (hold_fold_spec _ _ _ duration H0 H1
                    (keys_below_sorted_keys _ _ Hbelow)
                    (sorted_keys_gap_bound _ duration Hpos' Hdur))
          as (_ & Hkeep & _).
        unfold insert_hold_keys. rewrite Hkeep by (by rewrite Hk). done.
  - split; [|done]. split; [|done]. intros _. right.
    by destruct (decide (Forall (λ fi : Z * Image, duration ≤ fi.1)
                           (ip_input_images cfg))).
Qed.

(** X16 — the initial images.  [img2img_preprocess] returns nothing exactly
    when there is no configuration, it is switched off, or no initial image
    has a frame number below [duration]; otherwise the images it returns
    are the initial images with a frame number below [duration] and no
    others, the last file of a frame number winning, with the configured
    denoising strength. *)
Theorem img2img_preprocess_spec (img2img_config_map : option Img2ImgConfig)
    (duration : Z) :
  (img2img_preprocess img2img_config_map duration = None
   ↔ match img2img_config_map with
     | None => True
     | Some cfg =>
         i2i_enable cfg = false
         ∨ Forall (λ fi : Z * Image, duration ≤ fi.1) (i2i_init_images cfg)
     end)
  ∧ ∀ cfg r,
      img2img_config_map = Some cfg →
      img2img_preprocess img2img_config_map duration = Some r →
      i2i_images r = kept_below (i2i_init_images cfg) duration
      ∧ denoising_strength r = i2i_denoising_strength cfg
      ∧ map_Forall (λ k _, k < duration) (i2i_images r).
Proof.
  unfold img2img_preprocess.
  destruct img2img_config_map as [cfg|]; [|by split].
  destruct (i2i_enable cfg); [|split; [by split; auto|done]].
  rewrite load_processed_fold. simpl.
  fold (kept_below (i2i_init_images cfg) duration).
  case_bool_decide as Hall.
  - split.
    + split; [done|]. intros [?|?]; done.
    + intros cfg' r [= <-] [= <-]. simpl. split; [done|]. split; [done|].
      intros k v Hk. by apply kept_below_lookup_Some in Hk as [_ ?].
  - split; [|done]. split; [|done]. intros _. right.
    by destruct (decide (Forall (λ fi : Z * Image, duration ≤ fi.1)
                           (i2i_init_images cfg))).
Qed.

Local Open Scope string_scope.

Lemma prompt_preprocess_keys_below_witness :
  map_Forall (λ k _, k < 16)
    (prompt_preprocess [(0, "a"); (8, "b"); (20, "c")] "h" "" (1 # 2) 16).
Proof.
  apply (prompt_preprocess_keys_below [(0, "a"); (8, "b"); (20, "c")] "h" "" (1 # 2) 16).
  - vm_compute. discriminate.
  - vm_compute. discriminate.
  - repeat constructor; simpl; lia.
  - vm_compute. discriminate.
Defined.

Lemma insert_hold_keys_extreme_ratios_witness :
  insert_hold_keys ({[ 0 := "a"; 8 := "b" ]} : gmap Z string) 0 16
  = {[ 0 := "a"; 8 := "b" ]}
  ∧ insert_hold_keys ({[ 0 := "a"; 8 := "b" ]} : gmap Z string) 1 16 !! 7 = Some "a"
  ∧ insert_hold_keys ({[ 0 := "a"; 8 := "b" ]} : gmap Z string) 1 16 !! 15 = Some "b".
Proof.
  destruct (insert_hold_keys_extreme_ratios
              ({[ 0 := "a"; 8 := "b" ]} : gmap Z string) 16) as [Hzero Hone].
  - apply map_Forall_to_list. vm_compute. repeat constructor.
  - assert (map_Forall (λ k _, 0 ≤ k) ({[ 0 := "a"; 8 := "b" ]} : gmap Z string))
      as Hpos by (apply (bool_decide_unpack _); vm_compute; exact I).
    assert (16 ≤ max_frame) as Hdur by (vm_compute; discriminate).
    split; [exact Hzero|]. split.
    + apply (Hone Hpos Hdur 0 8); [|lia]. vm_compute. repeat constructor.
    + apply (Hone Hpos Hdur 8 16); [|lia]. vm_compute. repeat constructor.
Defined.

Lemma prompt_preprocess_decorates_witness :
  prompt_preprocess [(0, "a"); (8, "b"); (20, "c")] "h" "t" (1 # 2) 16 !! 8
  = Some "h,b,t".
Proof.
  apply (prompt_preprocess_decorates [(0, "a"); (8, "b"); (20, "c")] "h" "t"
           (1 # 2) 16 8 "b").
  - vm_compute. discriminate.
  - vm_compute. discriminate.
  - repeat constructor; simpl; lia.
  - vm_compute. discriminate.
  - apply (bool_decide_unpack _). vm_compute. exact I.
  - apply elem_of_cons. right. apply elem_of_cons. by left.
  - lia.
Defined.

Lemma ip_adapter_preprocess_spec_witness :
  ∃ m, ip_adapter_preprocess
         (Some (MkIpAdapterConfig true [(4, example_image 1); (30, example_image 2)]
                  (5 # 2) 1 false None None)) 16 = Some m
       ∧ map_Forall (λ k _, k < 16) m
       ∧ m !! 4 = Some (example_image 1).
Proof.
  set (cfg := MkIpAdapterConfig true [(4, example_image 1); (30, example_image 2)]
                (5 # 2) 1 false None None).
  destruct (ip_adapter_preprocess_spec (Some cfg) 16) as [Hnone Hsome].
  destruct (ip_adapter_preprocess (Some cfg) 16) as [m|] eqn:Hrun.
  - exists m. split; [reflexivity|].
    destruct (Hsome cfg m eq_refl eq_refl) as [Hbelow Hkept].
    + repeat constructor; simpl; lia.
    + vm_compute. discriminate.
    + split; [exact Hbelow|]. apply Hkept. reflexivity.
  - vm_compute in Hrun. discriminate.
Defined.

Lemma img2img_preprocess_spec_witness :
  ∃ r, img2img_preprocess
         (Some (MkImg2ImgConfig true [(4, example_image 1); (30, example_image 2)]
                  (7 # 10))) 16 = Some r
       ∧ i2i_images r = {[ 4 := example_image 1 ]}
       ∧ denoising_strength r = (7 # 10)%Q.
Proof.
  set (cfg := MkImg2ImgConfig true [(4, example_image 1); (30, example_image 2)]
                (7 # 10)).
  destruct (img2img_preprocess_spec (Some cfg) 16) as [Hnone Hsome].
  destruct (img2img_preprocess (Some cfg) 16) as [r|] eqn:Hrun.
  - exists r. split; [reflexivity|].
    destruct (Hsome cfg r eq_refl eq_refl) as (Himg & Hden & _).
    split; [exact Himg|exact Hden].
  - vm_compute in Hrun. discriminate.
Defined.

Local Close Scope string_scope.

(** ** More on mask schedules *)

Lemma load_masks_kept (imgs : list (Z * Image)) (duration : Z) :
  (load_masks imgs duration).1 = kept_below imgs duration.
Proof.
  unfold load_masks, kept_below.
  generalize (∅ : gmap Z Image) (None : option (Z * Z * string)).
  induction imgs as [|[frame_no img] imgs IH]; intros m sm; [done|].
  cbn [foldl fst snd]. destruct (frame_no <? duration); apply IH.
Qed.

Lemma load_masks_None (imgs : list (Z * Image)) (duration : Z) :
  (load_masks imgs duration).2 = None
  ↔ Forall (λ fi : Z * Image, duration ≤ fi.1) imgs.
Proof.
  rewrite load_masks_size_mode.
  induction imgs as [|[frame_no img] imgs IH]; [by split; [constructor|]|].
  rewrite Forall_cons. cbn [fst].
  destruct (decide (frame_no < duration)) as [Hlt|Hge].
  - rewrite filter_cons_True by done. split; [done|]. intros [? _]. lia.
  - rewrite filter_cons_False by done. rewrite IH. split; [|tauto].
    intros ?. split; [lia|done].
Qed.

Lemma mask_preprocess_unfold (imgs : list (Z * Image)) (duration : Z) :
  mask_preprocess imgs duration
  = match (load_masks imgs duration).2 with
    | Some (sz, md) => Some (forward_fill md sz duration (kept_below imgs duration))
    | None => None
    end.
Proof.
  unfold mask_preprocess. rewrite <- load_masks_kept.
  by destruct (load_masks imgs duration) as [m [[sz md]|]].
Qed.

(** The keys of a filled schedule. *)
Lemma forward_fill_keys (md : string) (sz : Z * Z) (duration : Z)
    (m0 : gmap Z Image) (k : Z) :
  is_Some (forward_fill md sz duration m0 !! k)
  ↔ 0 ≤ k < duration ∨ is_Some (m0 !! k).
Proof.
  destruct (forward_fill_spec md sz duration m0) as [Hout Hin].
  destruct (decide (0 ≤ k < duration)) as [Hk|Hk].
  - destruct (Hin k Hk) as (v & Hv & _). rewrite Hv. split; eauto.
  - rewrite (Hout k Hk). split; [by right|]. by intros [?|?].
Qed.

(** X17 — which frames have a mask.  With frame numbers that are not
    negative, [mask_preprocess] returns nothing exactly when no mask file has
    a frame number below [duration] (the directory is empty, or every file
    lies at or after the end); otherwise the keys of the schedule it returns
    are exactly the frames [0 .. duration-1], whichever files were given. *)
Theorem mask_preprocess_frames (imgs : list (Z * Image)) (duration : Z) :
  Forall (λ fi : Z * Image, 0 ≤ fi.1) imgs →
  match mask_preprocess imgs duration with
  | None => Forall (λ fi : Z * Image, duration ≤ fi.1) imgs
  | Some filled =>
      Exists (λ fi : Z * Image, fi.1 < duration) imgs
      ∧ ∀ k, is_Some (filled !! k) ↔ 0 ≤ k < duration
  end.
Proof.
  intros Hpos. rewrite mask_preprocess_unfold.
  pose proof (load_masks_None imgs duration) as Hnone.
  destruct ((load_masks imgs duration).2) as [[sz md]|].
  - split.
    + assert (¬ Forall (λ fi : Z * Image, duration ≤ fi.1) imgs) as Hnot.
      { intros Hall. by apply Hnone in Hall. }
      apply not_Forall_Exists in Hnot; [|intros fi; apply _].
      eapply Exists_impl; [exact Hnot|]. simpl. intros; lia.
    + intros k. rewrite forward_fill_keys. split; [|by left].
      intros [?|[v Hk]]; [done|].
      apply kept_below_lookup_Some in Hk as [Hin Hlt].
      rewrite Forall_forall in Hpos. specialize (Hpos _ Hin). simpl in Hpos. lia.
  - by apply Hnone.
Qed.

(** X18 — reloading the masks.  The schedule [mask_preprocess] returns,
    saved one file per key and read back as a mask directory (in any order
    of the files), gives the same schedule again. *)
Theorem mask_preprocess_reload (imgs saved : list (Z * Image)) (duration : Z)
    (filled : gmap Z Image) :
  mask_preprocess imgs duration = Some filled →
  NoDup saved.*1 →
  (∀ k img, (k, img) ∈ saved ↔ filled !! k = Some img) →
  mask_preprocess saved duration = Some filled.
Proof.
  intros Hrun Hnd Hsaved. rewrite mask_preprocess_unfold in Hrun.
  pose proof (load_masks_None imgs duration) as Hnone.
  destruct ((load_masks imgs duration).2) as [[sz md]|]; [|done].
  injection Hrun as <-.
  set (m0 := kept_below imgs duration) in *.
  set (filled := forward_fill md sz duration m0) in *.
  assert (∀ k, is_Some (filled !! k) → k < duration) as Hbelow.
  { intros k [Hk|[v Hk]]%forward_fill_keys; [lia|].
    by apply kept_below_lookup_Some in Hk as [_ ?]. }
  assert (kept_below saved duration = filled) as Hkept.
  { apply map_eq. intros k. destruct (filled !! k) as [img|] eqn:Hk.
    - apply kept_below_lookup_NoDup; [done|by apply Hsaved|].
      apply Hbelow. by rewrite Hk.
    - destruct (kept_below saved duration !! k) as [img|] eqn:Hk'; [|done].
      apply kept_below_lookup_Some in Hk' as [Hin _].
      apply Hsaved in Hin. congruence. }
  rewrite mask_preprocess_unfold.
  pose proof (load_masks_None saved duration) as Hnone'.
  destruct ((load_masks saved duration).2) as [[sz' md']|].
  - rewrite Hkept. f_equal. apply forward_fill_dense.
    intros i Hi. apply forward_fill_keys. by left.
  - exfalso. assert (m0 ≠ ∅) as Hne.
    { intros Hemp. apply kept_below_empty in Hemp. by apply Hnone in Hemp. }
    apply map_choose in Hne as (k & img & Hk).
    assert (is_Some (filled !! k)) as [img' Hk'].
    { apply forward_fill_keys. right. by rewrite Hk. }
    apply Hsaved in Hk'.
    assert (Forall (λ fi : Z * Image, duration ≤ fi.1) saved) as Hall
      by (by apply Hnone').
    rewrite Forall_forall in Hall. specialize (Hall _ Hk'). simpl in Hall.
    specialize (Hbelow k). rewrite (proj1 (Hsaved k img') Hk') in Hbelow.
    specialize (Hbelow ltac:(eauto)). lia.
Qed.

Local Open Scope string_scope.

Lemma mask_preprocess_frames_witness :
  match mask_preprocess [(2, MkImage "L" (1, 1) [255]); (9, MkImage "L" (1, 1) [7])] 4 with
  | None => False
  | Some filled => ∀ k, is_Some (filled !! k) ↔ 0 ≤ k < 4
  end.
Proof.
  pose proof (mask_preprocess_frames
                [(2, MkImage "L" (1, 1) [255]); (9, MkImage "L" (1, 1) [7])] 4) as H.
  destruct (mask_preprocess _ 4) as [filled|] eqn:Hrun.
  - apply H. repeat constructor; simpl; lia.
  - vm_compute in Hrun. discriminate.
Defined.

Lemma mask_preprocess_reload_witness :
  mask_preprocess
    [(1, MkImage "L" (1, 1) [255]); (0, MkImage "L" (1, 1) [0]);
     (2, MkImage "L" (1, 1) [255])] 3
  = Some {[ 0 := MkImage "L" (1, 1) [0]; 1 := MkImage "L" (1, 1) [255];
            2 := MkImage "L" (1, 1) [255] ]}.
Proof.
  apply (mask_preprocess_reload [(1, MkImage "L" (1, 1) [255])]).
  - vm_compute. reflexivity.
  - apply (bool_decide_unpack _). vm_compute. exact I.
  - intros k img. rewrite !elem_of_cons, elem_of_nil. split.
    + intros [[= -> ->]|[[= -> ->]|[[= -> ->]|[]]]]; reflexivity.
    + intros Hk. destruct (decide (k = 0)) as [->|?];
        [|destruct (decide (k = 1)) as [->|?];
          [|destruct (decide (k = 2)) as [->|?]]].
      * right. left. vm_compute in Hk. by injection Hk as <-.
      * left. vm_compute in Hk. by injection Hk as <-.
      * right. right. left. vm_compute in Hk. by injection Hk as <-.
      * rewrite !lookup_insert_ne, lookup_singleton_ne in Hk by done. done.
Defined.

Local Close Scope string_scope.

(** ** More on the region composer *)

Lemma compose_region_prev_ip_map (duration : Z) (init : bool) st entry :
  is_Some (prev_ip_map (compose_region duration init st entry))
  ↔ is_Some (prev_ip_map st) ∨ has_own_adapter duration entry.
Proof.
  destruct entry as [b|r cfg]; simpl; [tauto|].
  destruct (r_enable cfg); simpl; [|split; [by left|intros [?|[? _]]; done]].
  destruct (mask_preprocess _ _) as [mask_map|]; simpl;
    [|split; [by left|intros [?|(_ & [? ?] & _)]; done]].
  destruct (r_is_init_img cfg); simpl.
  - destruct init; simpl; (split; [by left|intros [?|(_ & _ & ? & _)]; done]).
  - destruct (ip_adapter_preprocess _ _) as [m|]; simpl.
    + split; [|eauto]. intros _. right. eauto.
    + split; [by left|]. intros [?|(_ & _ & _ & [? ?])]; done.
Qed.

Lemma region_fold_prev_ip_map (duration : Z) (init : bool) st entries :
  is_Some (prev_ip_map (foldl (compose_region duration init) st entries))
  ↔ is_Some (prev_ip_map st) ∨ Exists (has_own_adapter duration) entries.
Proof.
  revert st. induction entries as [|entry entries IH]; intros st; simpl.
  { rewrite Exists_nil. tauto. }
  rewrite IH, compose_region_prev_ip_map, Exists_cons. tauto.
Qed.

(** X19 — the missing top-level adapter.  The composer fails with a
    [TypeError] exactly when the configuration has no top-level
    [ip_adapter_map] while some region brings an adapter map of its own:
    the shared adapter settings are read from the top level only. *)
Theorem region_preprocess_TypeError (mc : ModelConfig) (duration : Z)
    (init : bool) :
  region_preprocess mc duration init = Raise TypeError
  ↔ ip_adapter_map mc = None
    ∧ Exists (has_own_adapter duration) (region_map mc).
Proof.
  pose proof (region_fold_prev_ip_map duration init
                (compose_background mc duration init) (region_map mc)) as Hprev.
  fold (region_collect mc duration init) in Hprev.
  unfold region_preprocess.
  destruct (prev_ip_map (region_collect mc duration init)) as [prev|].
  - destruct (ip_adapter_map mc) as [top|] eqn:Htop; simpl.
    + case_bool_decide; (split; [done|by intros [? _]]).
    + split; [|done]. intros _. split; [done|].
      destruct (proj1 Hprev ltac:(eauto)) as [Hbg|?]; [|done].
      unfold compose_background in Hbg. rewrite Htop in Hbg.
      destruct (negb _); simpl in Hbg; by destruct Hbg.
  - simpl. split.
    + by case_bool_decide.
    + intros [_ Hex]. by destruct (proj2 Hprev (or_intror Hex)).
Qed.

Lemma seqZ_snoc_len {A} (l : list A) :
  seqZ 0 (len l + 1) = seqZ 0 (len l) ++ [len l].
Proof.
  unfold len. replace (Z.of_nat (length l) + 1) with (Z.of_nat (S (length l))) by lia.
  by rewrite seqZ_S, Z.add_0_l.
Qed.

Lemma compose_region_sources (duration : Z) (init : bool) st entry :
  condi_index st = len (region_condi_list st)
  ∧ filter (λ s, s ≠ -1) (src <$> region_list st) = seqZ 0 (condi_index st)
  ∧ (init = false → src <$> region_list st = seqZ 0 (condi_index st)) →
  let st' := compose_region duration init st entry in
  condi_index st' = len (region_condi_list st')
  ∧ filter (λ s, s ≠ -1) (src <$> region_list st') = seqZ 0 (condi_index st')
  ∧ (init = false → src <$> region_list st' = seqZ 0 (condi_index st')).
Proof.
  intros (Hidx & Hfil & Hinit). destruct entry as [b|r cfg]; simpl; [done|].
  destruct (r_enable cfg); simpl; [|done].
  destruct (mask_preprocess _ _) as [mask_map|]; [|done].
  destruct (r_is_init_img cfg); simpl.
  - destruct init; simpl; [|done].
    split; [done|]. split; [|done].
    rewrite fmap_app, filter_app, Hfil. cbn [fmap list_fmap src].
    rewrite filter_cons_False by (intros Hne; by apply Hne).
    by rewrite filter_nil, app_nil_r.
  - assert (0 ≤ condi_index st) as Hpos by (rewrite Hidx; unfold len; lia).
    split; [|split].
    + rewrite Hidx. unfold len. rewrite length_app. simpl. lia.
    + rewrite fmap_app, filter_app, Hfil. cbn [fmap list_fmap src].
      rewrite filter_cons_True by lia.
      rewrite filter_nil, Hidx. by rewrite seqZ_snoc_len.
    + intros Hi. rewrite fmap_app, (Hinit Hi). simpl.
      rewrite Hidx. by rewrite seqZ_snoc_len.
Qed.

Lemma region_collect_sources (mc : ModelConfig) (duration : Z) (init : bool) :
  let st := region_collect mc duration init in
  condi_index st = len (region_condi_list st)
  ∧ filter (λ s, s ≠ -1) (src <$> region_list st) = seqZ 0 (condi_index st)
  ∧ (init = false → src <$> region_list st = seqZ 0 (condi_index st)).
Proof.
  unfold region_collect.
  assert (let st := compose_background mc duration init in
          condi_index st = len (region_condi_list st)
          ∧ filter (λ s, s ≠ -1) (src <$> region_list st) = seqZ 0 (condi_index st)
          ∧ (init = false → src <$> region_list st = seqZ 0 (condi_index st)))
    as Hbg.
  { unfold compose_background, is_bg_init_img. destruct init; simpl.
    - destruct (default false _); simpl; (split; [done|split; done]).
    - split; [done|split; done]. }
  revert Hbg. generalize (compose_background mc duration init).
  induction (region_map mc) as [|entry entries IH]; intros st Hst; [done|].
  simpl. apply IH. by apply compose_region_sources.
Qed.

Lemma compose_region_items (duration : Z) (init : bool) st entry :
  (∃ bg rest, region_list st = MkRegionItem None bg :: rest
     ∧ Forall (λ r, is_Some (mask_images r)) rest) →
  ∃ bg rest,
    region_list (compose_region duration init st entry)
    = MkRegionItem None bg :: rest
    ∧ Forall (λ r, is_Some (mask_images r)) rest.
Proof.
  intros (bg & rest & Hl & Hrest). destruct entry as [b|r cfg]; simpl; [eauto|].
  destruct (r_enable cfg); simpl; [|eauto].
  destruct (mask_preprocess _ _) as [mask_map|]; [|eauto].
  destruct (r_is_init_img cfg); simpl.
  - destruct init; simpl; [|eauto].
    exists bg, (rest ++ [MkRegionItem (Some mask_map) (-1)]).
    rewrite Hl. split; [done|]. apply Forall_app. split; [done|].
    repeat constructor. simpl. eauto.
  - exists bg, (rest ++ [MkRegionItem (Some mask_map) (condi_index st)]).
    rewrite Hl. split; [done|]. apply Forall_app. split; [done|].
    repeat constructor. simpl. eauto.
Qed.

Lemma region_collect_items (mc : ModelConfig) (duration : Z) (init : bool) :
  ∃ bg rest,
    region_list (region_collect mc duration init) = MkRegionItem None bg :: rest
    ∧ Forall (λ r, is_Some (mask_images r)) rest.
Proof.
  unfold region_collect.
  assert (∃ bg rest,
            region_list (compose_background mc duration init)
            = MkRegionItem None bg :: rest
            ∧ Forall (λ r, is_Some (mask_images r)) rest) as Hbg.
  { unfold compose_background. destruct (negb _); simpl; eexists _, []; eauto. }
  revert Hbg. generalize (compose_background mc duration init).
  induction (region_map mc) as [|entry entries IH]; intros st Hst; [done|].
  simpl. apply IH. by apply compose_region_items.
Qed.

(** What [region_preprocess] returns when it returns. *)
Lemma region_preprocess_Ok (mc : ModelConfig) (duration : Z) (init : bool)
    condi regions shared :
  region_preprocess mc duration init = Ok (condi, regions, shared) →
  let st := region_collect mc duration init in
  regions = region_list st
  ∧ match prev_ip_map st with
    | None => condi = region_condi_list st ∧ shared = None
    | Some prev =>
        condi = fill_ip_map prev <$> region_condi_list st ∧ is_Some shared
    end.
Proof.
  unfold region_preprocess. simpl.
  destruct (prev_ip_map (region_collect mc duration init)) as [prev|]; simpl.
  - destruct (ip_adapter_map mc) as [top|]; simpl; [|done].
    case_bool_decide; [done|]. intros [= <- <- <-]. eauto.
  - case_bool_decide; [done|]. intros [= <- <- <-]. eauto.
Qed.

(** X20 — the sources of the regions.  When the composer returns, its
    region list starts with the background, which has no mask, and every
    other item has one; the sources other than -1 (the initial image) are
    0, 1, 2, ... in this order up to the number of condition bundles, so
    each is a valid index into the bundle list and each bundle is the source
    of exactly one region; without an initial image no source is -1. *)
Theorem region_preprocess_sources (mc : ModelConfig) (duration : Z)
    (init : bool) condi regions shared :
  region_preprocess mc duration init = Ok (condi, regions, shared) →
  (∃ bg rest, regions = MkRegionItem None bg :: rest
     ∧ Forall (λ r, is_Some (mask_images r)) rest)
  ∧ filter (λ s, s ≠ -1) (src <$> regions) = seqZ 0 (len condi)
  ∧ (init = false → src <$> regions = seqZ 0 (len condi)).
Proof.
  intros Hrun. apply region_preprocess_Ok in Hrun as [-> Hcondi].
  pose proof (region_collect_sources mc duration init) as (Hidx & Hfil & Hinit).
  assert (len condi = condi_index (region_collect mc duration init)) as ->.
  { rewrite Hidx. destruct (prev_ip_map _); destruct Hcondi as [-> _]; [|done].
    unfold len. by rewrite length_fmap. }
  split; [apply region_collect_items|]. split; done.
Qed.

(** X21 — adapter maps, all or none.  When the composer returns, either it
    returns shared adapter settings and every bundle has an adapter map, or
    it returns none and no bundle has one: the pipeline never gets a mix. *)
Theorem region_preprocess_adapters_uniform (mc : ModelConfig) (duration : Z)
    (init : bool) condi regions shared :
  region_preprocess mc duration init = Ok (condi, regions, shared) →
  match shared with
  | None => Forall (λ c, cm_ip_adapter_map c = None) condi
  | Some _ => Forall (λ c, is_Some (cm_ip_adapter_map c)) condi
  end.
Proof.
  intros Hrun. apply region_preprocess_Ok in Hrun as [_ Hcondi].
  pose proof (region_collect_last_own mc duration init) as Hlast. simpl in Hlast.
  destruct (prev_ip_map (region_collect mc duration init)) as [prev|].
  - destruct Hcondi as [-> [s ->]]. apply Forall_fmap, Forall_forall.
    intros c _. unfold fill_ip_map. simpl.
    destruct (cm_ip_adapter_map c) eqn:Hc; simpl; [rewrite Hc|]; eauto.
  - destruct Hcondi as [-> ->]. by apply Forall_forall.
Qed.

Lemma ip_adapter_preprocess_below (cfg : option IpAdapterConfig) (duration : Z)
    (m : gmap Z Image) :
  adapter_frames_nonneg cfg → duration ≤ max_frame →
  ip_adapter_preprocess cfg duration = Some m → schedule_below duration m.
Proof.
  unfold ip_adapter_preprocess. destruct cfg as [cfg|]; [|done].
  simpl. intros Hpos Hdur.
  destruct (ip_enable cfg); [|done].
  rewrite load_processed_fold. simpl.
  fold (kept_below (ip_input_images cfg) duration).
  case_bool_decide; [|done]. intros [= <-].
  destruct (clamp_ratio_range (ip_prompt_fixed_ratio cfg)) as [H0 H1].
  apply insert_hold_keys_below; [done|done| | |done].
  - intros k v Hk. by apply kept_below_lookup_Some in Hk as [_ ?].
  - by apply kept_below_nonneg.
Qed.

Lemma prompt_preprocess_below (cfg : list (Z * string)) (head tail : string)
    (ratio : Q) (duration : Z) :
  ratio_in_range ratio →
  Forall (λ kp : Z * string, 0 ≤ kp.1) cfg → duration ≤ max_frame →
  schedule_below duration (prompt_preprocess cfg head tail ratio duration).
Proof.
  intros [H0 H1] Hpos Hdur. rewrite prompt_preprocess_kept.
  apply insert_hold_keys_below; [done|done| | |done].
  - intros k v Hk. by apply kept_below_lookup_Some in Hk as [_ ?].
  - by apply kept_below_nonneg, decorated_keys_nonneg.
Qed.

Lemma mask_preprocess_below (imgs : list (Z * Image)) (duration : Z)
    (filled : gmap Z Image) :
  mask_preprocess imgs duration = Some filled → schedule_below duration filled.
Proof.
  rewrite mask_preprocess_unfold.
  destruct ((load_masks imgs duration).2) as [[sz md]|]; [|done].
  intros [= <-] k v Hk.
  assert (is_Some (forward_fill md sz duration (kept_below imgs duration) !! k))
    as [?|[v' Hv']]%forward_fill_keys by eauto; [lia|].
  by apply kept_below_lookup_Some in Hv' as [_ ?].
Qed.

Lemma compose_region_below (duration : Z) (init : bool) st entry :
  duration ≤ max_frame →
  match entry with
  | Background _ => True
  | Region _ cfg => ratio_in_range (c_prompt_fixed_ratio (r_condition cfg))
  end →
  match entry with
  | Background _ => True
  | Region _ cfg =>
      Forall (λ kp : Z * string, 0 ≤ kp.1) (c_prompt_map (r_condition cfg))
      ∧ adapter_frames_nonneg (c_ip_adapter_map (r_condition cfg))
  end →
  Forall (λ c, schedule_below duration (cm_prompt_map c)
               ∧ ∀ m, cm_ip_adapter_map c = Some m → schedule_below duration m)
    (region_condi_list st)
  ∧ (∀ m, prev_ip_map st = Some m → schedule_below duration m)
  ∧ Forall (λ r, ∀ m, mask_images r = Some m → schedule_below duration m)
      (region_list st) →
  let st' := compose_region duration init st entry in
  Forall (λ c, schedule_below duration (cm_prompt_map c)
               ∧ ∀ m, cm_ip_adapter_map c = Some m → schedule_below duration m)
    (region_condi_list st')
  ∧ (∀ m, prev_ip_map st' = Some m → schedule_below duration m)
  ∧ Forall (λ r, ∀ m, mask_images r = Some m → schedule_below duration m)
      (region_list st').
Proof.
  intros Hdur Hratio Hframes (Hc & Hp & Hr).
  destruct entry as [b|r cfg]; simpl; [done|].
  destruct Hframes as [Hkeys Hadapter].
  destruct (r_enable cfg); simpl; [|done].
  destruct (mask_preprocess _ _) as [mask_map|] eqn:Hmask; [|done].
  apply mask_preprocess_below in Hmask.
  destruct (r_is_init_img cfg); simpl.
  - destruct init; simpl; [|done]. split; [done|]. split; [done|].
    apply Forall_app. split; [done|]. repeat constructor. by intros m [= <-].
  - pose proof (λ m, ip_adapter_preprocess_below
                  (c_ip_adapter_map (r_condition cfg)) duration m
                  Hadapter Hdur) as Hip.
    split; [|split].
    + apply Forall_app. split; [done|]. repeat constructor; simpl.
      * by apply prompt_preprocess_below.
      * done.
    + intros m. destruct (ip_adapter_preprocess _ _) as [m'|]; simpl.
      * intros [= <-]. by apply Hip.
      * apply Hp.
    + apply Forall_app. split; [done|]. repeat constructor. by intros m [= <-].
Qed.

Lemma region_collect_below (mc : ModelConfig) (duration : Z) (init : bool) :
  ratios_in_range mc → frames_nonneg mc → duration ≤ max_frame →
  let st := region_collect mc duration init in
  Forall (λ c, schedule_below duration (cm_prompt_map c)
               ∧ ∀ m, cm_ip_adapter_map c = Some m → schedule_below duration m)
    (region_condi_list st)
  ∧ (∀ m, prev_ip_map st = Some m → schedule_below duration m)
  ∧ Forall (λ r, ∀ m, mask_images r = Some m → schedule_below duration m)
      (region_list st).
Proof.
  intros [Htop Hregions] (Hkeys & Hadapter & Hframes) Hdur.
  unfold region_collect.
  assert (let st := compose_background mc duration init in
    Forall (λ c, schedule_below duration (cm_prompt_map c)
                 ∧ ∀ m, cm_ip_adapter_map c = Some m → schedule_below duration m)
      (region_condi_list st)
    ∧ (∀ m, prev_ip_map st = Some m → schedule_below duration m)
    ∧ Forall (λ r, ∀ m, mask_images r = Some m → schedule_below duration m)
        (region_list st)) as Hbg.
  { unfold compose_background.
    pose proof (λ m, ip_adapter_preprocess_below (ip_adapter_map mc) duration m
                       Hadapter Hdur) as Hip.
    destruct (negb _); simpl.
    - split; [|split].
      + repeat constructor; simpl; [by apply prompt_preprocess_below|done].
      + intros m. destruct (ip_adapter_preprocess _ _) as [m'|]; simpl; [|done].
        intros [= <-]. by apply Hip.
      + repeat constructor. done.
    - split; [constructor|]. split; [done|]. repeat constructor. done. }
  revert Hbg. generalize (compose_background mc duration init).
  pose proof (conj Hregions Hframes) as Hboth. apply Forall_and in Hboth.
  clear Hregions Hframes.
  induction Hboth as [|entry entries [Hentry Hentry'] _ IH]; intros st Hst; [done|].
  simpl. apply IH. by apply compose_region_below.
Qed.

Lemma wild_card_conversion_ratios (replace_wild_card : string → string)
    (mc : ModelConfig) :
  ratios_in_range (wild_card_conversion replace_wild_card mc).
Proof.
  split; simpl; [apply clamp_ratio_range|].
  apply Forall_fmap, Forall_forall. intros [b|r cfg] _; simpl; [done|].
  apply clamp_ratio_range.
Qed.

Lemma wild_card_conversion_frames (replace_wild_card : string → string)
    (mc : ModelConfig) :
  frames_nonneg mc → frames_nonneg (wild_card_conversion replace_wild_card mc).
Proof.
  assert (∀ l : list (Z * string),
    Forall (λ kp : Z * string, 0 ≤ kp.1) l →
    Forall (λ kp : Z * string, 0 ≤ kp.1) (prod_map id replace_wild_card <$> l))
    as Hkeys.
  { intros l Hl. apply Forall_fmap. eapply Forall_impl; [exact Hl|]. by intros [k pr]. }
  intros (Htop & Hadapter & Hregions). split; [|split]; simpl.
  - by apply Hkeys.
  - done.
  - apply Forall_fmap. eapply Forall_impl; [exact Hregions|].
    intros [b|r cfg]; simpl; [done|]. intros [? ?]. split; [by apply Hkeys|done].
Qed.

(** X22 — schedules after the wildcard pass.  On a configuration that went
    through [wild_card_conversion], whatever hold ratios it had, with frame
    numbers that are not negative and [duration] at most 2^53, every
    schedule the composer returns has only keys below [duration]: the prompt
    map and the adapter map of every bundle and the mask map of every
    region. *)
Theorem region_preprocess_after_wild_card_conversion
    (replace_wild_card : string → string) (mc : ModelConfig) (duration : Z)
    (init : bool) condi regions shared :
  frames_nonneg mc → duration ≤ max_frame →
  region_preprocess (wild_card_conversion replace_wild_card mc) duration init
  = Ok (condi, regions, shared) →
  Forall (λ c, schedule_below duration (cm_prompt_map c)
               ∧ ∀ m, cm_ip_adapter_map c = Some m → schedule_below duration m)
    condi
  ∧ Forall (λ r, ∀ m, mask_images r = Some m → schedule_below duration m) regions.
Proof.
  intros Hframes Hdur Hrun. apply region_preprocess_Ok in Hrun as [-> Hcondi].
  destruct (region_collect_below _ duration init
              (wild_card_conversion_ratios replace_wild_card mc)
              (wild_card_conversion_frames replace_wild_card mc Hframes) Hdur)
    as (Hc & Hp & Hr).
  split; [|done].
  destruct (prev_ip_map _) as [prev|].
  - destruct Hcondi as [-> _]. apply Forall_fmap.
    eapply Forall_impl; [exact Hc|]. intros c [Hpm Hip]. simpl.
    unfold fill_ip_map. destruct (cm_ip_adapter_map c) as [m|] eqn:Hm; simpl.
    + split; [done|]. rewrite Hm. done.
    + split; [done|]. intros m [= <-]. by apply Hp.
  - by destruct Hcondi as [-> _].
Qed.

Local Open Scope string_scope.

Lemma region_preprocess_sources_witness :
  ∃ condi regions shared,
    region_preprocess fallback_example 1 false = Ok (condi, regions, shared)
    ∧ src <$> regions = [0; 1; 2; 3].
Proof.
  destruct (region_preprocess fallback_example 1 false)
    as [[[condi regions] shared]|e] eqn:Hrun.
  - exists condi, regions, shared. split; [reflexivity|].
    destruct (region_preprocess_sources _ _ _ _ _ _ Hrun) as (_ & _ & Hinit).
    rewrite (Hinit eq_refl).
    vm_compute in Hrun. injection Hrun as <- _ _. reflexivity.
  - vm_compute in Hrun. discriminate.
Defined.

Lemma region_preprocess_adapters_uniform_witness :
  ∃ condi regions shared,
    region_preprocess fallback_example 1 false = Ok (condi, regions, Some shared)
    ∧ Forall (λ c, is_Some (cm_ip_adapter_map c)) condi.
Proof.
  destruct (region_preprocess fallback_example 1 false)
    as [[[condi regions] [shared|]]|e] eqn:Hrun.
  - exists condi, regions, shared. split; [reflexivity|].
    exact (region_preprocess_adapters_uniform _ _ _ _ _ _ Hrun).
  - vm_compute in Hrun. discriminate.
  - vm_compute in Hrun. discriminate.
Defined.

Lemma region_preprocess_after_wild_card_conversion_witness :
  ∃ condi regions shared,
    region_preprocess
      (wild_card_conversion (λ s, s)
         (MkModelConfig None [(0, "a"); (4, "b")] "" "" 3 [])) 8 false
    = Ok (condi, regions, shared)
    ∧ Forall (λ c, schedule_below 8 (cm_prompt_map c)) condi.
Proof.
  assert (frames_nonneg (MkModelConfig None [(0, "a"); (4, "b")] "" "" 3 []))
    as Hframes.
  { split; [|split; [exact I|constructor]]. repeat constructor; simpl; lia. }
  assert (8 ≤ max_frame) as Hdur by (vm_compute; discriminate).
  destruct (region_preprocess _ 8 false) as [[[condi regions] shared]|e] eqn:Hrun.
  - exists condi, regions, shared. split; [reflexivity|].
    destruct (region_preprocess_after_wild_card_conversion _ _ _ _ _ _ _
                Hframes Hdur Hrun) as [Hc _].
    eapply Forall_impl; [exact Hc|]. by intros c [? _].
  - vm_compute in Hrun. discriminate.
Defined.

Local Close Scope string_scope.

(** ** The structure of a configuration under the wildcard pass *)

Lemma background_is_init_img_convert (replace_wild_card : string → string)
    (entries : list region_entry) :
  background_is_init_img (convert_entry replace_wild_card <$> entries)
  = background_is_init_img entries.
Proof.
  induction entries as [|[b|r cfg] entries IH]; simpl; [done|done|exact IH].
Qed.

Lemma compose_region_convert (replace_wild_card : string → string)
    (duration : Z) (init : bool) st st' entry :
  region_list st' = region_list st
  ∧ condi_index st' = condi_index st
  ∧ prev_ip_map st' = prev_ip_map st
  ∧ cm_ip_adapter_map <$> region_condi_list st'
    = cm_ip_adapter_map <$> region_condi_list st →
  let s := compose_region duration init st entry in
  let s' := compose_region duration init st'
              (convert_entry replace_wild_card entry) in
  region_list s' = region_list s
  ∧ condi_index s' = condi_index s
  ∧ prev_ip_map s' = prev_ip_map s
  ∧ cm_ip_adapter_map <$> region_condi_list s'
    = cm_ip_adapter_map <$> region_condi_list s.
Proof.
  intros (Hl & Hi & Hp & Hc). destruct entry as [b|r cfg]; simpl; [done|].
  destruct (r_enable cfg); simpl; [|done].
  destruct (mask_preprocess _ _) as [mask_map|]; [|done].
  destruct (r_is_init_img cfg); simpl.
  - destruct init; simpl; [|done]. by rewrite Hl, Hi.
  - rewrite Hl, Hi, Hp, !fmap_app, Hc. done.
Qed.

Lemma region_collect_convert (replace_wild_card : string → string)
    (mc : ModelConfig) (duration : Z) (init : bool) :
  let s := region_collect mc duration init in
  let s' := region_collect (wild_card_conversion replace_wild_card mc)
              duration init in
  region_list s' = region_list s
  ∧ condi_index s' = condi_index s
  ∧ prev_ip_map s' = prev_ip_map s
  ∧ cm_ip_adapter_map <$> region_condi_list s'
    = cm_ip_adapter_map <$> region_condi_list s.
Proof.
  unfold region_collect.
  assert (let s := compose_background mc duration init in
          let s' := compose_background
                      (wild_card_conversion replace_wild_card mc) duration init in
          region_list s' = region_list s
          ∧ condi_index s' = condi_index s
          ∧ prev_ip_map s' = prev_ip_map s
          ∧ cm_ip_adapter_map <$> region_condi_list s'
            = cm_ip_adapter_map <$> region_condi_list s) as Hbg.
  { unfold compose_background, is_bg_init_img. simpl.
    rewrite background_is_init_img_convert.
    destruct (negb _); simpl; done. }
  simpl region_map. revert Hbg.
  generalize (compose_background mc duration init)
             (compose_background (wild_card_conversion replace_wild_card mc)
                duration init).
  induction (region_map mc) as [|entry entries IH]; intros st st' Hst; [done|].
  rewrite fmap_cons. cbn [foldl]. apply IH. by apply compose_region_convert.
Qed.

Lemma fill_ip_map_adapters (prev : gmap Z Image) (l : list ConditionMap) :
  cm_ip_adapter_map <$> (fill_ip_map prev <$> l)
  = (λ o : option (gmap Z Image),
       match o with Some m => Some m | None => Some prev end)
      <$> (cm_ip_adapter_map <$> l).
Proof.
  rewrite <- !list_fmap_compose. apply list_fmap_ext.
  intros _ c _. simpl. unfold fill_ip_map.
  destruct (cm_ip_adapter_map c) eqn:Hc; simpl; [by rewrite Hc|done].
Qed.

(** X23 — wildcards leave the regions alone.  The composer behaves on a
    configuration after [wild_card_conversion] as on the configuration
    before it, but for the prompts: it raises the same error, or returns the
    same region list (masks and sources), the same shared adapter settings
    and bundles with the same adapter maps. *)
Theorem wild_card_conversion_keeps_regions
    (replace_wild_card : string → string) (mc : ModelConfig) (duration : Z)
    (init : bool) :
  match region_preprocess mc duration init,
        region_preprocess (wild_card_conversion replace_wild_card mc)
          duration init with
  | Ok (condi, regions, shared), Ok (condi', regions', shared') =>
      regions' = regions ∧ shared' = shared
      ∧ cm_ip_adapter_map <$> condi' = cm_ip_adapter_map <$> condi
  | Raise e, Raise e' => e' = e
  | _, _ => False
  end.
Proof.
  pose proof (region_collect_convert replace_wild_card mc duration init)
    as (Hl & _ & Hp & Hc).
  unfold region_preprocess. rewrite Hl, Hp.
  change (ip_adapter_map (wild_card_conversion replace_wild_card mc))
    with (ip_adapter_map mc).
  destruct (prev_ip_map (region_collect mc duration init)) as [prev|]; simpl.
  - destruct (ip_adapter_map mc) as [top|]; simpl; [|done].
    pose proof (fill_ip_map_adapters prev
                  (region_condi_list (region_collect mc duration init))) as H1.
    pose proof (fill_ip_map_adapters prev
                  (region_condi_list
                     (region_collect (wild_card_conversion replace_wild_card mc)
                        duration init))) as H2.
    rewrite Hc in H2. rewrite <- H1 in H2. clear H1 Hc.
    destruct (fill_ip_map prev <$> region_condi_list (region_collect mc _ _))
      as [|c l];
      destruct (fill_ip_map prev <$> region_condi_list (region_collect
                  (wild_card_conversion replace_wild_card mc) _ _)) as [|c' l'];
      try done.
  - destruct (region_condi_list (region_collect mc _ _)) as [|c l];
      destruct (region_condi_list (region_collect
                  (wild_card_conversion replace_wild_card mc) _ _)) as [|c' l'];
      try done.
Qed.

(** ** The prompts of a window *)

Lemma foldl_insert_lookup {V : Type} (v : V) (l : list Z) (m : gmap Z V) (k : Z) :
  foldl (λ (m : gmap Z V) (i : Z), <[i := v]> m) m l !! k
  = if bool_decide (k ∈ l) then Some v else m !! k.
Proof.
  revert m. induction l as [|i l IH]; intros m; [done|].
  cbn [foldl]. rewrite IH.
  destruct (decide (k = i)) as [->|Hne].
  - rewrite lookup_insert_eq.
    rewrite (bool_decide_eq_true_2 (i ∈ i :: l)) by (apply elem_of_cons; by left).
    by case_bool_decide.
  - rewrite lookup_insert_ne by done.
    apply (f_equal (λ b : bool, if b then Some v else m !! k)).
    apply bool_decide_ext. rewrite elem_of_cons. tauto.
Qed.

(** X24 — one prompt per window.  [transform_region_condi_list] keeps the
    bundles in number and order and the adapter map of each, and replaces
    each prompt map by one whose keys are exactly the frames 1 to 15, all
    holding the prompt the bundle has at key 0, or Python's [None] when it
    has no key 0: key 0 itself is not a key of the new map, and the prompts
    of all other keys are dropped. *)
Theorem transform_region_condi_list_frame_0 (region_condi_list : list ConditionMap) :
  Forall2 (λ c t,
      tc_ip_adapter_map t = cm_ip_adapter_map c
      ∧ ∀ i, tc_prompt_map t !! i
             = if bool_decide (1 ≤ i ≤ 15) then Some (cm_prompt_map c !! 0)
               else None)
    region_condi_list (transform_region_condi_list region_condi_list).
Proof.
  unfold transform_region_condi_list.
  apply Forall2_fmap_r, Forall_Forall2_diag, Forall_forall.
  intros c _. split; [done|]. intros i. cbn [tc_prompt_map].
  assert (∀ new0 : gmap Z (option string),
    foldl (λ (new_prompt_map : gmap Z (option string)) (i : Z),
      match cm_prompt_map c !! 0 with
      | Some pr => <[i := Some pr]> new_prompt_map
      | None => <[i := None]> new_prompt_map
      end) new0 (py_range 1 16)
    = foldl (λ (m : gmap Z (option string)) (i : Z),
        <[i := cm_prompt_map c !! 0]> m) new0 (py_range 1 16)) as ->.
  { intros new0. by destruct (cm_prompt_map c !! 0). }
  rewrite foldl_insert_lookup, lookup_empty.
  apply (f_equal (λ b : bool, if b then Some (cm_prompt_map c !! 0) else None)).
  apply bool_decide_ext. unfold py_range. rewrite elem_of_seqZ. lia.
Qed.

(** ** More on the per-frame prompt query *)

Section get_current_prompt_embeds_more.
Context {Embeds Float : Type}.
Variable truediv : Z → Z → Float.
Variable tensor_interpolation : Embeds → Embeds → Float → Embeds.

Lemma scan_keys_elem (keys : list Z) (f kp0 kn0 : Z) :
  let '(kp, kn) := scan_keys keys f kp0 kn0 in
  (kp ∈ keys ∨ kp = kp0) ∧ (kn ∈ keys ∨ kn = kn0).
Proof.
  revert kp0. induction keys as [|p rest IH]; intros kp0; simpl; [by split; right|].
  destruct (p >? f).
  - split; [by right|]. left. apply elem_of_cons. by left.
  - specialize (IH p). destruct (scan_keys rest f p kn0) as [kp kn].
    destruct IH as [Hp Hn]. split.
    + left. apply elem_of_cons. destruct Hp as [?| ->]; [by right|by left].
    + destruct Hn as [?| ->]; [left|by right]. apply elem_of_cons. by right.
Qed.

(** X25 — the query on any frame.  Looking up the first and last key fails
    with an [IndexError] on an empty prompt map.  On a prompt map that is
    not empty and has an embedding for each of its keys, the query returns
    an embedding for every frame number and every video length, also
    outside the range of the keys, and with a single key it returns the
    embedding of that key as it is. *)
Theorem get_current_prompt_embeds_returns (keys : list Z)
    (prompt_embeds_map : gmap Z Embeds) (center_frame video_length : Z) :
  (keys = [] →
   get_current_prompt_embeds truediv tensor_interpolation
     keys prompt_embeds_map center_frame video_length = Raise IndexError)
  ∧ (keys ≠ [] →
     Forall (λ k, is_Some (prompt_embeds_map !! k)) keys →
     ∃ e, get_current_prompt_embeds truediv tensor_interpolation
            keys prompt_embeds_map center_frame video_length = Ok e)
  ∧ (∀ k e, keys = [k] → prompt_embeds_map !! k = Some e →
       get_current_prompt_embeds truediv tensor_interpolation
         keys prompt_embeds_map center_frame video_length = Ok e).
Proof.
  split; [by intros ->|]. split.
  - intros Hne Hall. rewrite Forall_forall in Hall.
    destruct (head keys) as [key_first|] eqn:Hfirst; [|by destruct keys].
    destruct (last keys) as [key_last|] eqn:Hlast; [|by apply last_None in Hlast].
    unfold get_current_prompt_embeds.
    rewrite (py_index_first _ _ Hfirst), (py_index_last _ _ Hlast). simpl.
    pose proof (scan_keys_elem keys center_frame key_last key_first) as Hscan.
    destruct (scan_keys keys center_frame key_last key_first) as [key_prev key_next].
    destruct Hscan as [Hp Hn].
    assert (key_prev ∈ keys) as Hpin.
    { destruct Hp as [?| ->]; [done|].
      rewrite last_lookup in Hlast. by eapply list_elem_of_lookup_2. }
    assert (key_next ∈ keys) as Hnin.
    { destruct Hn as [?| ->]; [done|].
      destruct keys; [done|]. injection Hfirst as ->. apply elem_of_cons. by left. }
    destruct (Hall _ Hpin) as [e_prev Hep]. destruct (Hall _ Hnin) as [e_next Hen].
    unfold cache_getitem. rewrite Hep, Hen.
    destruct (_ || _); simpl; eauto.
  - intros k e -> Hk. unfold get_current_prompt_embeds. cbn [py_index].
    unfold py_index, len. simpl. unfold cache_getitem.
    destruct (k >? center_frame); rewrite Z.eqb_refl; simpl; by rewrite Hk.
Qed.
End get_current_prompt_embeds_more.

(** ** The preprocessor cache *)

Section controlnet_preprocessor_properties.
Context {Param : Type}.
Variable MODELS : list string.
Variable onnxruntime_installed : bool.
Variable call_preprocessor : PreProcessor → Image → Param → result Image.
Variable no_param : Param.

Lemma get_preprocessor_entry (type_str : string)
    (preprocessor_map : option (PreprocessorMap Param))
    (cache cache' : gmap string (option PreProcessor)) (p : option PreProcessor) :
  get_preprocessor MODELS onnxruntime_installed type_str preprocessor_map cache
  = (Ok p, cache') →
  cache' !! type_str = Some p
  ∧ (is_Some (cache !! type_str) → cache' = cache)
  ∧ (cache !! type_str = None → is_Some p)
  ∧ ∀ t, t ≠ type_str → cache' !! t = cache !! t.
Proof.
  unfold get_preprocessor.
  destruct (cache !! type_str) as [p0|] eqn:Hhit.
  { intros [= <- <-]. split; [done|]. split; [done|]. split; done. }
  destruct preprocessor_map as [pm|]; simpl.
  - destruct (pm_type pm) as [pre_type|]; simpl; [|done].
    destruct (create_preprocessor_from_name MODELS pre_type) as [q|e]; simpl; [|done].
    rewrite lookup_insert_eq. simpl. rewrite lookup_insert_eq.
    intros [= <- <-]. rewrite lookup_insert_eq.
    split; [done|]. split; [by intros [? ?]|]. split; [eauto|].
    intros t Ht. by rewrite lookup_insert_ne.
  - rewrite Hhit.
    destruct (create_default_preprocessor MODELS onnxruntime_installed type_str)
      as [q|e]; simpl; [|done].
    rewrite lookup_insert_eq. intros [= <- <-]. rewrite lookup_insert_eq.
    split; [done|]. split; [by intros [? ?]|]. split; [eauto|].
    intros t Ht. by rewrite lookup_insert_ne.
Qed.

(** X26 — a cached preprocessor wins.  Once [get_preprocessor] has returned
    for a type, every later call for that type returns the same object and
    leaves the cache as it is, whatever [preprocessor_map] it is given: a
    changed preprocessor type for the same controlnet type is ignored until
    the cache is cleared. *)
Theorem get_preprocessor_cached (type_str : string)
    (preprocessor_map preprocessor_map' : option (PreprocessorMap Param))
    (cache cache' : gmap string (option PreProcessor)) (p : option PreProcessor) :
  get_preprocessor MODELS onnxruntime_installed type_str preprocessor_map cache
  = (Ok p, cache') →
  get_preprocessor MODELS onnxruntime_installed type_str preprocessor_map' cache'
  = (Ok p, cache').
Proof.
  intros [Hp _]%get_preprocessor_entry. unfold get_preprocessor. by rewrite Hp.
Qed.

(** X27 — clearing one type.  [clear_controlnet_preprocessor] with a type
    leaves the type in the cache with the value [None]: the next
    [get_preprocessor] for it returns [None] instead of making a
    preprocessor, and [get_preprocessed_img] with [use_preprocessor] then
    fails with a [TypeError].  After the call without a type the cache is
    empty and [get_preprocessor] never returns [None]. *)
Theorem clear_controlnet_preprocessor_then_get (type_str : string) (img : Image)
    (preprocessor_map : option (PreprocessorMap Param))
    (cache : gmap string (option PreProcessor)) :
  let cleared := clear_controlnet_preprocessor (Some type_str) cache in
  get_preprocessor MODELS onnxruntime_installed type_str preprocessor_map cleared
  = (Ok None, cleared)
  ∧ get_preprocessed_img MODELS onnxruntime_installed call_preprocessor no_param
      type_str img true preprocessor_map cleared
    = (Raise TypeError, cleared)
  ∧ ∀ p cache',
      get_preprocessor MODELS onnxruntime_installed type_str preprocessor_map
        (clear_controlnet_preprocessor None cache) = (Ok p, cache') →
      is_Some p.
Proof.
  simpl. unfold get_preprocessed_img, get_preprocessor.
  rewrite lookup_insert_eq. split; [done|]. split; [done|].
  intros p cache' Hget.
  by apply (get_preprocessor_entry type_str preprocessor_map ∅ cache' p).
Qed.
End controlnet_preprocessor_properties.

Local Open Scope string_scope.

Lemma get_current_prompt_embeds_returns_witness :
  ∃ e, get_current_prompt_embeds (λ a b, (inject_Z a / inject_Z b)%Q)
         (λ a b r, (a + (b - a) * r)%Q) [0; 8] {[ 0 := 0%Q; 8 := 16%Q ]} 100 3
       = Ok e.
Proof.
  apply (get_current_prompt_embeds_returns (λ a b, (inject_Z a / inject_Z b)%Q)
           (λ a b r, (a + (b - a) * r)%Q) [0; 8] {[ 0 := 0%Q; 8 := 16%Q ]} 100 3).
  - discriminate.
  - apply Forall_cons_2; [by eexists|]. apply Forall_cons_2; [by eexists|]. constructor.
Defined.

Lemma get_preprocessor_cached_witness :
  get_preprocessor (Param := unit) ["canny"] false "controlnet_canny"
    (Some (MkPreprocessorMap (Some "unknown") None))
    {[ "controlnet_canny" := Some (ControlnetPreProcessor "canny") ]}
  = (Ok (Some (ControlnetPreProcessor "canny")),
     {[ "controlnet_canny" := Some (ControlnetPreProcessor "canny") ]}).
Proof.
  apply (get_preprocessor_cached ["canny"] false "controlnet_canny" None _ ∅).
  vm_compute. reflexivity.
Defined.

Lemma clear_controlnet_preprocessor_then_get_witness :
  get_preprocessed_img (Param := unit) ["canny"] false (λ _ img _, Ok img) tt
    "controlnet_canny" example_mask true None
    (clear_controlnet_preprocessor (Some "controlnet_canny")
       {[ "controlnet_canny" := Some (ControlnetPreProcessor "canny") ]})
  = (Raise TypeError, {[ "controlnet_canny" := None ]})
  ∧ ∀ p cache',
      get_preprocessor (Param := unit) ["canny"] false "controlnet_canny" None
        (clear_controlnet_preprocessor None
           {[ "controlnet_canny" := Some (ControlnetPreProcessor "canny") ]})
      = (Ok p, cache') →
      is_Some p.
Proof.
  destruct (clear_controlnet_preprocessor_then_get (Param := unit) ["canny"] false
              (λ _ img _, Ok img) tt "controlnet_canny" example_mask None
              {[ "controlnet_canny" := Some (ControlnetPreProcessor "canny") ]})
    as (_ & Himg & Hnone).
  split; [exact Himg|exact Hnone].
Defined.

Local Close Scope string_scope.

(** ** The empty prompt map *)

Lemma hold_fold_keeps_keys {T : Type} (ratio : Q) (pairs : list (Z * Z))
    (m : gmap Z T) (k : Z) :
  is_Some (m !! k) → is_Some (foldl (hold_step ratio) m pairs !! k).
Proof.
  revert m. induction pairs as [|[k0 k1] pairs IH]; intros m Hk; [done|].
  cbn [foldl]. apply IH. unfold hold_step.
  case_bool_decide; [|done]. destruct (m !! k0) as [v|]; [|done].
  destruct (decide (k = hold_key ratio k0 k1)) as [->|Hne].
  - rewrite lookup_insert_eq. eauto.
  - by rewrite lookup_insert_ne.
Qed.

Lemma insert_hold_keys_empty {T : Type} (m : gmap Z T) (ratio : Q) (duration : Z) :
  insert_hold_keys m ratio duration = ∅ ↔ m = ∅.
Proof.
  split.
  - intros Hemp. apply map_empty. intros k.
    destruct (m !! k) as [v|] eqn:Hk; [|done].
    destruct (hold_fold_keeps_keys ratio (key_pairs (sorted_keys m) duration) m k)
      as [v' Hv']; [eauto|].
    unfold insert_hold_keys in Hemp. by rewrite Hemp in Hv'.
  - intros ->. unfold insert_hold_keys, sorted_keys.
    by rewrite dom_empty_L, elements_empty.
Qed.

(** X28 — no prompt at all.  [prompt_preprocess] returns the empty map
    exactly when every key of the configuration is at or after
    [video_length] (or there is no key), whatever the hold ratio and the
    head and tail prompts are; a key below [video_length] is never lost. *)
Theorem prompt_preprocess_empty (prompt_config_map : list (Z * string))
    (head_prompt tail_prompt : string) (ratio : Q) (video_length : Z) :
  prompt_preprocess prompt_config_map head_prompt tail_prompt ratio video_length = ∅
  ↔ Forall (λ kp : Z * string, video_length ≤ kp.1) prompt_config_map.
Proof.
  rewrite prompt_preprocess_kept, insert_hold_keys_empty, kept_below_empty.
  rewrite Forall_fmap. apply Forall_proper; [|done]. by intros [k pr].
Qed.
